(** * A Rocq model of the grid execution engine (src/engine.py)

    The engine is embedded shallowly: every method of [GridEngine] becomes a
    function in a state-and-exception monad over a [world] that holds the
    engine's mutable attributes, the state of the external environment
    (venue, clock, I/O faults), the file system, and a log of the venue calls
    and console messages the engine produced.

    Python floats are idealised as exact rationals ([Qc]) in the engine
    model, whose properties are about control flow, orders, the log and the
    files; the dust threshold [1e-12] is there the rational [1/10^12].
    Where the outcome depends on rounding, the code is embedded a second
    time over IEEE 754 binary64, which is what a Python float is: the
    ledger arithmetic of [on_fill] ([sell_loop64]) and the grid computed by
    the launcher ([make_levels64], [grid_quantities64]).  The properties
    of the realized PnL, of the lots and of the launcher's grid are stated
    over these. *)

From Stdlib Require Import QArith Qcanon Ascii Lqa Floats.
From stdpp Require Import base numbers list gmap strings sorting.

Local Open Scope Qc_scope.
#[local] Set Warnings "-inexact-float".

(** ** Numbers *)

Definition qfrac (a : Z) (b : positive) : Qc := Q2Qc (a # b).
Definition qint (a : Z) : Qc := Q2Qc (inject_Z a).

(** The literal [1e-12] used by [on_fill] and [snapshot_and_dump]. *)
Definition dust : Qc := qfrac 1 1000000000000.

Definition gtb (x y : Qc) : bool := bool_decide (y < x).
Definition ltb (x y : Qc) : bool := bool_decide (x < y).
Definition leb (x y : Qc) : bool := bool_decide (x ≤ y).

(** Python's [min(a, b)]: returns [b] only when [b < a]. *)
Definition py_min (a b : Qc) : Qc := if ltb b a then b else a.
(** Python's [max(a, b)]: returns [b] only when [b > a]. *)
Definition py_max (a b : Qc) : Qc := if gtb b a then b else a.

(** ** Insertion-ordered dictionaries

    [open_orders] and [order_meta] are Python dicts that the engine iterates
    over, so their insertion order is observable; they are modelled as
    association lists with the dict operations written out. *)

Section odict.
Context {K V : Type} `{EqDecision K}.

Fixpoint od_get (k : K) (d : list (K * V)) : option V :=
  match d with
  | [] => None
  | (k', v) :: d' => if decide (k' = k) then Some v else od_get k d'
  end.

(** [k in d] *)
Definition od_mem (k : K) (d : list (K * V)) : bool :=
  match od_get k d with Some _ => true | None => false end.

(** [d[k] = v]: an existing key keeps its position. *)
Fixpoint od_set (k : K) (v : V) (d : list (K * V)) : list (K * V) :=
  match d with
  | [] => [(k, v)]
  | (k', v') :: d' =>
      if decide (k' = k) then (k, v) :: d' else (k', v') :: od_set k v d'
  end.

(** [d.pop(k, None)], the dictionary part. *)
Fixpoint od_del (k : K) (d : list (K * V)) : list (K * V) :=
  match d with
  | [] => []
  | (k', v') :: d' =>
      if decide (k' = k) then d' else (k', v') :: od_del k d'
  end.

Definition od_keys (d : list (K * V)) : list K := d.*1.
End odict.

(** ** Exceptions and results *)

Inductive exn :=
| KeyError | ValueError | TypeError | AttributeError | RuntimeError
| ZeroDivisionError | OverflowError | OSError | ExchangeError | KeyboardInterrupt.

#[global] Instance exn_eq_dec : EqDecision exn.
Proof. solve_decision. Defined.

(** [except Exception] catches everything but [KeyboardInterrupt]. *)
Definition is_Exception (e : exn) : bool :=
  match e with KeyboardInterrupt => false | _ => true end.

Inductive res (A : Type) :=
| Ok (a : A)
| Raise (e : exn).
Arguments Ok {A} a.
Arguments Raise {A} e.

#[global] Instance res_eq_dec {A} `{EqDecision A} : EqDecision (res A).
Proof. solve_decision. Defined.

(** ** Values decoded from the command queue

    A command line is decoded by [json.loads]; the engine only ever applies
    [float()], [bool()], [==] and dict access to the result, so a nested
    list or dict inside a field is represented by its emptiness alone. *)

Inductive jval :=
| JNull
| JBool (b : bool)
| JNum (q : Qc)
| JStr (s : string)
| JList (nonempty : bool)
| JDict (nonempty : bool).

#[global] Instance jval_eq_dec : EqDecision jval.
Proof. solve_decision. Defined.

Inductive parsed :=
| PObj (fields : list (string * jval))   (* a JSON object *)
| PNotObj (v : jval).                    (* any other JSON document *)

(** Python truthiness, [bool(v)]. *)
Definition py_bool (v : jval) : bool :=
  match v with
  | JNull => false
  | JBool b => b
  | JNum q => negb (bool_decide (q = 0))
  | JStr s => negb (bool_decide (s = ""%string))
  | JList b => b
  | JDict b => b
  end.

(** ** Order sides *)

Inductive side :=
| Buy                      (* the string 'buy' *)
| Sell                     (* the string 'sell' *)
| OtherSide (v : jval).    (* anything else a command may carry *)

#[global] Instance side_eq_dec : EqDecision side.
Proof. solve_decision. Defined.

Definition side_of_jval (v : jval) : side :=
  match v with
  | JStr s =>
      if bool_decide (s = "buy"%string) then Buy
      else if bool_decide (s = "sell"%string) then Sell
      else OtherSide v
  | _ => OtherSide v
  end.

Definition is_buy (s : side) : bool := match s with Buy => true | _ => false end.
Definition is_sell (s : side) : bool := match s with Sell => true | _ => false end.

(** ** Data held by the engine *)

Definition oid := string.

(** [order_meta[oid] = {'price', 'side', 'last_filled'}] *)
Record meta := Meta { m_price : Qc; m_side : side; m_last_filled : Qc }.

(** An inventory lot [{'contracts', 'price'}]. *)
Record lot := Lot { contracts : Qc; lot_price : Qc }.

Record trade := Trade { tr_ts : string; tr_side : side; tr_price : Qc; tr_contracts : Qc }.

Record equity_point :=
  EquityPoint { eq_ts : string; eq_equity : Qc; eq_realized : Qc; eq_unrealized : Qc }.

(** A file path, split by [os.path.dirname] / [os.path.basename]. *)
Record path := Path { p_dir : string; p_base : string }.

(** [os.path.dirname(path) or "."] *)
Definition dir_or_dot (p : path) : string :=
  if bool_decide (p_dir p = ""%string) then "."%string else p_dir p.

(** The file a path denotes: directory (the current one when empty) and name. *)
Definition fkey (p : path) : string * string := (dir_or_dot p, p_base p).

(** The attributes [__init__] sets and no method changes afterwards. *)
Record config := Config {
  symbol : string;
  mkt_id : option string;            (* [self.mkt['id']]; [None] when absent *)
  entry_price : Qc;
  contract_size : Qc;
  levels : list Qc;
  GRID_QTY_BY_LEVEL : gmap Qc Qc;
  STATE_PATH : path;
  COMMANDS_PATH : path;
  fee_rate : Qc;
  SLEEP_SEC : Qc;
  LOOP_SLEEP : Qc;
  band_ttl : Qc;
  init_position_enabled : bool }.

(** The attributes the methods mutate. *)
Record state := State {
  band_cache : option (Qc * Qc);     (* [_band_cache]: (max_buy, min_sell) *)
  band_ts : Qc;
  open_orders : list (Qc * oid);     (* price -> order id *)
  order_meta : list (oid * meta);    (* order id -> meta *)
  trades_log : list trade;           (* deque(maxlen=5000) *)
  inventory : list lot;              (* FIFO deque, head = oldest *)
  realized_pnl : Qc;
  fills_at : gmap Qc (nat * nat);    (* price -> (buy count, sell count) *)
  equity_series : list equity_point; (* deque(maxlen=5000) *)
  initialized_full : bool;
  first_fill_ignore : bool }.

Definition set_band_cache (x : option (Qc * Qc)) (s : state) : state :=
  State x (band_ts s) (open_orders s) (order_meta s) (trades_log s) (inventory s)
    (realized_pnl s) (fills_at s) (equity_series s) (initialized_full s) (first_fill_ignore s).
Definition set_band_ts (x : Qc) (s : state) : state :=
  State (band_cache s) x (open_orders s) (order_meta s) (trades_log s) (inventory s)
    (realized_pnl s) (fills_at s) (equity_series s) (initialized_full s) (first_fill_ignore s).
Definition set_open_orders (x : list (Qc * oid)) (s : state) : state :=
  State (band_cache s) (band_ts s) x (order_meta s) (trades_log s) (inventory s)
    (realized_pnl s) (fills_at s) (equity_series s) (initialized_full s) (first_fill_ignore s).
Definition set_order_meta (x : list (oid * meta)) (s : state) : state :=
  State (band_cache s) (band_ts s) (open_orders s) x (trades_log s) (inventory s)
    (realized_pnl s) (fills_at s) (equity_series s) (initialized_full s) (first_fill_ignore s).
Definition set_trades_log (x : list trade) (s : state) : state :=
  State (band_cache s) (band_ts s) (open_orders s) (order_meta s) x (inventory s)
    (realized_pnl s) (fills_at s) (equity_series s) (initialized_full s) (first_fill_ignore s).
Definition set_inventory (x : list lot) (s : state) : state :=
  State (band_cache s) (band_ts s) (open_orders s) (order_meta s) (trades_log s) x
    (realized_pnl s) (fills_at s) (equity_series s) (initialized_full s) (first_fill_ignore s).
Definition set_realized_pnl (x : Qc) (s : state) : state :=
  State (band_cache s) (band_ts s) (open_orders s) (order_meta s) (trades_log s) (inventory s)
    x (fills_at s) (equity_series s) (initialized_full s) (first_fill_ignore s).
Definition set_fills_at (x : gmap Qc (nat * nat)) (s : state) : state :=
  State (band_cache s) (band_ts s) (open_orders s) (order_meta s) (trades_log s) (inventory s)
    (realized_pnl s) x (equity_series s) (initialized_full s) (first_fill_ignore s).
Definition set_equity_series (x : list equity_point) (s : state) : state :=
  State (band_cache s) (band_ts s) (open_orders s) (order_meta s) (trades_log s) (inventory s)
    (realized_pnl s) (fills_at s) x (initialized_full s) (first_fill_ignore s).
Definition set_initialized_full (x : bool) (s : state) : state :=
  State (band_cache s) (band_ts s) (open_orders s) (order_meta s) (trades_log s) (inventory s)
    (realized_pnl s) (fills_at s) (equity_series s) x (first_fill_ignore s).
Definition set_first_fill_ignore (x : bool) (s : state) : state :=
  State (band_cache s) (band_ts s) (open_orders s) (order_meta s) (trades_log s) (inventory s)
    (realized_pnl s) (fills_at s) (equity_series s) (initialized_full s) x.

(** ** What the venue returns *)

Inductive order_type := Limit | Market.

(** [fetch_order]: the ['filled'] and ['status'] entries, [None] when absent. *)
Record order_info := OrderInfo { od_filled : option Qc; od_status : option string }.

(** [fetch_ticker]: [markPx] is [None] when [float(tk['info'].get('markPx'))]
    would raise; [last] is [None] when the entry is absent. *)
Record ticker := Ticker { tk_markPx : option Qc; tk_last : option Qc }.

Record order_book := OrderBook { ob_bids : list (Qc * Qc); ob_asks : list (Qc * Qc) }.

(** A row of the price-limit endpoint; a field is [None] when reading it as a
    float would raise. *)
Record limit_row := LimitRow { buyLmt : option Qc; sellLmt : option Qc }.

(** The document [snapshot_and_dump] serialises. *)
Record state_doc := StateDoc {
  d_ts : string;
  d_symbol : string;
  d_entry_price : Qc;
  d_current_price : Qc;
  d_contract_size : Qc;
  d_levels : list Qc;
  d_grid_qty_by_level : gmap Qc Qc;
  d_open_orders : list (Qc * oid * option side);   (* side [None] is printed as '?' *)
  d_inventory_contracts : Qc;
  d_inventory_btc : Qc;
  d_inventory_avg_cost : Qc;
  d_realized_pnl : Qc;
  d_unrealized_pnl : Qc;
  d_equity : Qc;
  d_fee_rate : Qc;
  d_price_band : Qc * Qc;
  d_trades : list trade;
  d_equity_series : list equity_point }.

(** ** The log: venue calls and console messages *)

Inductive call :=
| CPlaceLimit (s : side) (price qty : Qc)        (* the injected [place_limit] *)
| CCreateOrder (ty : order_type) (s : side) (qty : Qc) (price : option Qc)
    (reduce_only : bool)                         (* [okx.create_order] *)
| CCancelOrder (o : oid)
| CFetchOrder (o : oid)
| CFetchTicker
| CFetchOrderBook
| CPriceLimit.

Inductive msg :=
| MSkipBuy (price max_buy : Qc)                  (* "! skip BUY ..." *)
| MSkipSell (price min_sell : Qc)                (* "! skip SELL ..." *)
| MPlaced (s : side) (price : Qc) (o : oid)      (* "+ side@price id=..." *)
| MPlaceErr (s : side) (price : Qc) (e : exn)
| MCancelErr (o : oid) (e : exn)
| MCanceled (price : Qc)
| MCanceledAll
| MMarket (s : side) (qty : Qc) (o : oid)
| MMarketErr (s : side) (e : exn)
| MClosed (s : side) (price filled : Qc)         (* "* closed ..." *)
| MFirstFillIgnored                              (* "* first fill ignored ..." *)
| MSkipPlaceLimit (price : Qc)                   (* "! skip place_limit: ..." *)
| MCmdPlaced (s : side) (price : Qc) (o : oid)
| MCmdPlaceErr (e : exn)
| MCmdHold (price : Qc)
| MRestoreFailed (price : Qc)
| MRestoreSkippedQty (price : Qc)
| MRestoreSkippedHasOrder (price : Qc)
| MProcessCommandsError (e : exn)
| MInitialized (px sell_total : Qc)
| MStarted
| MHeartbeat (loop_i buys sells : nat) (inv_c : Qc)
| MStopped.

Inductive event :=
| EvCall (c : call)
| EvPrint (m : msg).

(** ** The environment

    Everything the engine calls but does not define: the exchange client, the
    injected [place_limit], the clock, the JSON codec and the faults of the
    file system.  [V] is the environment's own state; a call may fail with
    any exception. *)

Record Env (V : Type) := {
  price_to_precision : Qc → Qc;
  amount_to_precision : Qc → Qc;
  place_limit : side → Qc → Qc → V → res oid * V;
  create_order : order_type → side → Qc → option Qc → bool → V → res oid * V;
  cancel_order : oid → V → res () * V;
  fetch_order : oid → V → res order_info * V;
  fetch_ticker : V → res ticker * V;
  fetch_order_book : V → res order_book * V;
  public_price_limit : string → V → res (list limit_row) * V;
  time_time : V → Qc * V;
  time_sleep : Qc → V → res () * V;
  utcnow : V → string * V;
  io_fault : V → option exn * V;        (* does the next file operation fail? *)
  mkstemp_suffix : V → string * V;      (* the random part of a temp name *)
  json_loads : string → option parsed;  (* [None]: the line is not JSON *)
  json_dump : state_doc → list string;  (* the chunks written, in order *)
  str_to_float : string → option Qc     (* [float(s)] on a string *)
}.
Arguments price_to_precision {V} _ _.
Arguments amount_to_precision {V} _ _.
Arguments place_limit {V} _ _ _ _ _.
Arguments create_order {V} _ _ _ _ _ _ _.
Arguments cancel_order {V} _ _ _.
Arguments fetch_order {V} _ _ _.
Arguments fetch_ticker {V} _ _.
Arguments fetch_order_book {V} _ _.
Arguments public_price_limit {V} _ _ _.
Arguments time_time {V} _ _.
Arguments time_sleep {V} _ _ _.
Arguments utcnow {V} _ _.
Arguments io_fault {V} _ _.
Arguments mkstemp_suffix {V} _ _.
Arguments json_loads {V} _ _.
Arguments json_dump {V} _ _.
Arguments str_to_float {V} _ _.

(** ** Worlds and the engine monad *)

Record world (V : Type) := World {
  st : state;                              (* the engine's attributes *)
  env : V;                                 (* the environment *)
  fs : gmap (string * string) string;      (* (directory, name) -> content *)
  log : list (event * state)               (* newest first; each entry keeps the
                                              engine state at the time it was logged *)
}.
Arguments World {V} _ _ _ _.
Arguments st {V} _.
Arguments env {V} _.
Arguments fs {V} _.
Arguments log {V} _.

Section monad.
Context {V : Type}.

Definition M (A : Type) : Type := world V → res A * world V.

Definition ret {A} (a : A) : M A := λ w, (Ok a, w).

Definition bind {A B} (m : M A) (k : A → M B) : M B :=
  λ w, match m w with
       | (Ok a, w') => k a w'
       | (Raise e, w') => (Raise e, w')
       end.

Definition raise {A} (e : exn) : M A := λ w, (Raise e, w).

(** [try: m  except Exception as e: h e] *)
Definition try_except {A} (m : M A) (h : exn → M A) : M A :=
  λ w, match m w with
       | (Ok a, w') => (Ok a, w')
       | (Raise e, w') => if is_Exception e then h e w' else (Raise e, w')
       end.

(** [try: m  finally: f] *)
Definition try_finally {A} (m : M A) (f : M ()) : M A :=
  λ w, match m w with
       | (r, w') =>
           match f w' with
           | (Ok _, w'') => (r, w'')
           | (Raise e, w'') => (Raise e, w'')
           end
       end.

Definition get_st : M state := λ w, (Ok (st w), w).

Definition modify (f : state → state) : M () :=
  λ w, (Ok (), World (f (st w)) (env w) (fs w) (log w)).

Definition emit (ev : event) : M () :=
  λ w, (Ok (), World (st w) (env w) (fs w) ((ev, st w) :: log w)).

Definition print (m : msg) : M () := emit (EvPrint m).

(** A call that may fail, logged before it is made. *)
Definition venue {A} (c : call) (f : V → res A * V) : M A :=
  λ w, let '(r, v') := f (env w) in
       (r, World (st w) v' (fs w) ((EvCall c, st w) :: log w)).

(** An environment call that is not logged. *)
Definition ask {A} (f : V → res A * V) : M A :=
  λ w, let '(r, v') := f (env w) in (r, World (st w) v' (fs w) (log w)).

(** An environment query that cannot fail. *)
Definition query {A} (f : V → A * V) : M A :=
  λ w, let '(a, v') := f (env w) in (Ok a, World (st w) v' (fs w) (log w)).

Definition get_fs : M (gmap (string * string) string) := λ w, (Ok (fs w), w).

Definition put_fs (f : gmap (string * string) string) : M () :=
  λ w, (Ok (), World (st w) (env w) f (log w)).

(** [for x in l: body x] *)
Fixpoint for_each {A} (l : list A) (body : A → M ()) : M () :=
  match l with
  | [] => ret ()
  | x :: l' => bind (body x) (λ _, for_each l' body)
  end.
End monad.

Notation "'let*' x := m 'in' k" := (bind m (λ x, k))
  (at level 10, x name, m at level 100, k at level 200, only parsing).
Notation "'let*' ' p := m 'in' k" := (bind m (λ p, k))
  (at level 10, p strict pattern, m at level 100, k at level 200, only parsing).
Notation "m1 >>> m2" := (bind m1 (λ _, m2))
  (at level 100, m2 at level 200, right associativity, only parsing).

(** ** Small library functions of Python *)

(** [deque(maxlen=n).append(x)]: the oldest entry is dropped when full. *)
Definition deque_append {A} (n : nat) (x : A) (l : list A) : list A :=
  let l' := l ++ [x] in
  if bool_decide (n < length l')%nat then drop 1 l' else l'.

(** [l[-n:]] for a positive [n]. *)
Definition last_n {A} (n : nat) (l : list A) : list A := drop (length l - n) l.

(** The lines of a text file opened in text mode: a line ends at a line
    feed, at a carriage return, or at a carriage return followed by a line
    feed, and each of these ends is read as a line feed. *)
Fixpoint split_lines_go (cur : string) (s : string) : list string :=
  match s with
  | EmptyString => if bool_decide (cur = ""%string) then [] else [String.rev cur]
  | String a s' =>
      if bool_decide (a = ascii_of_nat 10)
      then String.rev (String a cur) :: split_lines_go "" s'
      else if bool_decide (a = ascii_of_nat 13)
      then String.rev (String (ascii_of_nat 10) cur)
           :: split_lines_go ""
                (match s' with
                 | String b s'' => if bool_decide (b = ascii_of_nat 10) then s'' else s'
                 | EmptyString => s'
                 end)
      else split_lines_go (String a cur) s'
  end.
Definition split_lines (s : string) : list string := split_lines_go "" s.

Fixpoint lstrip (s : string) : string :=
  match s with
  | String a s' => if Ascii.is_space a then lstrip s' else s
  | EmptyString => EmptyString
  end.
(** [s.strip()] *)
Definition py_strip (s : string) : string :=
  String.rev (lstrip (String.rev (lstrip s))).

Definition ascii_lower (a : ascii) : ascii :=
  let n := nat_of_ascii a in
  if bool_decide (65 ≤ n ≤ 90)%nat then ascii_of_nat (n + 32) else a.
(** [s.lower()] on ASCII text. *)
Fixpoint py_lower (s : string) : string :=
  match s with
  | String a s' => String (ascii_lower a) (py_lower s')
  | EmptyString => EmptyString
  end.

(** [sorted(set(l))]: insertion into a strictly increasing list. *)
Fixpoint insert_level (x : Qc) (l : list Qc) : list Qc :=
  match l with
  | [] => [x]
  | y :: l' =>
      if ltb x y then x :: l
      else if bool_decide (x = y) then l
      else y :: insert_level x l'
  end.
Definition sorted_set (l : list Qc) : list Qc := foldr insert_level [] l.

(** Stable insertion sort of the open-order list by price
    ([open_list.sort(key=lambda x: x['price'])]). *)
Fixpoint insert_by_price {A} (x : Qc * A) (l : list (Qc * A)) : list (Qc * A) :=
  match l with
  | [] => [x]
  | y :: l' => if leb (fst x) (fst y) then x :: l else y :: insert_by_price x l'
  end.
Definition sort_by_price {A} (l : list (Qc * A)) : list (Qc * A) :=
  foldr insert_by_price [] l.

(** ** The engine's methods *)

Section engine.
Context {V : Type} (E : Env V) (c : config).
Local Abbreviation M := (M (V:=V)).

Definition p_prec (price : Qc) : Qc := price_to_precision E price.
Definition q_prec (qty : Qc) : Qc := amount_to_precision E qty.

(** [GRID_QTY_BY_LEVEL.get(p, 0.0)] *)
Definition grid_qty (p : Qc) : Qc := default 0 (GRID_QTY_BY_LEVEL c !! p).

Definition neighbor_above (p : Qc) : option Qc :=
  head (filter (λ x, p < x) (levels c)).

Definition neighbor_below (p : Qc) : option Qc :=
  last (filter (λ x, x < p) (levels c)).

Definition sleep (sec : Qc) : M () := ask (time_sleep E sec).

(** The part of [current_mark_or_mid] after the mark price was unusable. *)
Definition mid_or_last (tk : ticker) : M Qc :=
  let* ob := venue CFetchOrderBook (fetch_order_book E) in
  match ob_bids ob, ob_asks ob with
  | (b, _) :: _, (a, _) :: _ => ret (p_prec ((b + a) / 2))
  | _, _ =>
      ret (p_prec (match tk_last tk with
                   | Some l => if bool_decide (l = 0) then entry_price c else l
                   | None => entry_price c
                   end))
  end.

Definition current_mark_or_mid : M Qc :=
  try_except
    (let* tk := venue CFetchTicker (fetch_ticker E) in
     match tk_markPx tk with
     | Some mark =>
         if bool_decide (mark = 0) then mid_or_last tk else ret (p_prec mark)
     | None => mid_or_last tk
     end)
    (λ _, ret (entry_price c)).

(** The [try ... except ... finally] of [fetch_price_band_cached]. *)
Definition refresh_band (now fallback_price : Qc) : M () :=
  try_finally
    (try_except
       (let* inst_id := match mkt_id c with Some i => ret i | None => raise KeyError end in
        let* data := venue CPriceLimit (public_price_limit E inst_id) in
        match data with
        | [] => raise RuntimeError
        | row :: _ =>
            match buyLmt row, sellLmt row with
            | Some b, Some s => modify (set_band_cache (Some (p_prec b, p_prec s)))
            | _, _ => raise ValueError
            end
        end)
       (λ _, let px := p_prec fallback_price in
             modify (set_band_cache
                       (Some (p_prec (px * qfrac 102 100), p_prec (px * qfrac 98 100))))))
    (modify (set_band_ts now)).

(** [return self._band_cache], which the callers unpack into two bounds. *)
Definition read_band : M (Qc * Qc) :=
  let* s := get_st in
  match band_cache s with Some b => ret b | None => raise TypeError end.

Definition fetch_price_band_cached (fallback_price : Qc) : M (Qc * Qc) :=
  let* now := query (time_time E) in
  let* s := get_st in
  match band_cache s with
  | Some b =>
      if ltb (now - band_ts s) (band_ttl c) then ret b
      else refresh_band now fallback_price >>> read_band
  | None => refresh_band now fallback_price >>> read_band
  end.

(** The [try ... except] at the end of [safe_place]: submit, record, report. *)
Definition submit_limit (sd : side) (price qty : Qc) : M (option oid) :=
  try_except
    (let* o := venue (CPlaceLimit sd price qty) (place_limit E sd price qty) in
     modify (λ s, set_open_orders (od_set price o (open_orders s)) s) >>>
     modify (λ s, set_order_meta (od_set o (Meta price sd 0) (order_meta s)) s) >>>
     print (MPlaced sd price o) >>>
     sleep (SLEEP_SEC c) >>>
     ret (Some o))
    (λ e, print (MPlaceErr sd price e) >>> sleep (SLEEP_SEC c) >>> ret None).

Definition safe_place (sd : side) (price0 qty0 : Qc) : M (option oid) :=
  let price := p_prec price0 in
  let qty := q_prec qty0 in
  let* s := get_st in
  if od_mem price (open_orders s) then ret None
  else
    let* px := current_mark_or_mid in
    let* '(max_buy_band, min_sell_band) := fetch_price_band_cached px in
    if is_buy sd && gtb price max_buy_band then
      print (MSkipBuy price max_buy_band) >>> ret None
    else if is_sell sd && ltb price min_sell_band then
      print (MSkipSell price min_sell_band) >>> ret None
    else submit_limit sd price qty.

(** [try: okx.cancel_order(oid) except Exception as e: print(...)] *)
Definition try_cancel (o : oid) : M () :=
  try_except (venue (CCancelOrder o) (cancel_order E o)) (λ e, print (MCancelErr o e)).

Definition safe_cancel_by_price (price : Qc) : M bool :=
  let p := p_prec price in
  let* s := get_st in
  let popped := od_get p (open_orders s) in
  modify (λ s, set_open_orders (od_del p (open_orders s)) s) >>>
  match popped with
  | None => ret false
  | Some o =>
      if bool_decide (o = ""%string) then ret false
      else
        try_cancel o >>>
        modify (λ s, set_order_meta (od_del o (order_meta s)) s) >>>
        print (MCanceled p) >>>
        ret true
  end.

Definition cancel_all_open_orders : M () :=
  let* s := get_st in
  for_each (open_orders s) (λ '(p, o),
    try_cancel o >>>
    modify (λ s, set_order_meta (od_del o (order_meta s)) s) >>>
    modify (λ s, set_open_orders (od_del p (open_orders s)) s)) >>>
  print MCanceledAll.

(** [_place_market] *)
Definition place_market (sd : side) (qty_contracts : Qc) : M (option oid) :=
  try_except
    (let* o := venue (CCreateOrder Market sd (q_prec qty_contracts) None false)
                 (create_order E Market sd (q_prec qty_contracts) None false) in
     print (MMarket sd qty_contracts o) >>> ret (Some o))
    (λ e, print (MMarketErr sd e) >>> ret None).

(** *** Fill accounting *)

(** The [while to_sell > 1e-12 and self.inventory] loop of [on_fill], one
    unit of fuel per test of the loop condition.  [sell_loop_fuel] below
    shows that [S (length inv)] units always suffice.  The arithmetic is
    that of the rationals; what the loop computes on floats is
    [sell_loop64]. *)
Fixpoint sell_loop (fuel : nat) (price to_sell : Qc) (inv : list lot) (realized : Qc)
  : option (list lot * Qc) :=
  match fuel with
  | O => None
  | S fuel' =>
      match inv with
      | [] => Some (inv, realized)
      | lot0 :: rest =>
          if gtb to_sell dust then
            let use := py_min to_sell (contracts lot0) in
            let pnl := (price - lot_price lot0) * (use * contract_size c) in
            let fees := fee_rate c * price * (use * contract_size c)
                        + fee_rate c * lot_price lot0 * (use * contract_size c) in
            let realized' := realized + (pnl - fees) in
            let left := contracts lot0 - use in
            let to_sell' := to_sell - use in
            if leb left dust then sell_loop fuel' price to_sell' rest realized'
            else sell_loop fuel' price to_sell' (Lot left (lot_price lot0) :: rest) realized'
          else Some (inv, realized)
      end
  end.

(** [self.fills_at[price][side] += 1]: the defaultdict entry is created
    first; a side other than 'buy' and 'sell' is then a missing key. *)
Definition bump_fills (price : Qc) (sd : side) : M () :=
  let* s := get_st in
  let '(b, n) := default (0%nat, 0%nat) (fills_at s !! price) in
  match sd with
  | Buy => modify (set_fills_at (<[price := (S b, n)]> (fills_at s)))
  | Sell => modify (set_fills_at (<[price := (b, S n)]> (fills_at s)))
  | OtherSide v =>
      modify (set_fills_at (<[price := (b, n)]> (fills_at s))) >>>
      raise (match v with JList _ | JDict _ => TypeError | _ => KeyError end)
  end.

Definition on_fill (sd : side) (price cts : Qc) : M () :=
  let* ts := query (utcnow E) in
  modify (λ s, set_trades_log (deque_append 5000 (Trade ts sd price cts) (trades_log s)) s) >>>
  bump_fills price sd >>>
  match sd with
  | Buy => modify (λ s, set_inventory (inventory s ++ [Lot cts price]) s)
  | _ =>
      modify (λ s,
        match sell_loop (S (length (inventory s))) price cts (inventory s) (realized_pnl s) with
        | Some (inv', realized') => set_realized_pnl realized' (set_inventory inv' s)
        | None => s
        end)
  end.

(** *** Replenishment after a close *)

(** Lines 233-250 of [handle_post_close]: the rule applied when the close
    is not the ignored first one. *)
Definition replenish (sd : side) (price : Qc) : M () :=
  let qty := grid_qty price in
  if leb qty 0 then ret ()
  else
    match sd with
    | Buy =>
        match neighbor_above price with
        | Some up =>
            let up_qty := grid_qty up in
            let* s := get_st in
            if gtb up_qty 0 && negb (od_mem up (open_orders s))
            then safe_place Sell up up_qty >>> ret ()
            else ret ()
        | None => ret ()
        end
    | _ =>
        match neighbor_below price with
        | Some dn =>
            let dn_qty := grid_qty dn in
            let* s := get_st in
            if gtb dn_qty 0 && negb (od_mem dn (open_orders s))
            then safe_place Buy dn dn_qty >>> ret ()
            else ret ()
        | None => ret ()
        end
    end.

Definition handle_post_close (sd : side) (price filled_contracts : Qc) : M () :=
  print (MClosed sd price filled_contracts) >>>
  let* s := get_st in
  if first_fill_ignore s then
    modify (set_first_fill_ignore false) >>>
    print MFirstFillIgnored
  else replenish sd price.

(** *** The command queue *)

(** [cmd[k]] *)
Definition field (k : string) (cmd : list (string * jval)) : M jval :=
  match od_get k cmd with Some v => ret v | None => raise KeyError end.

(** The bound of [float(n)] for an int [n]: from [2^1024 - 2^970] on, the
    nearest double would be beyond the largest one. *)
Definition float_limit : Qc := qint (2 ^ 1024 - 2 ^ 970).

(** [float(v)].  A number of a JSON document that is beyond the range of a
    double is an int (a float literal that large is read as infinity, which
    the rationals do not have), and [float] raises on it. *)
Definition float_of (v : jval) : res Qc :=
  match v with
  | JNum q =>
      if bool_decide (float_limit ≤ q ∨ q ≤ - float_limit) then Raise OverflowError
      else Ok q
  | JBool b => Ok (if b then 1 else 0)
  | JStr s => match str_to_float E s with Some q => Ok q | None => Raise ValueError end
  | _ => Raise TypeError
  end.

Definition py_float (v : jval) : M Qc := λ w, (float_of v, w).

Definition op_is (name : string) (cmd : list (string * jval)) : bool :=
  bool_decide (od_get "op"%string cmd = Some (JStr name)).

(** The [try ... except] of the [place_limit] command: skip on a price
    collision, else submit through [okx.create_order], record, report. *)
Definition submit_command_limit (sd : side) (price cts : Qc) (reduce_only : bool) : M () :=
  try_except
    (let* s := get_st in
     if od_mem price (open_orders s) then print (MSkipPlaceLimit price)
     else
       let* o := venue (CCreateOrder Limit sd cts (Some price) reduce_only)
                   (create_order E Limit sd cts (Some price) reduce_only) in
       modify (λ s, set_open_orders (od_set price o (open_orders s)) s) >>>
       modify (λ s, set_order_meta (od_set o (Meta price sd 0) (order_meta s)) s) >>>
       print (MCmdPlaced sd price o))
    (λ e, print (MCmdPlaceErr e)).

Definition cmd_place_limit (cmd : list (string * jval)) : M () :=
  let* sv := field "side" cmd in
  let sd := side_of_jval sv in
  let* pv := field "price" cmd in
  let* pf := py_float pv in
  let price := p_prec pf in
  let* cv := field "contracts" cmd in
  let* cts := py_float cv in
  let ro := py_bool (default (JBool (is_sell sd)) (od_get "reduceOnly"%string cmd)) in
  let reduce_only := is_sell sd && ro in
  submit_command_limit sd price cts reduce_only.

Definition cmd_restore_level (cmd : list (string * jval)) : M () :=
  let* pv := field "price" cmd in
  let* pf := py_float pv in
  let p := p_prec pf in
  let* s := get_st in
  if negb (od_mem p (open_orders s)) then
    let qty := grid_qty p in
    if gtb qty 0 then
      let* px := current_mark_or_mid in
      let sd := if ltb p px then Buy else Sell in
      let* o := safe_place sd p qty in
      match o with
      | None => print (MRestoreFailed p)
      | Some _ => ret ()
      end
    else print (MRestoreSkippedQty p)
  else print (MRestoreSkippedHasOrder p).

(** The body of the [for ln in lines] loop after [json.loads] succeeded on
    a JSON object. *)
Definition run_command (cmd : list (string * jval)) : M () :=
  if op_is "cancel_all" cmd then cancel_all_open_orders
  else if op_is "cancel_by_price" cmd then
    let* pv := field "price" cmd in
    let* pf := py_float pv in
    safe_cancel_by_price (p_prec pf) >>> ret ()
  else if op_is "place_limit" cmd then cmd_place_limit cmd
  else if op_is "hold_level" cmd || op_is "cancel_and_hold" cmd then
    let* pv := field "price" cmd in
    let* pf := py_float pv in
    let p := p_prec pf in
    safe_cancel_by_price p >>> print (MCmdHold p)
  else if op_is "restore_level" cmd then cmd_restore_level cmd
  else ret ().

(** *** Files *)

(** Raise the fault the environment injects into the next file operation. *)
Definition fs_fault : M () :=
  let* f := query (io_fault E) in
  match f with Some e => raise e | None => ret () end.

(** [with open(p, "r") as f: lines = [ln.strip() for ln in f if ln.strip()]] *)
Definition read_stripped_lines (p : path) : M (list string) :=
  fs_fault >>>
  let* files := get_fs in
  match files !! fkey p with
  | Some txt =>
      ret (filter (λ ln, ln ≠ ""%string) (py_strip <$> split_lines txt))
  | None => raise OSError
  end.

(** [open(p, "w").close()] *)
Definition truncate_file (p : path) : M () :=
  fs_fault >>>
  let* files := get_fs in
  put_fs (<[fkey p := ""%string]> files).

(** The body of [for ln in lines]. *)
Definition process_line (ln : string) : M () :=
  match json_loads E ln with
  | None => ret ()                            (* [continue] *)
  | Some (PObj cmd) => run_command cmd
  | Some (PNotObj _) => raise AttributeError  (* [cmd.get] on a non-dict *)
  end.

Definition process_commands : M () :=
  try_except
    (let* files := get_fs in
     match files !! fkey (COMMANDS_PATH c) with
     | None => ret ()
     | Some _ =>
         let* lines := read_stripped_lines (COMMANDS_PATH c) in
         truncate_file (COMMANDS_PATH c) >>>
         for_each lines process_line
     end)
    (λ e, print (MProcessCommandsError e)).
End engine.

(** *** Atomic replacement of the state file

    [_atomic_write_json] as a machine that performs one file operation per
    step, so that the file system can be inspected between any two of them. *)

Inductive aw_pc :=
| AwMkstemp                                            (* before [tempfile.mkstemp] *)
| AwDump (tmp : string * string) (todo : list string)  (* inside [json.dump] *)
| AwFlush (tmp : string * string)                      (* before [f.flush()] *)
| AwFsync (tmp : string * string)                      (* before [os.fsync] *)
| AwClose (tmp : string * string) (pending : option exn) (* leaving the [with] block *)
| AwReplace (tmp : string * string)                    (* before [os.replace] *)
| AwCleanup (tmp : string * string) (pending : option exn) (* the [finally] block *)
| AwDone (r : res ()).                                 (* returned or raised *)

Definition concat_chunks (l : list string) : string := foldr String.app ""%string l.

Section atomic_write.
Context {V : Type} (E : Env V).
Local Abbreviation M := (M (V:=V)).

Definition aw_step (target : path) (data : state_doc) (pc : aw_pc) : M aw_pc :=
  match pc with
  | AwMkstemp =>
      let* f := query (io_fault E) in
      match f with
      | Some e => ret (AwDone (Raise e))
      | None =>
          let* sfx := query (mkstemp_suffix E) in
          let tmp := (dir_or_dot target, String.app ".tmp_" sfx) in
          let* files := get_fs in
          match files !! tmp with
          | Some _ => ret (AwDone (Raise OSError))   (* no unused name was found *)
          | None =>
              put_fs (<[tmp := ""%string]> files) >>>
              ret (AwDump tmp (json_dump E data))
          end
      end
  | AwDump tmp [] => ret (AwFlush tmp)
  | AwDump tmp (chunk :: todo) =>
      let* f := query (io_fault E) in
      match f with
      | Some e => ret (AwClose tmp (Some e))
      | None =>
          let* files := get_fs in
          put_fs (<[tmp := String.app (default ""%string (files !! tmp)) chunk]> files) >>>
          ret (AwDump tmp todo)
      end
  | AwFlush tmp =>
      let* f := query (io_fault E) in
      ret (match f with Some e => AwClose tmp (Some e) | None => AwFsync tmp end)
  | AwFsync tmp =>
      let* f := query (io_fault E) in
      ret (match f with Some e => AwClose tmp (Some e) | None => AwClose tmp None end)
  | AwClose tmp pending =>
      let* f := query (io_fault E) in
      ret (match f, pending with
           | Some e, _ => AwCleanup tmp (Some e)
           | None, Some e => AwCleanup tmp (Some e)
           | None, None => AwReplace tmp
           end)
  | AwReplace tmp =>
      let* f := query (io_fault E) in
      match f with
      | Some e => ret (AwCleanup tmp (Some e))
      | None =>
          let* files := get_fs in
          match files !! tmp with
          | Some txt =>
              put_fs (<[fkey target := txt]> (delete tmp files)) >>>
              ret (AwCleanup tmp None)
          | None => ret (AwCleanup tmp (Some OSError))
          end
      end
  | AwCleanup tmp pending =>
      let finish := AwDone (match pending with Some e => Raise e | None => Ok () end) in
      let* files := get_fs in
      match files !! tmp with
      | None => ret finish
      | Some _ =>
          let* f := query (io_fault E) in
          match f with
          | Some e => ret (if is_Exception e then finish else AwDone (Raise e))
          | None => put_fs (delete tmp files) >>> ret finish
          end
      end
  | AwDone r => ret (AwDone r)
  end.

(** [aw_run n]: the machine after [n] steps. *)
Fixpoint aw_run (n : nat) (target : path) (data : state_doc) (pc : aw_pc) : M aw_pc :=
  match n with
  | O => ret pc
  | S n' => let* pc' := aw_step target data pc in aw_run n' target data pc'
  end.

(** [_atomic_write_json]: the machine run to completion; [aw_run_done]
    shows that the number of steps given here always reaches [AwDone]. *)
Definition atomic_write_json (target : path) (data : state_doc) : M () :=
  let* pc := aw_run (length (json_dump E data) + 7) target data AwMkstemp in
  match pc with
  | AwDone (Ok _) => ret ()
  | AwDone (Raise e) => raise e
  | _ => raise RuntimeError
  end.
End atomic_write.

(** ** Snapshot, fill polling, initialisation and the main loop *)

Inductive loop_status :=
| StillRunning      (* the model's fuel ran out; the real loop goes on *)
| Stopped.          (* [KeyboardInterrupt] was caught *)

Section engine_loop.
Context {V : Type} (E : Env V) (c : config).
Local Abbreviation M := (M (V:=V)).

(** [for x in l: acc = body acc x] *)
Fixpoint fold_each {A B} (l : list A) (acc : B) (body : B → A → M B) : M B :=
  match l with
  | [] => ret acc
  | x :: l' => let* acc' := body acc x in fold_each l' acc' body
  end.

(** The valuation loop over the inventory: (unrealized, total contracts,
    cost notional). *)
Definition valuation (px : Qc) (inv : list lot) : Qc * Qc * Qc :=
  foldl (λ '(unreal, total_contracts, cost_notional) l,
           (unreal + (px - lot_price l) * (contracts l * contract_size c),
            total_contracts + contracts l,
            cost_notional + lot_price l * (contracts l * contract_size c)))
        (0, 0, 0) inv.

(** [snapshot_and_dump] up to the write: valuation, equity sample, open-order
    list, band, and the document to persist. *)
Definition build_state_doc : M state_doc :=
  let* px := current_mark_or_mid E c in
  let* s := get_st in
  let '(unreal, total_contracts, cost_notional) := valuation px (inventory s) in
  let* avg_cost :=
    if gtb total_contracts dust then
      if bool_decide (total_contracts * contract_size c = 0) then raise ZeroDivisionError
      else ret (cost_notional / (total_contracts * contract_size c))
    else ret 0 in
  let equity := realized_pnl s + unreal in
  let* ts := query (utcnow E) in
  modify (λ s, set_equity_series
                 (deque_append 5000 (EquityPoint ts equity (realized_pnl s) unreal)
                    (equity_series s)) s) >>>
  let open_list :=
    sort_by_price
      ((λ '(p, o), (p, (o, m_side <$> od_get o (order_meta s)))) <$> open_orders s) in
  let* band := fetch_price_band_cached E c px in
  let* ts' := query (utcnow E) in
  let* s' := get_st in
  ret (StateDoc ts' (symbol c) (entry_price c) px (contract_size c) (levels c)
         (GRID_QTY_BY_LEVEL c) ((λ '(p, (o, sd)), (p, o, sd)) <$> open_list)
         total_contracts (total_contracts * contract_size c) avg_cost
         (realized_pnl s') unreal equity (fee_rate c) band
         (last_n 300 (trades_log s')) (last_n 2000 (equity_series s'))).

Definition snapshot_and_dump : M () :=
  let* doc := build_state_doc in
  atomic_write_json E (STATE_PATH c) doc.

(** [self.order_meta[oid]['last_filled'] = filled] *)
Definition set_last_filled (o : oid) (filled : Qc) : M () :=
  let* s := get_st in
  match od_get o (order_meta s) with
  | Some m =>
      modify (set_order_meta (od_set o (Meta (m_price m) (m_side m) filled) (order_meta s)))
  | None => raise KeyError
  end.

(** The body of the loop of [poll_and_handle_fills] for one entry of the
    copy [list(self.order_meta.items())]. *)
Definition poll_one (o : oid) (m : meta) : M () :=
  let p := m_price m in
  let sd := m_side m in
  let* fetched :=
    try_except (let* od := venue (CFetchOrder o) (fetch_order E o) in ret (Some od))
               (λ _, ret None) in
  match fetched with
  | None => ret ()                                     (* [continue] *)
  | Some od =>
      let filled := default 0 (od_filled od) in
      let prev := m_last_filled m in
      let inc := py_max 0 (filled - prev) in
      (if gtb inc 0 then on_fill E c sd p inc >>> set_last_filled o filled else ret ()) >>>
      let status := py_lower (default ""%string (od_status od)) in
      if bool_decide (status = "closed"%string) then
        modify (λ s, set_open_orders (od_del p (open_orders s)) s) >>>
        modify (λ s, set_order_meta (od_del o (order_meta s)) s) >>>
        handle_post_close E c sd p filled
      else ret ()
  end.

Definition poll_and_handle_fills : M () :=
  let* s := get_st in
  for_each (order_meta s) (λ '(o, m), poll_one o m).

(** The body of the loop over the levels in [_initialize_full_grid_once]. *)
Definition init_level (px : Qc) (sell_total_contracts : Qc) (p : Qc) : M Qc :=
  let qty := grid_qty c p in
  if leb qty 0 then ret sell_total_contracts
  else if gtb p px then
    let* o := safe_place E c Sell p qty in
    ret (match o with Some _ => sell_total_contracts + qty | None => sell_total_contracts end)
  else if ltb p px then
    safe_place E c Buy p qty >>> ret sell_total_contracts
  else ret sell_total_contracts.

(** [_initialize_full_grid_once] *)
Definition initialize_full_grid_once : M () :=
  let* s := get_st in
  if initialized_full s then ret ()
  else
    let* px := current_mark_or_mid E c in
    let* sell_total_contracts := fold_each (levels c) 0 (init_level px) in
    (if init_position_enabled c && gtb sell_total_contracts 0
     then place_market E Buy sell_total_contracts >>> ret ()
     else ret ()) >>>
    modify (set_initialized_full true) >>>
    print (MInitialized px sell_total_contracts).

Definition count_side (sd : side) (s : state) : nat :=
  length (filter (λ '(_, o), m_side <$> od_get o (order_meta s) = Some sd) (open_orders s)).

Definition heartbeat (loop_i : nat) : M () :=
  let* s := get_st in
  print (MHeartbeat loop_i (count_side Buy s) (count_side Sell s)
           (foldl (λ acc l, acc + contracts l) 0 (inventory s))).

(** The body of [while True] before the snapshot: initialisation on the
    first pass, commands, fill polling. *)
Definition tick_before_snapshot : M () :=
  let* s := get_st in
  (if initialized_full s then ret () else initialize_full_grid_once) >>>
  process_commands E c >>>
  poll_and_handle_fills.

(** The body of [while True] after the snapshot: heartbeat and sleep. *)
Definition tick_after_snapshot (heartbeat_every : Z) (loop_i : nat) : M () :=
  (if negb (bool_decide (heartbeat_every = 0%Z))
      && bool_decide ((Z.of_nat loop_i mod heartbeat_every)%Z = 0%Z)
   then heartbeat loop_i else ret ()) >>>
  sleep E (LOOP_SLEEP c).

(** One pass through the body of [while True]. *)
Definition tick (heartbeat_every : Z) (loop_i : nat) : M () :=
  tick_before_snapshot >>>
  snapshot_and_dump >>>
  tick_after_snapshot heartbeat_every loop_i.

(** [fuel] passes of the loop, starting after pass number [loop_i]. *)
Fixpoint run_loop (fuel : nat) (heartbeat_every : Z) (loop_i : nat) : M () :=
  match fuel with
  | O => ret ()
  | S fuel' =>
      tick heartbeat_every (S loop_i) >>> run_loop fuel' heartbeat_every (S loop_i)
  end.

(** [run_forever], cut off after [fuel] passes: only [KeyboardInterrupt]
    is caught. *)
Definition run_forever (fuel : nat) (heartbeat_every : Z) : M loop_status :=
  print MStarted >>>
  λ w, match run_loop fuel heartbeat_every 0 w with
       | (Ok _, w') => (Ok StillRunning, w')
       | (Raise KeyboardInterrupt, w') => (print MStopped >>> ret Stopped) w'
       | (Raise e, w') => (Raise e, w')
       end.
End engine_loop.

(** ** Construction ([GridEngine.__init__]) *)

Section construction.
Context {V : Type} (E : Env V).

Definition make_config (symbol : string) (mkt_id : option string)
    (entry_price contract_size : Qc) (levels : list Qc)
    (grid_qty_by_level : list (Qc * Qc)) (state_path commands_path : path)
    (fee_rate sleep_sec loop_sleep band_ttl : Qc) (init_position : bool) : config :=
  Config symbol mkt_id entry_price contract_size
    (sorted_set (price_to_precision E <$> levels))
    (foldl (λ m '(k, v), <[price_to_precision E k := v]> m) ∅ grid_qty_by_level)
    state_path commands_path fee_rate sleep_sec loop_sleep band_ttl init_position.

Definition initial_state (c : config) : state :=
  State None 0 [] [] [] [] 0 ∅ [] false (init_position_enabled c).

Definition initial_world (c : config) (v : V) (files : gmap (string * string) string)
  : world V :=
  World (initial_state c) v files [].
End construction.

(** ** A small environment to run the engine on

    Prices and amounts are already at the venue's precision, every order is
    accepted and numbered, the mark price is 105 and the price band is
    (200, 50).  [io_fails] makes every file operation fail with [OSError]. *)

Definition test_oid (n : nat) : oid := String (ascii_of_nat (65 + n)) EmptyString.

Definition dq : string := String (ascii_of_nat 34) EmptyString.
Definition quoted (s : string) : string := String.app dq (String.app s dq).

(** The text [{"op": "<name>"}]. *)
Definition line_op (name : string) : string :=
  String.app "{" (String.app (quoted "op") (String.app ": " (String.app (quoted name) "}"))).

(** The three command lines the examples use, with what [json.loads] makes
    of them; any other line is rejected as malformed. *)
Definition test_json_loads (ln : string) : option parsed :=
  if bool_decide (ln = line_op "cancel_by_price") then
    Some (PObj [("op"%string, JStr "cancel_by_price")])
  else if bool_decide (ln = line_op "cancel_all") then
    Some (PObj [("op"%string, JStr "cancel_all")])
  else if bool_decide (ln = "7"%string) then Some (PNotObj (JNum (qint 7)))
  else None.

Definition test_env (io_fails : bool) : Env nat := {|
  price_to_precision := λ p, p;
  amount_to_precision := λ q, q;
  place_limit := λ _ _ _ n, (Ok (test_oid n), S n);
  create_order := λ _ _ _ _ _ n, (Ok (test_oid n), S n);
  cancel_order := λ _ n, (Ok (), n);
  fetch_order := λ _ n, (Ok (OrderInfo None (Some "open"%string)), n);
  fetch_ticker := λ n, (Ok (Ticker (Some (qint 105)) (Some (qint 105))), n);
  fetch_order_book := λ n, (Ok (OrderBook [] []), n);
  public_price_limit := λ _ n, (Ok [LimitRow (Some (qint 200)) (Some (qint 50))], n);
  time_time := λ n, (qint (Z.of_nat n), n);
  time_sleep := λ _ n, (Ok (), n);
  utcnow := λ n, ("t"%string, n);
  io_fault := λ n, (if io_fails then Some OSError else None, n);
  mkstemp_suffix := λ n, (test_oid n, n);
  json_loads := test_json_loads;
  json_dump := λ _, ["{"%string; "}"%string];
  str_to_float := λ _, None
|}.

(** Levels 100, 105, 110, one contract each, as in the end-to-end scenario
    of the engine's description. *)
Definition test_config (init_position : bool) : config :=
  make_config (test_env false) "BTC-USDT-SWAP" (Some "BTC-USDT-SWAP"%string)
    (qint 105) 1 [qint 100; qint 105; qint 110]
    [(qint 100, 1); (qint 105, 1); (qint 110, 1)]
    (Path "" "grid_state.json") (Path "" "grid_commands.jsonl")
    (qfrac 5 10000) (qfrac 1 2) (qint 2) (qint 8) init_position.

Definition test_world (init_position : bool) : world nat :=
  initial_world (test_config init_position) 0%nat ∅.

(** The world an action leaves behind, and its result. *)
Definition after {V A} (m : M (V:=V) A) (w : world V) : world V := snd (m w).
Definition result {V A} (m : M (V:=V) A) (w : world V) : res A := fst (m w).

(** The calls and messages logged, oldest first. *)
Definition events {V} (w : world V) : list event := rev (fst <$> log w).
Definition calls {V} (w : world V) : list call :=
  omap (λ ev, match ev with EvCall cl => Some cl | EvPrint _ => None end) (events w).
Definition messages {V} (w : world V) : list msg :=
  omap (λ ev, match ev with EvPrint m => Some m | EvCall _ => None end) (events w).

(** ** Operations, reachable worlds and the vocabulary of the properties *)

Inductive op :=
| OpInit                                   (* [_initialize_full_grid_once] *)
| OpCommands                               (* [process_commands] *)
| OpCommand (cmd : list (string * jval))   (* one decoded command *)
| OpPoll                                   (* [poll_and_handle_fills] *)
| OpSnapshot                               (* [snapshot_and_dump] *)
| OpTick (heartbeat_every : Z) (loop_i : nat)
| OpSafePlace (sd : side) (price qty : Qc)
| OpCancelByPrice (price : Qc)
| OpCancelAll
| OpOnFill (sd : side) (price cts : Qc)
| OpPostClose (sd : side) (price filled : Qc).

Section reachability.
Context {V : Type} (E : Env V) (c : config).

Definition exec (o : op) : M (V:=V) () :=
  match o with
  | OpInit => initialize_full_grid_once E c
  | OpCommands => process_commands E c
  | OpCommand cmd => run_command E c cmd
  | OpPoll => poll_and_handle_fills E c
  | OpSnapshot => snapshot_and_dump E c
  | OpTick hb i => tick E c hb i
  | OpSafePlace sd p q => safe_place E c sd p q >>> ret ()
  | OpCancelByPrice p => safe_cancel_by_price E p >>> ret ()
  | OpCancelAll => cancel_all_open_orders E
  | OpOnFill sd p q => on_fill E c sd p q
  | OpPostClose sd p f => handle_post_close E c sd p f
  end.

(** The worlds an engine built by [__init__] can be in: any operations in any
    order, run to their end or to an exception, with the environment and
    the files changing arbitrarily in between. *)
Inductive reachable : world V → Prop :=
| reach_init v files : reachable (initial_world c v files)
| reach_step o w : reachable w → reachable (after (exec o) w)
| reach_env w v' files' : reachable w → reachable (World (st w) v' files' (log w)).
End reachability.

(** Events that submit an order or report a close. *)
Definition is_placement (ev : event) : bool :=
  match ev with
  | EvCall (CPlaceLimit _ _ _) | EvCall (CCreateOrder _ _ _ _ _) => true
  | _ => false
  end.

Definition is_close_report (ev : event) : bool :=
  match ev with
  | EvPrint (MClosed _ _ _) | EvPrint MFirstFillIgnored => true
  | _ => false
  end.

Definition loud (en : event * state) : bool :=
  is_placement (fst en) || is_close_report (fst en).

Definition placement_of (ev : event) : option call :=
  match ev with
  | EvCall cl => if is_placement ev then Some cl else None
  | EvPrint _ => None
  end.

(** The order submissions logged, oldest first. *)
Definition placements {V} (w : world V) : list call :=
  omap placement_of (events w).

Definition limit_create_of (ev : event) : option call :=
  match ev with
  | EvCall (CCreateOrder Limit sd q p ro) => Some (CCreateOrder Limit sd q p ro)
  | _ => None
  end.

(** The limit orders submitted through [okx.create_order], oldest first. *)
Definition limit_creates {V} (w : world V) : list call :=
  omap limit_create_of (events w).

(** Going from [w] to [w'] submitted no limit order through
    [okx.create_order]. *)
Definition same_limit_creates {V} (w w' : world V) : Prop :=
  limit_creates w' = limit_creates w.

(** The close reports logged, oldest first: [true] for "closed", [false] for
    "first fill ignored". *)
Definition close_report (ev : event) : option bool :=
  match ev with
  | EvPrint (MClosed _ _ _) => Some true
  | EvPrint MFirstFillIgnored => Some false
  | _ => None
  end.

Definition close_reports {V} (w : world V) : list bool :=
  omap close_report (events w).

(** [quiet w w']: going from [w] to [w'] left the order book, the ledger and
    the one-shot flags alone and logged no order submission or close report. *)
Definition quiet {V} (w w' : world V) : Prop :=
  open_orders (st w') = open_orders (st w) ∧
  order_meta (st w') = order_meta (st w) ∧
  inventory (st w') = inventory (st w) ∧
  realized_pnl (st w') = realized_pnl (st w) ∧
  first_fill_ignore (st w') = first_fill_ignore (st w) ∧
  initialized_full (st w') = initialized_full (st w) ∧
  filter (λ en, loud en = true) (log w') = filter (λ en, loud en = true) (log w).

(** [rel R m]: running [m] relates the world before to the world after,
    whether [m] returns or raises. *)
Definition rel {V A} (R : relation (world V)) (m : M (V:=V) A) : Prop :=
  ∀ w, R w (after m w).

(** Running [m] keeps the invariant [I]. *)
Definition keeps {V} (I : world V → Prop) : relation (world V) :=
  λ w w', I w → I w'.

(** *** The ledger *)

Definition total_contracts (inv : list lot) : Qc :=
  foldr (λ l acc, contracts l + acc) 0 inv.

(** *** The global invariant *)

(** Within the band: what the guard of [safe_place] lets through. *)
Definition band_allows (sd : side) (price : Qc) (band : option (Qc * Qc)) : Prop :=
  ∃ max_buy min_sell, band = Some (max_buy, min_sell) ∧
    ¬ (sd = Buy ∧ max_buy < price) ∧ ¬ (sd = Sell ∧ price < min_sell).

(** A logged limit-order submission was made while its price had no entry
    in [open_orders] and, for the injected [place_limit], within the band
    cached at that moment. *)
Definition entry_ok (en : event * state) : Prop :=
  match fst en with
  | EvCall (CPlaceLimit sd p _) =>
      od_mem p (open_orders (snd en)) = false ∧ band_allows sd p (band_cache (snd en))
  | EvCall (CCreateOrder Limit _ _ (Some p) _) =>
      od_mem p (open_orders (snd en)) = false
  | _ => True
  end.

(** The one-shot flag and the close reports: nothing is reported while the
    flag is armed; afterwards the reports are "closed, ignored, closed, ..."
    when the hedge option is on and "closed, closed, ..." when it is off. *)
Definition flag_pattern {V} (enabled : bool) (w : world V) : Prop :=
  if first_fill_ignore (st w) then enabled = true ∧ close_reports w = []
  else ∃ n, close_reports w =
            (if enabled then [true; false] else []) ++ replicate n true.

Definition Inv {V} (c : config) (w : world V) : Prop :=
  NoDup (od_keys (open_orders (st w))) ∧
  flag_pattern (init_position_enabled c) w ∧
  Forall entry_ok (log w).

#[global] Instance lot_eq_dec : EqDecision lot.
Proof. solve_decision. Defined.
#[global] Instance meta_eq_dec : EqDecision meta.
Proof. solve_decision. Defined.
#[global] Instance order_type_eq_dec : EqDecision order_type.
Proof. solve_decision. Defined.
#[global] Instance call_eq_dec : EqDecision call.
Proof. solve_decision. Defined.
#[global] Instance msg_eq_dec : EqDecision msg.
Proof. solve_decision. Defined.
#[global] Instance event_eq_dec : EqDecision event.
Proof. solve_decision. Defined.
#[global] Instance loop_status_eq_dec : EqDecision loop_status.
Proof. solve_decision. Defined.

(** *** The state file during an atomic write

    What holds of the file system at each point of [_atomic_write_json],
    started in [w0] to write [full] to the file [T]: until the rename the
    target is as it was in [w0]; the temp file receives the document chunk
    by chunk; after the rename the target holds the whole document. *)
Definition aw_inv {V} (w0 : world V) (T : string * string) (full : string)
    (pc : aw_pc) (w : world V) : Prop :=
  match pc with
  | AwMkstemp => fs w !! T = fs w0 !! T
  | AwDump tmp todo =>
      tmp ≠ T ∧ fs w !! T = fs w0 !! T ∧
      ∃ written, fs w !! tmp = Some written ∧
                 String.app written (concat_chunks todo) = full
  | AwFlush tmp | AwFsync tmp | AwReplace tmp =>
      tmp ≠ T ∧ fs w !! T = fs w0 !! T ∧ fs w !! tmp = Some full
  | AwClose tmp pending =>
      tmp ≠ T ∧ fs w !! T = fs w0 !! T ∧ (pending = None → fs w !! tmp = Some full)
  | AwCleanup tmp pending =>
      tmp ≠ T ∧
      match pending with
      | None => fs w !! T = Some full ∧ fs w !! tmp = None
      | Some _ => fs w !! T = fs w0 !! T
      end
  | AwDone (Ok _) => fs w !! T = Some full
  | AwDone (Raise _) => fs w !! T = fs w0 !! T
  end.

#[global] Instance trade_eq_dec : EqDecision trade.
Proof. solve_decision. Defined.
#[global] Instance equity_point_eq_dec : EqDecision equity_point.
Proof. solve_decision. Defined.
#[global] Instance state_doc_eq_dec : EqDecision state_doc.
Proof. solve_decision. Defined.

(** The document the first snapshot of the test world holds. *)
Definition test_doc : state_doc :=
  let E := test_env true in
  let c := test_config false in
  let w := after (tick_before_snapshot E c) (after (print MStarted) (test_world false)) in
  match result (build_state_doc E c) w with
  | Ok d => d
  | Raise _ => StateDoc "" "" 0 0 0 [] ∅ [] 0 0 0 0 0 0 0 (0, 0) [] []
  end.

(** The test world with one open buy order at 100 (order id "A") and the
    given text in the command file. *)
Definition test_world_with_commands (text : string) : world nat :=
  let w := after (safe_place (test_env false) (test_config false) Buy (qint 100) 1)
             (test_world false) in
  World (st w) (env w) {[fkey (COMMANDS_PATH (test_config false)) := text]} (log w).

Definition newline : string := String (ascii_of_nat 10) EmptyString.

(** Two lines: [{"op": "cancel_by_price"}] (no price) and [{"op": "cancel_all"}]. *)
Definition commands_bad_field : string :=
  String.app (line_op "cancel_by_price")
    (String.app newline (String.app (line_op "cancel_all") newline)).

(** Two lines: [not json] and [{"op": "cancel_all"}]. *)
Definition commands_bad_json : string :=
  String.app "not json" (String.app newline (String.app (line_op "cancel_all") newline)).

(** The neighbour a close replenishes at, and the side of the order placed
    there. *)
Definition replenish_level (c : config) (sd : side) (p : Qc) : option Qc :=
  match sd with Buy => neighbor_above c p | _ => neighbor_below c p end.

Definition opposite (sd : side) : side :=
  match sd with Buy => Sell | _ => Buy end.

(** The order book and the log of submissions are the same in both worlds. *)
Definition nothing_placed {V} (w w' : world V) : Prop :=
  placements w' = placements w ∧ open_orders (st w') = open_orders (st w).

(** The close report of a log entry. *)
Definition close_token (en : event * state) : option bool := close_report (fst en).

(** The files are the same in both worlds. *)
Definition same_fs {V} (w w' : world V) : Prop := fs w' = fs w.

(** A reply of the price-limit endpoint from which no band can be read. *)
Definition unusable_limits (r : res (list limit_row)) : Prop :=
  match r with
  | Raise e => is_Exception e = true
  | Ok [] => True
  | Ok (row :: _) => buyLmt row = None ∨ sellLmt row = None
  end.

(** An action that never raises an [Exception]: whatever it is run in, it
    returns or is interrupted from the keyboard. *)
Definition contained {V A} (m : M (V:=V) A) : Prop :=
  ∀ w e, result m w = Raise e → e = KeyboardInterrupt.

(** A part [g] of the engine's attributes is the same in both worlds. *)
Definition same_part {V X} (g : state → X) : relation (world V) :=
  λ w w', g (st w') = g (st w).

(** The ledger: inventory, realized PnL, trade log and fill counters. *)
Definition ledger (s : state) : list lot * Qc * list trade * gmap Qc (nat * nat) :=
  (inventory s, realized_pnl s, trades_log s, fills_at s).

(** The operations that book fills. *)
Definition books_fills (o : op) : bool :=
  match o with
  | OpPoll | OpTick _ _ | OpOnFill _ _ _ => true
  | _ => false
  end.

(** A grid that counts as initialised still does afterwards. *)
Definition flag_stays {V} : relation (world V) :=
  λ w w', initialized_full (st w) = true → initialized_full (st w') = true.

(** A logged market order is a buy without price and without [reduceOnly],
    made with the hedge option on and before the grid counted as
    initialised. *)
Definition market_ok (c : config) (en : event * state) : Prop :=
  match fst en with
  | EvCall (CCreateOrder Market sd _ price ro) =>
      sd = Buy ∧ price = None ∧ ro = false ∧
      init_position_enabled c = true ∧ initialized_full (snd en) = false
  | _ => True
  end.

(** The bounded logs are within their bound and no order id has two
    entries in [order_meta]. *)
Definition sizes_ok (s : state) : Prop :=
  (length (trades_log s) ≤ 5000)%nat ∧ (length (equity_series s) ≤ 5000)%nat ∧
  NoDup (od_keys (order_meta s)).

(** What the engine keeps true of its attributes and of its log. *)
Definition well_kept {V} (c : config) (w : world V) : Prop :=
  sizes_ok (st w) ∧ Forall (market_ok c) (log w).

(** Both relations hold. *)
Definition both {V} (R1 R2 : relation (world V)) : relation (world V) :=
  λ w w', R1 w w' ∧ R2 w w'.

(** The cost of an inventory at the prices it was bought at. *)
Definition cost_basis (c : config) (inv : list lot) : Qc :=
  foldr (λ l acc, lot_price l * (contracts l * contract_size c) + acc) 0 inv.

(** The entry of the snapshot's order list for an open order: price, id and
    the side recorded in [order_meta], if any. *)
Definition listed (s : state) (po : Qc * oid) : Qc * oid * option side :=
  (po.1, po.2, m_side <$> od_get po.2 (order_meta s)).

Local Close Scope Qc_scope.

(** ** The ledger in binary64

    The arithmetic of [on_fill] (lines 208-222) on the machine's floats:
    IEEE 754 binary64 with rounding to nearest even, which is what a Python
    float is.  The engine model above carries the same ledger over exact
    rationals; wherever the outcome depends on rounding (the realized PnL,
    and what a sell leaves of a lot) it is this definition that follows the
    code. *)


Definition py_max64 (a b : float) : float := if (a <? b)%float then b else a.











(** ** The launcher (src/main.py) in binary64 *)

(** [float(n)] for an int [n]: the nearest double, or [OverflowError]
    when [n] is beyond the range of a double. *)
Definition Z2F (z : Z) : float := SF2Prim (binary_normalize prec emax z 0 false).

Definition py_float_of_int (z : Z) : res float :=
  if is_infinity (Z2F z) then Raise OverflowError else Ok (Z2F z).

(** [range(n)] *)
Definition py_range (n : Z) : list Z := Z.of_nat <$> seq 0 (Z.to_nat n).

(** [sorted(set(arr))] for prices that are numbers: one representative of
    each value, the first in [arr] (0.0 and -0.0 are equal as members of a
    set), in increasing order.  With a NaN among the prices the order in
    which Python's sort leaves them is not specified, and not modelled. *)
Fixpoint insert_level64 (x : float) (l : list float) : list float :=
  match l with
  | [] => [x]
  | z :: l' =>
      if (x <? z)%float then x :: z :: l'
      else if (x =? z)%float then x :: l'
      else z :: insert_level64 x l'
  end.

Definition sorted_set64 (l : list float) : list float := foldr insert_level64 [] l.

(** [make_levels(lower, upper, levels, snap_price)], for a [snap_price]
    that returns; [i * step] and the division by [levels - 1] convert the
    int to a float. *)
Definition make_levels64 (lower upper : float) (levels : Z) (snap_price : float → float)
  : res (list float) :=
  if bool_decide (levels ≤ 1)%Z then Ok [snap_price lower; snap_price upper]
  else
    match py_float_of_int (levels - 1) with
    | Raise e => Raise e
    | Ok d =>
        let step := ((upper - lower) / d)%float in
        Ok (sorted_set64
              ((λ i, snap_price (lower + Z2F i * step)%float) <$> py_range levels))
    end.

(** [a / b] on floats: division by a zero raises. *)
Definition py_div64 (a b : float) : res float :=
  if (b =? 0)%float then Raise ZeroDivisionError else Ok (a / b)%float.

(** [max(0.0, order_size / max(p, 1e-9) / contract_size)] *)
Definition level_contracts64 (order_size contract_size p : float) : res float :=
  match py_div64 order_size (py_max64 p 1e-9) with
  | Raise e => Raise e
  | Ok a =>
      match py_div64 a contract_size with
      | Raise e => Raise e
      | Ok b => Ok (py_max64 0 b)
      end
  end.

(** [d[k] = v] on a dict whose keys are floats that are numbers: an entry
    whose key equals [k] keeps its key and takes the value. *)
Fixpoint dict_set64 (k v : float) (d : list (float * float)) : list (float * float) :=
  match d with
  | [] => [(k, v)]
  | (k', v') :: d' =>
      if (k' =? k)%float then (k', v) :: d' else (k', v') :: dict_set64 k v d'
  end.

(** The loop of [main] that fills [grid_qty_by_level]. *)
Fixpoint grid_quantities64 (order_size contract_size : float) (levels : list float)
    (acc : list (float * float)) : res (list (float * float)) :=
  match levels with
  | [] => Ok acc
  | p :: rest =>
      match level_contracts64 order_size contract_size p with
      | Ok q => grid_quantities64 order_size contract_size rest (dict_set64 p q acc)
      | Raise e => Raise e
      end
  end.

(** [float(mkt.get("contractSize") or 1.0)], for a field that is absent
    or a float: zero (of either sign) is replaced by 1.0, a NaN is kept. *)
Definition market_contract_size64 (field : option float) : float :=
  match field with
  | Some x => if (x =? 0)%float then 1%float else x
  | None => 1%float
  end.

(** A float that is a number: [x == x]. *)
Definition is_number (x : float) : Prop := (x =? x)%float = true.

(** [x] and [y] are the same key of a dict or member of a set. *)
Definition same_key (x y : float) : Prop := x = y ∨ (x =? y)%float = true.

(** [a < b] *)
Definition below (a b : float) : Prop := (a <? b)%float = true.

(** Comparison does not see the sign of a zero. *)
Definition SFnorm (x : spec_float) : spec_float :=
  match x with S754_zero _ => S754_zero false | _ => x end.

Local Open Scope Qc_scope.

(** What holds of the whole file system at each point of
    [_atomic_write_json], started in [w0] to write the file [T]: besides
    the target, the one file that differs from [w0] is the temp file, which
    did not exist in [w0] and is gone again once it has been renamed. *)
Definition aw_rest {V} (w0 : world V) (T : string * string) (pc : aw_pc) (w : world V)
  : Prop :=
  let with_tmp tmp :=
    tmp ≠ T ∧ fs w0 !! tmp = None ∧ ∃ written, fs w = <[tmp := written]> (fs w0) in
  match pc with
  | AwMkstemp => fs w = fs w0
  | AwDump tmp _ | AwFlush tmp | AwFsync tmp | AwClose tmp _ | AwReplace tmp
  | AwCleanup tmp (Some _) => with_tmp tmp
  | AwCleanup tmp None =>
      tmp ≠ T ∧ fs w0 !! tmp = None ∧ ∃ txt, fs w = <[T := txt]> (fs w0)
  | AwDone (Ok _) => ∃ txt, fs w = <[T := txt]> (fs w0)
  | AwDone (Raise _) => fs w = fs w0 ∨ ∃ tmp, with_tmp tmp
  end.

(** The order [_initialize_full_grid_once] intends for a level [l] at
    reference price [px]: a sell above, a buy below, none at the price
    itself or without a positive quantity. *)
Definition plan_entry {V} (E : Env V) (c : config) (px l : Qc) : option call :=
  if leb (grid_qty c l) 0 then None
  else if gtb l px then Some (CPlaceLimit Sell (p_prec E l) (q_prec E (grid_qty c l)))
  else if ltb l px then Some (CPlaceLimit Buy (p_prec E l) (q_prec E (grid_qty c l)))
  else None.

Definition init_plan {V} (E : Env V) (c : config) (px : Qc) : list call :=
  omap (plan_entry E c px) (levels c).

(** ** Further environments and worlds to run the engine on *)

(** The test environment with a venue in trouble: the ticker carries no
    mark price (its last price is 104), and the order book, the price
    limits, the order queries and the cancels all fail with
    [ExchangeError]. *)
Definition degraded_env : Env nat := {|
  price_to_precision := λ p, p;
  amount_to_precision := λ q, q;
  place_limit := λ _ _ _ n, (Ok (test_oid n), S n);
  create_order := λ _ _ _ _ _ n, (Ok (test_oid n), S n);
  cancel_order := λ _ n, (Raise ExchangeError, n);
  fetch_order := λ _ n, (Raise ExchangeError, n);
  fetch_ticker := λ n, (Ok (Ticker None (Some (qint 104))), n);
  fetch_order_book := λ n, (Raise ExchangeError, n);
  public_price_limit := λ _ n, (Raise ExchangeError, n);
  time_time := λ n, (qint (Z.of_nat n), n);
  time_sleep := λ _ n, (Ok (), n);
  utcnow := λ n, ("t"%string, n);
  io_fault := λ n, (None, n);
  mkstemp_suffix := λ n, (test_oid n, n);
  json_loads := test_json_loads;
  json_dump := λ _, ["{"%string; "}"%string];
  str_to_float := λ _, None
|}.

(** The test environment with every order reported as still open and
    filled to one half of a contract. *)
Definition half_filled_env : Env nat := {|
  price_to_precision := λ p, p;
  amount_to_precision := λ q, q;
  place_limit := λ _ _ _ n, (Ok (test_oid n), S n);
  create_order := λ _ _ _ _ _ n, (Ok (test_oid n), S n);
  cancel_order := λ _ n, (Ok (), n);
  fetch_order := λ _ n, (Ok (OrderInfo (Some (qfrac 1 2)) (Some "open"%string)), n);
  fetch_ticker := λ n, (Ok (Ticker (Some (qint 105)) (Some (qint 105))), n);
  fetch_order_book := λ n, (Ok (OrderBook [] []), n);
  public_price_limit := λ _ n, (Ok [LimitRow (Some (qint 200)) (Some (qint 50))], n);
  time_time := λ n, (qint (Z.of_nat n), n);
  time_sleep := λ _ n, (Ok (), n);
  utcnow := λ n, ("t"%string, n);
  io_fault := λ n, (None, n);
  mkstemp_suffix := λ n, (test_oid n, n);
  json_loads := test_json_loads;
  json_dump := λ _, ["{"%string; "}"%string];
  str_to_float := λ _, None
|}.

(** The test configuration with a contract size of zero. *)
Definition zero_size_config : config :=
  make_config (test_env false) "BTC-USDT-SWAP" (Some "BTC-USDT-SWAP"%string)
    (qint 105) 0 [qint 100; qint 105; qint 110]
    [(qint 100, 1); (qint 105, 1); (qint 110, 1)]
    (Path "" "grid_state.json") (Path "" "grid_commands.jsonl")
    (qfrac 5 10000) (qfrac 1 2) (qint 2) (qint 8) false.

(** The test world once the grid is up: a buy at 100 (order "A") and a sell
    at 110 (order "B"). *)
Definition grid_world : world nat :=
  after (initialize_full_grid_once (test_env false) (test_config false)) (test_world false).

(** The same with two contracts bought at 100 in the ledger. *)
Definition held_world : world nat :=
  after (on_fill (test_env false) (test_config false) Buy (qint 100) (qint 2)) grid_world.

(** The document a snapshot of [held_world] holds. *)
Definition held_doc : state_doc :=
  match result (build_state_doc (test_env false) (test_config false)) held_world with
  | Ok d => d
  | Raise _ => StateDoc "" "" 0 0 0 [] ∅ [] 0 0 0 0 0 0 0 (0, 0) [] []
  end.

(** * Properties *)

(** ** Reasoning about actions through relations on worlds *)

Section rel_rules.
Context {V : Type} (R : relation (world V)) `{!PreOrder R}.
Local Abbreviation M := (M (V:=V)).

Lemma rel_ret {A} (a : A) : rel R (ret a).
Proof. intros w. reflexivity. Qed.

Lemma rel_raise {A} (e : exn) : rel R (raise (A:=A) e).
Proof. intros w. reflexivity. Qed.

Lemma rel_get_st : rel R get_st.
Proof. intros w. reflexivity. Qed.

Lemma rel_get_fs : rel R get_fs.
Proof. intros w. reflexivity. Qed.

Lemma rel_bind {A B} (m : M A) (k : A → M B) :
  rel R m → (∀ a, rel R (k a)) → rel R (bind m k).
Proof.
  intros Hm Hk w. unfold after, bind. specialize (Hm w). unfold after in Hm.
  destruct (m w) as [[a|e] w1]; simpl in *; [|done].
  etrans; [exact Hm|]. apply Hk.
Qed.

Lemma rel_try_except {A} (m : M A) (h : exn → M A) :
  rel R m → (∀ e, rel R (h e)) → rel R (try_except m h).
Proof.
  intros Hm Hh w. unfold after, try_except. specialize (Hm w). unfold after in Hm.
  destruct (m w) as [[a|e] w1]; simpl in *; [done|].
  destruct (is_Exception e); [|done]. etrans; [exact Hm|]. apply Hh.
Qed.

Lemma rel_try_finally {A} (m : M A) (f : M ()) :
  rel R m → rel R f → rel R (try_finally m f).
Proof.
  intros Hm Hf w. unfold after, try_finally. specialize (Hm w). unfold after in Hm.
  destruct (m w) as [r w1]; simpl in *. specialize (Hf w1). unfold after in Hf.
  destruct (f w1) as [[?|?] w2]; simpl in *; by etrans.
Qed.

Lemma rel_for_each {A} (l : list A) (body : A → M ()) :
  (∀ x, rel R (body x)) → rel R (for_each l body).
Proof.
  intros Hb. induction l as [|x l IH]; simpl.
  - apply rel_ret.
  - apply rel_bind; [apply Hb | intros _; exact IH].
Qed.

Lemma rel_fold_each {A B} (l : list A) (acc : B) (body : B → A → M B) :
  (∀ b x, rel R (body b x)) → rel R (fold_each l acc body).
Proof.
  intros Hb. revert acc. induction l as [|x l IH]; intros acc; simpl.
  - apply rel_ret.
  - apply rel_bind; [apply Hb | intros b; apply IH].
Qed.
End rel_rules.

(** One step through the structure of an action. *)
Ltac rel_step :=
  lazymatch goal with
  | |- rel _ (bind _ _) => apply rel_bind; [apply _ | | intros ?]
  | |- rel _ (ret _) => apply rel_ret; apply _
  | |- rel _ (raise _) => apply rel_raise; apply _
  | |- rel _ get_st => apply rel_get_st; apply _
  | |- rel _ get_fs => apply rel_get_fs; apply _
  | |- rel _ (try_except _ _) => apply rel_try_except; [apply _ | | intros ?]
  | |- rel _ (try_finally _ _) => apply rel_try_finally; [apply _ | | ]
  | |- rel _ (for_each _ _) => apply rel_for_each; [apply _ | intros ?]
  | |- rel _ (fold_each _ _ _) => apply rel_fold_each; [apply _ | intros ? ?]
  | |- rel _ (if ?b then _ else _) => destruct b eqn:?
  | |- rel _ (match ?x with _ => _ end) => destruct x eqn:?
  end.

(** ** Quiet actions *)

#[global] Instance quiet_preorder {V} : PreOrder (quiet (V:=V)).
Proof.
  split.
  - intros w. by repeat split.
  - intros w1 w2 w3 (?&?&?&?&?&?&?) (?&?&?&?&?&?&?).
    repeat split; congruence.
Qed.

Section quiet_rules.
Context {V : Type}.
Local Abbreviation M := (M (V:=V)).

Lemma quiet_modify (f : state → state) :
  (∀ s, open_orders (f s) = open_orders s ∧ order_meta (f s) = order_meta s ∧
        inventory (f s) = inventory s ∧ realized_pnl (f s) = realized_pnl s ∧
        first_fill_ignore (f s) = first_fill_ignore s ∧
        initialized_full (f s) = initialized_full s) →
  rel (V:=V) quiet (modify f).
Proof.
  intros Hf w. destruct (Hf (st w)) as (?&?&?&?&?&?). by repeat split.
Qed.

Lemma filter_loud_cons_quiet (ev : event) (s : state) (l : list (event * state)) :
  is_placement ev = false → is_close_report ev = false →
  filter (λ en, loud en = true) ((ev, s) :: l) = filter (λ en, loud en = true) l.
Proof.
  intros H1 H2. rewrite filter_cons_False; [done|].
  unfold loud. cbn [fst]. rewrite H1, H2. done.
Qed.

Lemma quiet_emit (ev : event) :
  is_placement ev = false → is_close_report ev = false → rel (V:=V) quiet (emit ev).
Proof.
  intros H1 H2 w. repeat split; try done. by apply filter_loud_cons_quiet.
Qed.

Lemma quiet_print (m : msg) :
  is_close_report (EvPrint m) = false → rel (V:=V) quiet (print m).
Proof. intros. by apply quiet_emit. Qed.

Lemma quiet_venue {A} (cl : call) (f : V → res A * V) :
  is_placement (EvCall cl) = false → rel quiet (venue cl f).
Proof.
  intros H1 w. unfold after, venue. destruct (f (env w)) as [r v']. cbn [snd].
  repeat split; try done. by apply filter_loud_cons_quiet.
Qed.

Lemma quiet_ask {A} (f : V → res A * V) : rel quiet (ask f).
Proof. intros w. unfold after, ask. destruct (f (env w)). by repeat split. Qed.

Lemma quiet_query {A} (f : V → A * V) : rel quiet (query f).
Proof. intros w. unfold after, query. destruct (f (env w)). by repeat split. Qed.

Lemma quiet_put_fs (files : gmap (string * string) string) : rel (V:=V) quiet (put_fs files).
Proof. intros w. by repeat split. Qed.
End quiet_rules.

Create HintDb quiet discriminated.

Ltac quiet_auto :=
  repeat first
    [ rel_step
    | apply quiet_modify; intros ?; by repeat split
    | apply quiet_venue; reflexivity
    | apply quiet_print; reflexivity
    | apply quiet_ask
    | apply quiet_query
    | apply quiet_put_fs
    | solve [eauto with quiet] ].

Section quiet_engine.
Context {V : Type} (E : Env V) (c : config).

Lemma quiet_sleep sec : rel quiet (sleep E sec).
Proof. apply quiet_ask. Qed.

Lemma quiet_mid_or_last tk : rel quiet (mid_or_last E c tk).
Proof. unfold mid_or_last. quiet_auto. Qed.

Lemma quiet_current_mark_or_mid : rel quiet (current_mark_or_mid E c).
Proof. unfold current_mark_or_mid. pose proof quiet_mid_or_last. quiet_auto. Qed.

Lemma quiet_refresh_band now fb : rel quiet (refresh_band E c now fb).
Proof. unfold refresh_band. quiet_auto. Qed.

Lemma quiet_fetch_price_band_cached fb : rel quiet (fetch_price_band_cached E c fb).
Proof.
  unfold fetch_price_band_cached, read_band. pose proof quiet_refresh_band. quiet_auto.
Qed.

Lemma quiet_fs_fault : rel quiet (fs_fault E).
Proof. unfold fs_fault. quiet_auto. Qed.

Lemma quiet_aw_step target data pc : rel quiet (aw_step E target data pc).
Proof. unfold aw_step. quiet_auto. Qed.

Lemma quiet_aw_run n target data pc : rel quiet (aw_run E n target data pc).
Proof.
  revert pc. induction n as [|n IH]; intros pc; simpl.
  - apply rel_ret; apply _.
  - apply rel_bind; [apply _ | apply quiet_aw_step | intros pc'; apply IH].
Qed.

Lemma quiet_atomic_write_json target data : rel quiet (atomic_write_json E target data).
Proof. unfold atomic_write_json. pose proof quiet_aw_run. quiet_auto. Qed.
End quiet_engine.

(** ** Arithmetic on exact rationals

    Goals over [Qc] are moved to [Q], where [lra] decides them. *)

Lemma Qc_this_eq (x y : Qc) : x = y ↔ (this x == this y)%Q.
Proof. split; [by intros ->|apply Qc_is_canon]. Qed.
Lemma this_plus (x y : Qc) : (this (x + y) == this x + this y)%Q.
Proof. apply Qred_correct. Qed.
Lemma this_mult (x y : Qc) : (this (x * y) == this x * this y)%Q.
Proof. apply Qred_correct. Qed.
Lemma this_opp (x : Qc) : (this (- x) == - this x)%Q.
Proof. apply Qred_correct. Qed.
Lemma this_minus (x y : Qc) : (this (x - y) == this x - this y)%Q.
Proof. unfold Qcminus. rewrite this_plus, this_opp. reflexivity. Qed.
Lemma this_Q2Qc (q : Q) : (this (Q2Qc q) == q)%Q.
Proof. apply Qred_correct. Qed.

Ltac qc_prep :=
  repeat match goal with
  | H : @eq Qc _ _ |- _ => apply Qc_this_eq in H
  | H : ¬ @eq Qc _ _ |- _ => rewrite Qc_this_eq in H
  | H : ¬ Qclt _ _ |- _ => apply Qcle_ngt in H
  | H : ¬ Qcle _ _ |- _ => apply Qclt_nge in H
  | |- @eq Qc _ _ => apply Qc_is_canon
  | |- ¬ @eq Qc _ _ => rewrite Qc_this_eq
  | |- ¬ Qclt _ _ => apply Qcle_ngt
  | |- ¬ Qcle _ _ => apply Qclt_nge
  end;
  unfold dust, qfrac, qint, Qclt, Qcle in *;
  repeat match goal with
  | H : context [this (_ + _)] |- _ => rewrite this_plus in H
  | H : context [this (_ - _)] |- _ => rewrite this_minus in H
  | H : context [this (_ * _)] |- _ => rewrite this_mult in H
  | H : context [this (- _)] |- _ => rewrite this_opp in H
  | H : context [this (Q2Qc _)] |- _ => rewrite this_Q2Qc in H
  | |- context [this (_ + _)] => rewrite this_plus
  | |- context [this (_ - _)] => rewrite this_minus
  | |- context [this (_ * _)] => rewrite this_mult
  | |- context [this (- _)] => rewrite this_opp
  | |- context [this (Q2Qc _)] => rewrite this_Q2Qc
  end.
Ltac qc_lra := qc_prep; lra.

(** Turn the boolean comparisons of the code into propositions. *)
Ltac cmp_cases :=
  unfold gtb, ltb, leb in *;
  repeat match goal with
  | H : bool_decide _ = true |- _ => apply bool_decide_eq_true in H
  | H : bool_decide _ = false |- _ => apply bool_decide_eq_false in H
  | |- context [bool_decide ?P] => destruct (bool_decide P) eqn:?
  end.

Lemma py_min_cases (a b : Qc) :
  (b < a ∧ py_min a b = b) ∨ (a ≤ b ∧ py_min a b = a).
Proof.
  unfold py_min, ltb. case_bool_decide; [left|right]; split; try done.
  by apply Qcle_ngt.
Qed.

(** ** The ledger ([on_fill]) *)

Section ledger.
Context {V : Type} (E : Env V) (c : config).

(** The loop of [on_fill] ends within [S (length inv)] tests of its
    condition. *)
Lemma sell_loop_fuel fuel price to_sell inv realized :
  (length inv < fuel)%nat ∨ ((0 < fuel)%nat ∧ to_sell ≤ dust) →
  is_Some (sell_loop c fuel price to_sell inv realized).
Proof.
  revert to_sell inv realized.
  induction fuel as [|fuel IH]; intros to_sell inv realized Hf; [lia|].
  simpl. destruct inv as [|lot0 rest]; [done|].
  destruct (gtb to_sell dust) eqn:Hgt; [|done].
  assert (length rest < fuel)%nat as Hlen.
  { destruct Hf as [Hf|[_ Hf]]; [simpl in Hf; lia|]. cmp_cases. qc_lra. }
  destruct (leb _ dust) eqn:Hleft; apply IH; [by left|right].
  split; [lia|].
  cbv zeta in *.
  destruct (py_min_cases to_sell (contracts lot0)) as [[_ Hm]|[_ Hm]];
    rewrite Hm in *; cmp_cases; qc_lra.
Qed.

(** What one sell leaves behind: positive lots, taken from the head. *)
Lemma on_fill_buy w p q :
  result (on_fill E c Buy p q) w = Ok () ∧
  inventory (st (after (on_fill E c Buy p q) w)) = inventory (st w) ++ [Lot q p] ∧
  realized_pnl (st (after (on_fill E c Buy p q) w)) = realized_pnl (st w).
Proof.
  unfold result, after, on_fill, bump_fills, bind, query, modify, get_st. simpl.
  destruct (utcnow E (env w)) as [ts v']. simpl.
  by destruct (default _ _) as [b n].
Qed.

Lemma on_fill_sell w p q :
  ∃ inv' r',
    sell_loop c (S (length (inventory (st w)))) p q (inventory (st w)) (realized_pnl (st w))
    = Some (inv', r') ∧
    result (on_fill E c Sell p q) w = Ok () ∧
    inventory (st (after (on_fill E c Sell p q) w)) = inv' ∧
    realized_pnl (st (after (on_fill E c Sell p q) w)) = r'.
Proof.
  destruct (sell_loop_fuel (S (length (inventory (st w)))) p q (inventory (st w))
              (realized_pnl (st w))) as [[inv' r'] Hrun]; [left; lia|].
  exists inv', r'. split; [done|].
  unfold result, after, on_fill, bump_fills, bind, query, modify, get_st. simpl.
  destruct (utcnow E (env w)) as [ts v']. simpl.
  destruct (default _ _) as [b n]. simpl in *. by rewrite Hrun.
Qed.
End ledger.

(** ** Running actions in sequence *)

Section running.
Context {V : Type}.
Local Abbreviation M := (M (V:=V)).

Lemma run_eq {A} (m : M A) w : m w = (result m w, after m w).
Proof. unfold result, after. by destruct (m w). Qed.

Lemma bind_ok {A B} (m : M A) (k : A → M B) w a :
  result m w = Ok a → bind m k w = k a (after m w).
Proof. intros H. unfold bind. rewrite (run_eq m w), H. done. Qed.

Lemma bind_raise {A B} (m : M A) (k : A → M B) w e :
  result m w = Raise e → bind m k w = (Raise e, after m w).
Proof. intros H. unfold bind. rewrite (run_eq m w), H. done. Qed.

Lemma after_bind_ok {A B} (m : M A) (k : A → M B) w a :
  result m w = Ok a → after (bind m k) w = after (k a) (after m w).
Proof. intros H. unfold after at 1. by rewrite (bind_ok _ _ _ _ H). Qed.

Lemma result_bind_ok {A B} (m : M A) (k : A → M B) w a :
  result m w = Ok a → result (bind m k) w = result (k a) (after m w).
Proof. intros H. unfold result at 1. by rewrite (bind_ok _ _ _ _ H). Qed.

Lemma bind_get_st {B} (k : state → M B) w : bind get_st k w = k (st w) w.
Proof. reflexivity. Qed.

Lemma bind_query {A B} (f : V → A * V) (k : A → M B) w :
  bind (query f) k w = k (f (env w)).1 (World (st w) (f (env w)).2 (fs w) (log w)).
Proof. unfold bind, query. by destruct (f (env w)). Qed.

Lemma bind_modify {B} (f : state → state) (k : () → M B) w :
  bind (modify f) k w = k () (World (f (st w)) (env w) (fs w) (log w)).
Proof. reflexivity. Qed.

Lemma bind_print {B} (m : msg) (k : () → M B) w :
  bind (print m) k w = k () (World (st w) (env w) (fs w) ((EvPrint m, st w) :: log w)).
Proof. reflexivity. Qed.
End running.

(** Closed facts are settled by evaluating their decision procedure. *)
Ltac by_eval := apply (bool_decide_unpack _); vm_compute; exact I.

Local Close Scope Qc_scope.

(** ** Comparisons and differences of floats *)

Section float_facts.


















(** *** The order of floats *)

Lemma SFcompare_norm a b : SFcompare a b = SFcompare (SFnorm a) (SFnorm b).
Proof. destruct a as [[]|[]| |[] ? ?], b as [[]|[]| |[] ? ?]; reflexivity. Qed.

Lemma Pcompare_Eq_eq m1 m2 : Pos.compare_cont Eq m1 m2 = Eq → m1 = m2.
Proof. apply Pos.compare_eq. Qed.

Lemma SFcompare_Eq a b : SFcompare a b = Some Eq → SFnorm a = SFnorm b.
Proof.
  destruct a as [[]|[]| |[] m1 e1], b as [[]|[]| |[] m2 e2]; cbn;
    try (intros H; first [reflexivity | discriminate H]).
  - destruct (Z.compare e1 e2) eqn:He; intros [= Hm]; apply Z.compare_eq in He.
    destruct (Pos.compare_cont Eq m1 m2) eqn:Hc; try discriminate Hm.
    apply Pcompare_Eq_eq in Hc. by subst.
  - destruct (Z.compare e1 e2) eqn:He; intros [= Hm]; apply Z.compare_eq in He.
    apply Pcompare_Eq_eq in Hm. by subst.
Qed.

Lemma SFcompare_refl a : a ≠ S754_nan → SFcompare a a = Some Eq.
Proof.
  destruct a as [[]|[]| |[] m e]; cbn; try done.
  - rewrite Z.compare_refl. change (Pos.compare_cont Eq m m) with (Pos.compare m m).
    by rewrite Pos.compare_refl.
  - rewrite Z.compare_refl. change (Pos.compare_cont Eq m m) with (Pos.compare m m).
    by rewrite Pos.compare_refl.
Qed.

Lemma SFcompare_Some a b : a ≠ S754_nan → b ≠ S754_nan → is_Some (SFcompare a b).
Proof. destruct a as [[]|[]| |[] ? ?], b as [[]|[]| |[] ? ?]; cbn; by eauto. Qed.

Lemma SFcompare_Gt a b : SFcompare a b = Some Gt → SFcompare b a = Some Lt.
Proof.
  destruct a as [[]|[]| |[] m1 e1], b as [[]|[]| |[] m2 e2]; cbn;
    try (intros H; first [reflexivity | discriminate H]).
  - rewrite (Z.compare_antisym e1 e2).
    change (Pos.compare_cont Eq m2 m1) with (Pos.compare m2 m1).
    change (Pos.compare_cont Eq m1 m2) with (Pos.compare m1 m2).
    rewrite (Pos.compare_antisym m1 m2).
    destruct (Z.compare e1 e2); cbn; [|by intros [=]..].
    destruct (Pos.compare m1 m2); cbn; by intros [=].
  - rewrite (Z.compare_antisym e1 e2).
    change (Pos.compare_cont Eq m2 m1) with (Pos.compare m2 m1).
    change (Pos.compare_cont Eq m1 m2) with (Pos.compare m1 m2).
    rewrite (Pos.compare_antisym m1 m2).
    destruct (Z.compare e1 e2); cbn; [|by intros [=]..].
    destruct (Pos.compare m1 m2); cbn; by intros [=].
Qed.




Lemma is_number_SF x : is_number x ↔ Prim2SF x ≠ S754_nan.
Proof.
  unfold is_number. rewrite FloatAxioms.eqb_spec. unfold SFeqb. split.
  - intros H Hn. rewrite Hn in H. discriminate H.
  - intros H. by rewrite SFcompare_refl.
Qed.

Lemma eqb_is_number x y : (x =? y)%float = true → is_number x ∧ is_number y.
Proof.
  rewrite !is_number_SF, FloatAxioms.eqb_spec. unfold SFeqb.
  destruct (Prim2SF x) as [[]|[]| |[] ? ?], (Prim2SF y) as [[]|[]| |[] ? ?]; cbn;
    intros H; first [discriminate H | by split].
Qed.

(** Of two numbers, one is below the other or they are equal. *)
Lemma ltb_trichotomy x y :
  is_number x → is_number y →
  (x <? y)%float = false → (x =? y)%float = false → (y <? x)%float = true.
Proof.
  rewrite !is_number_SF, !FloatAxioms.ltb_spec, FloatAxioms.eqb_spec. unfold SFltb, SFeqb. intros Hx Hy.
  destruct (SFcompare_Some _ _ Hx Hy) as [[| |] Hc]; rewrite Hc; [done..|].
  intros _ _. by rewrite (SFcompare_Gt _ _ Hc).
Qed.

(** Equal numbers compare alike with a third. *)
Lemma eqb_ltb_l x y z :
  (x =? y)%float = true → (x <? z)%float = (y <? z)%float.
Proof.
  rewrite FloatAxioms.eqb_spec, !FloatAxioms.ltb_spec. unfold SFeqb, SFltb.
  destruct (SFcompare (Prim2SF x) (Prim2SF y)) as [[| |]|] eqn:Hc; try done.
  intros _. apply SFcompare_Eq in Hc.
  by rewrite (SFcompare_norm (Prim2SF x)), (SFcompare_norm (Prim2SF y)), Hc.
Qed.

Lemma eqb_sym x y : (x =? y)%float = true → (y =? x)%float = true.
Proof.
  intros H. destruct (eqb_is_number _ _ H) as [Hx Hy]. revert H.
  rewrite !FloatAxioms.eqb_spec. unfold SFeqb.
  destruct (SFcompare (Prim2SF x) (Prim2SF y)) as [[| |]|] eqn:Hc; try done.
  intros _. apply SFcompare_Eq in Hc.
  rewrite (SFcompare_norm (Prim2SF y)), <- Hc, <- SFcompare_norm.
  rewrite SFcompare_refl; [done|]. by apply is_number_SF.
Qed.

Lemma eqb_trans x y z :
  (x =? y)%float = true → (y =? z)%float = true → (x =? z)%float = true.
Proof.
  intros Hxy. rewrite !FloatAxioms.eqb_spec in *. unfold SFeqb in *.
  destruct (SFcompare (Prim2SF x) (Prim2SF y)) as [[| |]|] eqn:Hc; try done.
  apply SFcompare_Eq in Hc.
  by rewrite (SFcompare_norm (Prim2SF x)), Hc, <- SFcompare_norm.
Qed.

Lemma same_key_number x : is_number x → same_key x x.
Proof. by left. Qed.

(** [max(p, 1e-9)] is never zero. *)
Lemma floor_price_nonzero p : (py_max64 p 1e-9 =? 0)%float = false.
Proof.
  unfold py_max64. destruct (p <? 1e-9)%float eqn:Hlt; [reflexivity|].
  revert Hlt. rewrite FloatAxioms.ltb_spec, FloatAxioms.eqb_spec. unfold SFltb, SFeqb.
  change (Prim2SF 0) with (S754_zero false).
  destruct (Prim2SF p) as [[]|[]| |[] m e]; intros H;
    first [reflexivity | discriminate H].
Qed.

(** [max(0.0, x)] is a number that is not negative. *)
Lemma max_zero_not_negative x : (0 <=? py_max64 0 x)%float = true.
Proof.
  unfold py_max64. destruct (0 <? x)%float eqn:Hlt; [|reflexivity].
  revert Hlt. rewrite FloatAxioms.ltb_spec, FloatAxioms.leb_spec. unfold SFltb, SFleb.
  change (Prim2SF 0) with (S754_zero false).
  destruct (Prim2SF x) as [[]|[]| |[] m e]; intros H;
    first [reflexivity | discriminate H].
Qed.

Lemma market_contract_size64_nonzero field :
  (market_contract_size64 field =? 0)%float = false.
Proof.
  unfold market_contract_size64. destruct field as [x|]; [|reflexivity].
  destruct (x =? 0)%float eqn:Hx; [reflexivity|done].
Qed.
End float_facts.

(** ** The ledger on floats *)

Section ledger64.
Context (cs fee : float).



End ledger64.

Section ledger64_claims.
Context (cs fee : float).






End ledger64_claims.





Local Open Scope Qc_scope.

(** ** Atomic replacement of the state file *)

Lemma string_app_cons (x : ascii) (a b : string) :
  String.app (String x a) b = String x (String.app a b).
Proof. reflexivity. Qed.

Lemma string_app_assoc (a b d : string) :
  String.app (String.app a b) d = String.app a (String.app b d).
Proof.
  induction a as [|x a IH]; [done|]. rewrite !string_app_cons. by rewrite IH.
Qed.

Lemma string_app_empty_r (a : string) : String.app a "" = a.
Proof. induction a as [|x a IH]; [done|]. rewrite string_app_cons. by rewrite IH. Qed.

Section atomic_write_props.
Context {V : Type} (E : Env V).

(** A temp name differs from a target whose name lacks the temp prefix. *)
Lemma tmp_name_fresh target sfx :
  String.prefix ".tmp_" (p_base target) = false →
  (dir_or_dot target, String.app ".tmp_" sfx) ≠ fkey target.
Proof.
  intros Hp Heq. unfold fkey in Heq. injection Heq as Heq.
  rewrite <- Heq in Hp.
  assert (String.prefix ".tmp_" (String.app ".tmp_" sfx) = true) as Ht
    by (destruct sfx; reflexivity).
  congruence.
Qed.

Lemma aw_step_inv target data w0 pc w :
  String.prefix ".tmp_" (p_base target) = false →
  aw_inv w0 (fkey target) (concat_chunks (json_dump E data)) pc w →
  ∃ pc', result (aw_step E target data pc) w = Ok pc' ∧
         aw_inv w0 (fkey target) (concat_chunks (json_dump E data)) pc'
           (after (aw_step E target data pc) w).
Proof.
  intros Hp Hinv. unfold result, after.
  destruct pc as [|tmp todo|tmp|tmp|tmp pending|tmp|tmp pending|r]; simpl in *;
    unfold bind, query, get_fs, put_fs, ret; simpl.
  - destruct (io_fault E (env w)) as [[e|] v1]; simpl.
    { eexists. split; [reflexivity|]. done. }
    destruct (mkstemp_suffix E v1) as [sfx v2]; simpl.
    destruct (fs w !! (dir_or_dot target, String.app ".tmp_" sfx)) eqn:Htmp; simpl.
    { eexists. split; [reflexivity|]. done. }
    eexists. split; [reflexivity|]. simpl.
    pose proof (tmp_name_fresh target sfx Hp) as Hne.
    split; [done|]. split; [by rewrite lookup_insert_ne|].
    exists ""%string. by rewrite lookup_insert_eq.
  - destruct Hinv as (Hne & HT & written & Htmp & Hfull).
    destruct todo as [|chunk todo]; simpl.
    { eexists. split; [reflexivity|]. simpl. repeat split; try done.
      simpl in Hfull. rewrite string_app_empty_r in Hfull. by subst. }
    destruct (io_fault E (env w)) as [[e|] v1]; simpl.
    { eexists. split; [reflexivity|]. simpl. by repeat split. }
    eexists. split; [reflexivity|]. simpl. split; [done|].
    split; [by rewrite lookup_insert_ne|].
    eexists. rewrite lookup_insert_eq. split; [reflexivity|].
    rewrite Htmp. simpl in *. by rewrite string_app_assoc.
  - destruct Hinv as (Hne & HT & Htmp).
    destruct (io_fault E (env w)) as [[e|] v1]; simpl;
      eexists; (split; [reflexivity|]); simpl; by repeat split.
  - destruct Hinv as (Hne & HT & Htmp).
    destruct (io_fault E (env w)) as [[e|] v1]; simpl;
      eexists; (split; [reflexivity|]); simpl; by repeat split.
  - destruct Hinv as (Hne & HT & Htmp).
    destruct (io_fault E (env w)) as [[e|] v1], pending as [e'|]; simpl;
      eexists; (split; [reflexivity|]); simpl; repeat split; try done. by apply Htmp.
  - destruct Hinv as (Hne & HT & Htmp).
    destruct (io_fault E (env w)) as [[e|] v1]; simpl.
    { eexists. split; [reflexivity|]. simpl. by split. }
    rewrite Htmp. simpl. eexists. split; [reflexivity|]. simpl. split; [done|].
    split; [by rewrite lookup_insert_eq|].
    rewrite lookup_insert_ne by done. by rewrite lookup_delete_eq.
  - destruct Hinv as (Hne & Hinv).
    destruct (fs w !! tmp) eqn:Htmp; simpl.
    + destruct pending as [e'|]; [|destruct Hinv as [_ ?]; congruence].
      destruct (io_fault E (env w)) as [[e|] v1]; simpl.
      * eexists. split; [reflexivity|]. by destruct (is_Exception e).
      * eexists. split; [reflexivity|]. simpl. by rewrite lookup_delete_ne.
    + eexists. split; [reflexivity|]. destruct pending; simpl; [done|]. by destruct Hinv.
  - eexists. split; [reflexivity|]. done.
Qed.

Lemma aw_run_inv n target data w0 pc w :
  String.prefix ".tmp_" (p_base target) = false →
  aw_inv w0 (fkey target) (concat_chunks (json_dump E data)) pc w →
  ∃ pc', result (aw_run E n target data pc) w = Ok pc' ∧
         aw_inv w0 (fkey target) (concat_chunks (json_dump E data)) pc'
           (after (aw_run E n target data pc) w).
Proof.
  intros Hp. revert pc w. induction n as [|n IH]; intros pc w Hinv; simpl.
  { by exists pc. }
  destruct (aw_step_inv target data w0 pc w Hp Hinv) as (pc1 & Hr & Hinv1).
  rewrite (result_bind_ok _ _ _ _ Hr), (after_bind_ok _ _ _ _ Hr).
  by apply IH.
Qed.

Lemma aw_inv_target w0 T full pc (w : world V) :
  aw_inv w0 T full pc w → fs w !! T = fs w0 !! T ∨ fs w !! T = Some full.
Proof.
  destruct pc as [|tmp todo|tmp|tmp|tmp pending|tmp|tmp [e|]|[[]|e]]; simpl; intros H;
    first [ by left | by right
          | by (destruct H as [_ [? _]]; left)
          | by (destruct H as [_ ?]; left)
          | by (destruct H as [_ [? _]]; right) ].
Qed.
End atomic_write_props.

Section atomic_write_claims.
Context {V : Type} (E : Env V).

(** The machine reaches its end within the steps [atomic_write_json] gives
    it: one per chunk and seven more. *)
Lemma aw_run_done target data w :
  ∃ r, result (aw_run E (length (json_dump E data) + 7) target data AwMkstemp) w
       = Ok (AwDone r).
Proof.
  assert (∀ n r w, result (aw_run E n target data (AwDone r)) w = Ok (AwDone r)) as Hdone.
  { induction n as [|n IH]; intros r w1; [done|]. simpl.
    erewrite result_bind_ok; [apply IH | done]. }
  assert (∀ k n pc w,
    (match pc with
     | AwMkstemp => length (json_dump E data) + 7
     | AwDump _ todo => length todo + 6
     | AwFlush _ => 5 | AwFsync _ => 4 | AwClose _ _ => 3
     | AwReplace _ => 2 | AwCleanup _ _ => 1 | AwDone _ => 0
     end ≤ k)%nat → (k ≤ n)%nat →
    ∃ r, result (aw_run E n target data pc) w = Ok (AwDone r)) as Hmeasure.
  { induction k as [|k IH]; intros n pc w1 Hk Hn.
    - destruct pc; try (simpl in Hk; lia). eexists. apply Hdone.
    - destruct n as [|n]; [lia|]. simpl.
      destruct pc as [|tmp [|ch todo]|tmp|tmp|tmp pending|tmp|tmp pending|r];
        try (eexists; apply (Hdone (S n)));
        unfold result, bind at 1; simpl; unfold bind, query, get_fs, put_fs, ret; simpl;
        repeat (first [ destruct (io_fault E _) as [[?|] ?]
                      | destruct (mkstemp_suffix E _) as [? ?]
                      | destruct pending
                      | destruct (is_Exception _)
                      | destruct (fs _ !! _) ]; simpl);
        apply (IH n); simpl in *; lia. }
  by eapply Hmeasure.
Qed.

Lemma atomic_write_json_run target data w :
  ∃ r, result (aw_run E (length (json_dump E data) + 7) target data AwMkstemp) w
       = Ok (AwDone r) ∧
       result (atomic_write_json E target data) w = r ∧
       after (atomic_write_json E target data) w
       = after (aw_run E (length (json_dump E data) + 7) target data AwMkstemp) w.
Proof.
  destruct (aw_run_done target data w) as [r Hr]. exists r. split; [done|].
  unfold atomic_write_json.
  rewrite (result_bind_ok _ _ _ _ Hr), (after_bind_ok _ _ _ _ Hr).
  by destruct r as [[]|e].
Qed.

(** How a write ends: the whole document is installed if it returns, and
    the target is untouched if it raises. *)
Lemma atomic_write_json_outcome target data w :
  String.prefix ".tmp_" (p_base target) = false →
  match result (atomic_write_json E target data) w with
  | Ok _ => fs (after (atomic_write_json E target data) w) !! fkey target
            = Some (concat_chunks (json_dump E data))
  | Raise _ => fs (after (atomic_write_json E target data) w) !! fkey target
               = fs w !! fkey target
  end.
Proof.
  intros Hp.
  assert (aw_inv w (fkey target) (concat_chunks (json_dump E data)) AwMkstemp w) as H0 by done.
  destruct (atomic_write_json_run target data w) as (r & Hrun & -> & ->).
  destruct (aw_run_inv E (length (json_dump E data) + 7) target data w AwMkstemp w Hp H0)
    as (pc & Hpc & Hinv).
  rewrite Hrun in Hpc. injection Hpc as <-. by destruct r.
Qed.

(** C9: at every point of a snapshot write (after any number [n] of its
    file operations, whatever faults the environment injects, and hence
    also if the write is cut short there) the state file holds either
    what it held before the write or the complete new document, never a
    part of it: the document goes to a temp file in the target's
    directory, chunk by chunk, is flushed and synced, and only then renamed
    over the target.  A write that returns has installed the whole
    document; one that raises has left the state file as it was.  The
    target's name must not itself carry the temp prefix [.tmp_]. *)
Theorem state_file_never_partial (n : nat) (w : world V) (target : path) (data : state_doc) :
  String.prefix ".tmp_" (p_base target) = false →
  let full := concat_chunks (json_dump E data) in
  let w' := after (aw_run E n target data AwMkstemp) w in
  let w_end := after (atomic_write_json E target data) w in
  (fs w' !! fkey target = fs w !! fkey target ∨ fs w' !! fkey target = Some full) ∧
  (result (atomic_write_json E target data) w = Ok () →
   fs w_end !! fkey target = Some full) ∧
  (∀ e, result (atomic_write_json E target data) w = Raise e →
        fs w_end !! fkey target = fs w !! fkey target).
Proof.
  intros Hp full w' w_end.
  assert (aw_inv w (fkey target) full AwMkstemp w) as H0 by done.
  split; [|split].
  - destruct (aw_run_inv E n target data w AwMkstemp w Hp H0) as (pc & _ & Hinv).
    by eapply aw_inv_target.
  - intros Hr. pose proof (atomic_write_json_outcome target data w Hp) as Ho.
    by rewrite Hr in Ho.
  - intros e Hr. pose proof (atomic_write_json_outcome target data w Hp) as Ho.
    by rewrite Hr in Ho.
Qed.
End atomic_write_claims.

(** An instance of [state_file_never_partial]: the state file holds "old";
    after three file operations (temp file created, first chunk written,
    second chunk written) it still does, and after the whole write it
    holds the new document. *)
Lemma state_file_never_partial_witness :
  let target := Path "" "grid_state.json" in
  let w := World (st (test_world false)) 0%nat {[fkey target := "old"%string]} [] in
  let doc := StateDoc "t" "BTC-USDT-SWAP" 0 0 1 [] ∅ [] 0 0 0 0 0 0 0 (0, 0) [] [] in
  String.prefix ".tmp_" (p_base target) = false ∧
  (fs (after (aw_run (test_env false) 3 target doc AwMkstemp) w) !! fkey target
   = Some "old"%string) ∧
  fs (after (atomic_write_json (test_env false) target doc) w) !! fkey target
  = Some "{}"%string.
Proof.
  intros target w doc.
  assert (String.prefix ".tmp_" (p_base target) = false) as Hp by reflexivity.
  split; [exact Hp|].
  destruct (state_file_never_partial (test_env false) 3 w target doc Hp) as (Hmid & Hok & _).
  split.
  - destruct Hmid as [Hmid|Hmid]; [rewrite Hmid; by_eval|].
    exfalso. revert Hmid. by_eval.
  - apply Hok. by_eval.
Defined.

(** ** The main loop and a failing snapshot write *)

Section main_loop.
Context {V : Type} (E : Env V) (c : config).

Lemma run_loop_raise fuel hb i w e :
  result (tick E c hb (S i)) w = Raise e →
  run_loop E c (S fuel) hb i w = (Raise e, after (tick E c hb (S i)) w).
Proof. intros H. simpl. by rewrite (bind_raise _ _ _ _ H). Qed.

Lemma run_loop_split k m hb i w :
  result (run_loop E c k hb i) w = Ok () →
  run_loop E c (k + m) hb i w = run_loop E c m hb (i + k) (after (run_loop E c k hb i) w).
Proof.
  revert i w. induction k as [|k IH]; intros i w Hk; simpl.
  { by rewrite Nat.add_0_r. }
  simpl in Hk. destruct (result (tick E c hb (S i)) w) as [[]|e] eqn:Ht.
  - rewrite (result_bind_ok _ _ _ _ Ht) in Hk.
    rewrite (bind_ok _ _ _ _ Ht), (after_bind_ok _ _ _ _ Ht).
    rewrite (IH _ _ Hk). f_equal. lia.
  - unfold result in Hk. by rewrite (bind_raise _ _ _ _ Ht) in Hk.
Qed.

(** A tick whose snapshot write raises, raises. *)
Lemma tick_snapshot_raise hb i w doc e :
  result (tick_before_snapshot E c) w = Ok () →
  result (build_state_doc E c) (after (tick_before_snapshot E c) w) = Ok doc →
  result (atomic_write_json E (STATE_PATH c) doc)
    (after (build_state_doc E c) (after (tick_before_snapshot E c) w)) = Raise e →
  tick E c hb i w =
  (Raise e, after (atomic_write_json E (STATE_PATH c) doc)
              (after (build_state_doc E c) (after (tick_before_snapshot E c) w))).
Proof.
  intros Hpre Hdoc Hwrite. unfold tick.
  rewrite (bind_ok _ _ _ _ Hpre).
  assert (snapshot_and_dump E c (after (tick_before_snapshot E c) w) =
          (Raise e, after (atomic_write_json E (STATE_PATH c) doc)
                      (after (build_state_doc E c) (after (tick_before_snapshot E c) w))))
    as Hsnap.
  { unfold snapshot_and_dump. rewrite (bind_ok _ _ _ _ Hdoc).
    by rewrite (run_eq (atomic_write_json _ _ _)), Hwrite. }
  unfold bind at 1. by rewrite Hsnap.
Qed.

(** C8 (amended): when the snapshot write of a pass raises, after any
    number [k] of passes that went well, the state file is left as it was
    and the exception leaves [snapshot_and_dump], the pass and
    [run_forever], which catches [KeyboardInterrupt] only: the main loop
    ends there, whatever number of further passes it was given, and no
    later pass runs. *)
Theorem snapshot_write_failure_ends_loop (k fuel : nat) (hb : Z) (w0 : world V)
    (doc : state_doc) (e : exn) :
  let w_start := after (run_loop E c k hb 0) (after (print MStarted) w0) in
  let w_pre := after (tick_before_snapshot E c) w_start in
  let w_doc := after (build_state_doc E c) w_pre in
  let w_fail := after (atomic_write_json E (STATE_PATH c) doc) w_doc in
  String.prefix ".tmp_" (p_base (STATE_PATH c)) = false →
  result (run_loop E c k hb 0) (after (print MStarted) w0) = Ok () →
  result (tick_before_snapshot E c) w_start = Ok () →
  result (build_state_doc E c) w_pre = Ok doc →
  result (atomic_write_json E (STATE_PATH c) doc) w_doc = Raise e →
  fs w_fail !! fkey (STATE_PATH c) = fs w_doc !! fkey (STATE_PATH c) ∧
  result (snapshot_and_dump E c) w_pre = Raise e ∧
  run_forever E c (k + S fuel) hb w0 =
    match e with
    | KeyboardInterrupt => (Ok Stopped, after (print MStopped) w_fail)
    | _ => (Raise e, w_fail)
    end.
Proof.
  intros w_start w_pre w_doc w_fail Hp Hk Hpre Hdoc Hwrite.
  split; [|split].
  - pose proof (atomic_write_json_outcome E (STATE_PATH c) doc w_doc Hp) as Ho.
    by rewrite Hwrite in Ho.
  - unfold snapshot_and_dump. by rewrite (result_bind_ok _ _ _ _ Hdoc).
  - unfold run_forever.
    rewrite (bind_ok (print MStarted) _ w0 ()) by done.
    rewrite (run_loop_split k (S fuel) hb 0 _ Hk). fold w_start.
    pose proof (tick_snapshot_raise hb (S (0 + k)) w_start doc e Hpre Hdoc Hwrite) as Ht.
    rewrite (run_loop_raise fuel hb (0 + k) w_start e);
      [|unfold result; rewrite Ht; reflexivity].
    unfold after. rewrite Ht. cbn [snd]. destruct e; reflexivity.
Qed.
End main_loop.

(** An instance of [snapshot_write_failure_ends_loop]: every file operation
    fails with [OSError]; the first pass of a loop given three passes
    raises it out of [run_forever]. *)
Lemma snapshot_write_failure_ends_loop_witness :
  let E := test_env true in
  let c := test_config false in
  let w0 := test_world false in
  let w_pre := after (tick_before_snapshot E c) (after (print MStarted) w0) in
  let w_doc := after (build_state_doc E c) w_pre in
  (String.prefix ".tmp_" (p_base (STATE_PATH c)) = false ∧
   result (tick_before_snapshot E c) (after (print MStarted) w0) = Ok () ∧
   result (build_state_doc E c) w_pre = Ok test_doc ∧
   result (atomic_write_json E (STATE_PATH c) test_doc) w_doc = Raise OSError) ∧
  run_forever E c 3 20 w0
  = (Raise OSError, after (atomic_write_json E (STATE_PATH c) test_doc) w_doc).
Proof.
  intros E c w0 w_pre w_doc.
  assert (String.prefix ".tmp_" (p_base (STATE_PATH c)) = false) as H1 by reflexivity.
  assert (result (tick_before_snapshot E c) (after (print MStarted) w0) = Ok ()) as H2
    by by_eval.
  assert (result (build_state_doc E c) w_pre = Ok test_doc) as H3 by by_eval.
  assert (result (atomic_write_json E (STATE_PATH c) test_doc) w_doc = Raise OSError) as H4
    by by_eval.
  split; [exact (conj H1 (conj H2 (conj H3 H4)))|].
  pose proof (snapshot_write_failure_ends_loop E c 0 2 20 w0 test_doc OSError
                H1 eq_refl H2 H3 H4) as Hx.
  destruct Hx as (_ & _ & Hx). exact Hx.
Defined.

(** C8, as stated, fails: with a file system on which every operation
    raises [OSError], a loop given three passes raises that error in its
    first pass and logs nothing beyond what a loop given one pass logs. *)
Lemma snapshot_failure_stops_main_loop :
  let E := test_env true in
  let c := test_config false in
  result (run_forever E c 3 20) (test_world false) = Raise OSError ∧
  events (after (run_forever E c 3 20) (test_world false))
  = events (after (run_forever E c 1 20) (test_world false)) ∧
  fs (after (run_forever E c 3 20) (test_world false)) = ∅.
Proof. split; [by_eval|]. split; by_eval. Qed.

(** ** The log *)

Section log_facts.
Context {V : Type}.

Lemma events_cons (s : state) (v : V) files ev s' l :
  events (World s v files ((ev, s') :: l)) = events (World s v files l) ++ [ev].
Proof. unfold events. simpl. done. Qed.

Lemma calls_cons_call (s : state) (v : V) files cl s' l :
  calls (World s v files ((EvCall cl, s') :: l)) = calls (World s v files l) ++ [cl].
Proof. unfold calls. rewrite events_cons, omap_app. done. Qed.

Lemma calls_cons_print (s : state) (v : V) files m s' l :
  calls (World s v files ((EvPrint m, s') :: l)) = calls (World s v files l).
Proof. unfold calls. rewrite events_cons, omap_app. simpl. by rewrite app_nil_r. Qed.

Lemma calls_log (s s' : state) (v v' : V) files files' l :
  calls (World s v files l) = calls (World s' v' files' l).
Proof. done. Qed.
End log_facts.

(** ** The [place_limit] command and [reduceOnly] *)

Section reduce_only.
Context {V : Type} (E : Env V).

(** C10 (amended): a [place_limit] command whose fields decode and whose
    price has no open order is submitted to the venue exactly once, with
    [reduceOnly] set exactly when the side is sell and the command's
    [reduceOnly] field is absent or truthy.  So the default is true for a
    sell and false for a buy, an explicit value is honoured for a sell,
    and a buy is never submitted with [reduceOnly], whatever the command
    says. *)
Theorem place_limit_reduce_only (w : world V) (cmd : list (string * jval))
    (sv pv cv : jval) (pf cts : Qc) :
  od_get "side"%string cmd = Some sv →
  od_get "price"%string cmd = Some pv →
  od_get "contracts"%string cmd = Some cv →
  float_of E pv = Ok pf →
  float_of E cv = Ok cts →
  od_mem (p_prec E pf) (open_orders (st w)) = false →
  let sd := side_of_jval sv in
  let reduce_only :=
    match od_get "reduceOnly"%string cmd with
    | None => is_sell sd
    | Some v => is_sell sd && py_bool v
    end in
  calls (after (cmd_place_limit E cmd) w)
  = calls w ++ [CCreateOrder Limit sd cts (Some (p_prec E pf)) reduce_only].
Proof.
  intros Hs Hp Hc Hpf Hcts Hmem sd reduce_only.
  assert (is_sell sd && py_bool (default (JBool (is_sell sd)) (od_get "reduceOnly"%string cmd))
          = reduce_only) as Hro.
  { subst reduce_only. destruct (od_get "reduceOnly"%string cmd); simpl; [done|].
    by destruct (is_sell sd). }
  unfold after, cmd_place_limit, submit_command_limit, field, py_float, bind, ret,
    try_except, get_st.
  rewrite Hs, Hp, Hpf, Hc, Hcts. fold sd. rewrite Hro, Hmem.
  unfold venue, modify, print, emit. cbn [st env fs log].
  destruct w as [s v files l]. cbn [st env fs log].
  destruct (create_order E Limit sd cts (Some (p_prec E pf)) reduce_only v) as [[o|e] v'].
  - unfold calls, events. simpl. rewrite !omap_app. simpl. by rewrite app_nil_r.
  - unfold calls, events. destruct (is_Exception e); simpl; rewrite !omap_app; simpl.
    + by rewrite app_nil_r.
    + done.
Qed.
End reduce_only.

(** An instance of [place_limit_reduce_only]: a sell command without a
    [reduceOnly] field is submitted with [reduceOnly] set. *)
Lemma place_limit_reduce_only_witness :
  let cmd := [("op"%string, JStr "place_limit"); ("side"%string, JStr "sell");
              ("price"%string, JNum (qint 120)); ("contracts"%string, JNum 1)] in
  calls (after (cmd_place_limit (test_env false) cmd) (test_world false))
  = [CCreateOrder Limit Sell 1 (Some (qint 120)) true].
Proof.
  intros cmd.
  exact (place_limit_reduce_only (test_env false) (test_world false) cmd
           (JStr "sell") (JNum (qint 120)) (JNum 1) (qint 120) 1
           eq_refl eq_refl eq_refl eq_refl eq_refl eq_refl).
Defined.

(** C10, as stated, fails for a buy: a command with side buy and an
    explicit [reduceOnly] of true is submitted without [reduceOnly]. *)
Lemma explicit_reduce_only_dropped_for_buy :
  let cmd := [("op"%string, JStr "place_limit"); ("side"%string, JStr "buy");
              ("price"%string, JNum (qint 100)); ("contracts"%string, JNum 1);
              ("reduceOnly"%string, JBool true)] in
  calls (after (run_command (test_env false) (test_config false) cmd) (test_world false))
  = [CCreateOrder Limit Buy 1 (Some (qint 100)) false].
Proof. by_eval. Qed.

(** ** The command queue and a command that fails *)

(** C7 at a failing input.  The queue holds [{"op": "cancel_by_price"}]
    followed by [{"op": "cancel_all"}] while one order is open.  The first
    command has no price: reading it raises [KeyError] outside the per-line
    handlers, the outer handler of [process_commands] reports it, and the
    batch ends there: no cancel is sent, the order stays open, and the
    queue has already been emptied, so the second command is lost.  With a
    line that is not JSON in first place instead, the line is skipped and
    [cancel_all] is processed. *)
Theorem command_failure_aborts_batch :
  let E := test_env false in
  let c := test_config false in
  let w := test_world_with_commands commands_bad_field in
  let w' := after (process_commands E c) w in
  let v := test_world_with_commands commands_bad_json in
  let v' := after (process_commands E c) v in
  (result (process_commands E c) w = Ok () ∧
   open_orders (st w') = [(qint 100, "A"%string)] ∧
   calls w' = calls w ∧
   messages w' = messages w ++ [MProcessCommandsError KeyError] ∧
   fs w' !! fkey (COMMANDS_PATH c) = Some ""%string) ∧
  (open_orders (st v') = [] ∧
   calls v' = calls v ++ [CCancelOrder "A"%string] ∧
   fs v' !! fkey (COMMANDS_PATH c) = Some ""%string).
Proof.
  split.
  - split; [by_eval|]. split; [by_eval|]. split; [by_eval|]. split; by_eval.
  - split; [by_eval|]. split; by_eval.
Qed.

(** ** The global invariant is kept by every operation *)

Section invariant_basics.
Context {V : Type}.

Lemma close_report_rev (l : list (event * state)) :
  omap close_report (rev (l.*1)) = rev (omap close_token l).
Proof.
  induction l as [|[ev s] l IH]; [done|].
  rewrite fmap_cons. cbn [rev fst]. rewrite omap_app, IH.
  unfold close_token at 2. cbn [omap list_omap fst].
  destruct (close_report ev); simpl; by rewrite ?app_nil_r.
Qed.

Lemma close_reports_log (w : world V) :
  close_reports w = rev (omap close_token (log w)).
Proof. apply close_report_rev. Qed.

Lemma close_token_loud (l : list (event * state)) :
  omap close_token l = omap close_token (filter (λ en, loud en = true) l).
Proof.
  induction l as [|[ev s] l IH]; [done|].
  destruct (loud (ev, s)) eqn:Hl.
  - rewrite filter_cons_True by done. unfold omap in *. simpl. by rewrite IH.
  - rewrite filter_cons_False by (by rewrite Hl). unfold omap in *. simpl. rewrite IH.
    unfold loud in Hl. simpl in Hl. apply orb_false_elim in Hl as [_ Hl].
    unfold close_token, close_report. simpl. by destruct ev as [cl|[]].
Qed.

Lemma entry_ok_loud (l : list (event * state)) :
  Forall entry_ok l ↔ Forall entry_ok (filter (λ en, loud en = true) l).
Proof.
  induction l as [|[ev s] l IH]; [done|].
  destruct (loud (ev, s)) eqn:Hl.
  - rewrite filter_cons_True by done. rewrite !Forall_cons. by rewrite IH.
  - rewrite filter_cons_False by (by rewrite Hl). rewrite Forall_cons, IH.
    unfold loud in Hl. simpl in Hl. apply orb_false_elim in Hl as [Hl _].
    split; [by intros [_ ?]|]. intros ?. split; [|done].
    unfold entry_ok. simpl. by destruct ev as [[]|].
Qed.

Lemma quiet_close_reports (w w' : world V) :
  quiet w w' → close_reports w' = close_reports w.
Proof.
  intros (_&_&_&_&_&_&Hl). rewrite !close_reports_log.
  by rewrite (close_token_loud (log w')), Hl, <- close_token_loud.
Qed.

Lemma quiet_keeps_Inv c (w w' : world V) : quiet w w' → Inv c w → Inv c w'.
Proof.
  intros Hq (Hnd & Hflag & Hlog). pose proof (quiet_close_reports _ _ Hq) as Hcr.
  destruct Hq as (Ho&_&_&_&Hf&_&Hl). split; [|split].
  - by rewrite Ho.
  - unfold flag_pattern in *. by rewrite Hf, Hcr.
  - apply entry_ok_loud in Hlog. apply entry_ok_loud. by rewrite Hl.
Qed.

#[global] Instance keeps_preorder (I : world V → Prop) : PreOrder (keeps I).
Proof.
  split; [intros w H; exact H|]. intros w1 w2 w3 H1 H2 H. by apply H2, H1.
Qed.

Lemma keeps_of_quiet c {A} (m : M (V:=V) A) : rel quiet m → rel (keeps (Inv c)) m.
Proof. intros Hm w HI. eapply quiet_keeps_Inv; [apply Hm|exact HI]. Qed.

(** A change of the engine's attributes that keeps the prices of
    [open_orders] distinct and leaves the one-shot flag alone. *)
Lemma keeps_modify c (f : state → state) :
  (∀ s, NoDup (od_keys (open_orders s)) → NoDup (od_keys (open_orders (f s)))) →
  (∀ s, first_fill_ignore (f s) = first_fill_ignore s) →
  rel (V:=V) (keeps (Inv c)) (modify f).
Proof.
  intros Hnd Hf w (H1 & H2 & H3). split; [|split]; simpl.
  - by apply Hnd.
  - unfold flag_pattern in *. simpl. by rewrite Hf.
  - done.
Qed.

(** A logged call that is not a limit-order submission. *)
Lemma keeps_venue c {A} (cl : call) (f : V → res A * V) :
  (∀ s, entry_ok (EvCall cl, s)) → rel (keeps (Inv c)) (venue cl f).
Proof.
  intros Hok w (H1 & H2 & H3). unfold after, venue.
  destruct (f (env w)) as [r v']. split; [|split]; simpl.
  - done.
  - unfold flag_pattern, close_reports, events in *. simpl in *.
    rewrite omap_app. simpl. by rewrite app_nil_r.
  - by apply Forall_cons.
Qed.
End invariant_basics.

Section odict_facts.
Context {K A : Type} `{EqDecision K}.

Lemma od_get_None (k : K) (d : list (K * A)) : od_get k d = None ↔ k ∉ od_keys d.
Proof.
  unfold od_keys. induction d as [|[k' v] d IH]; cbn [od_get].
  - split; [intros _; apply not_elem_of_nil|done].
  - rewrite fmap_cons, not_elem_of_cons. cbn [fst].
    destruct (decide (k' = k)) as [->|Hne].
    + split; [done|]. by intros [? _].
    + rewrite IH. split; [by intros ?; split|by intros [_ ?]].
Qed.

Lemma od_keys_set (k : K) (v : A) (d : list (K * A)) :
  od_keys (od_set k v d) = if od_mem k d then od_keys d else od_keys d ++ [k].
Proof.
  unfold od_keys, od_mem. induction d as [|[k' v'] d IH]; cbn [od_get od_set]; [done|].
  destruct (decide (k' = k)) as [->|Hne]; [done|].
  rewrite !fmap_cons, IH. cbn [fst]. by destruct (od_get k d).
Qed.

Lemma NoDup_od_set (k : K) (v : A) (d : list (K * A)) :
  NoDup (od_keys d) → NoDup (od_keys (od_set k v d)).
Proof.
  intros Hnd. rewrite od_keys_set. unfold od_mem.
  destruct (od_get k d) eqn:Hg; [done|].
  apply NoDup_app. split; [done|]. split; [|apply NoDup_singleton].
  intros x Hx ->%list_elem_of_singleton. by apply od_get_None in Hg.
Qed.

Lemma od_keys_del_sub (k : K) (d : list (K * A)) : od_keys (od_del k d) `sublist_of` od_keys d.
Proof.
  unfold od_keys. induction d as [|[k' v'] d IH]; cbn [od_del]; [done|].
  destruct (decide (k' = k)); rewrite !fmap_cons; [by apply sublist_cons|by apply sublist_skip].
Qed.

Lemma NoDup_od_del (k : K) (d : list (K * A)) :
  NoDup (od_keys d) → NoDup (od_keys (od_del k d)).
Proof. intros Hnd. exact (sublist_NoDup _ _ Hnd (od_keys_del_sub k d)). Qed.
End odict_facts.

#[global] Hint Resolve quiet_sleep quiet_mid_or_last quiet_current_mark_or_mid
  quiet_refresh_band quiet_fetch_price_band_cached quiet_fs_fault quiet_aw_step
  quiet_aw_run quiet_atomic_write_json : quiet.

Create HintDb keeps discriminated.

Ltac keeps_auto :=
  repeat first
    [ rel_step
    | apply keeps_of_quiet;
      first [ apply quiet_print; reflexivity
            | apply quiet_ask
            | apply quiet_query
            | apply quiet_put_fs
            | apply quiet_venue; reflexivity
            | apply quiet_modify; intros ?; by repeat split
            | solve [eauto with quiet] ]
    | apply keeps_modify;
      [ intros ? ?; cbn; first [ assumption | by apply NoDup_od_set | by apply NoDup_od_del ]
      | intros ?; reflexivity ]
    | apply keeps_venue; intros ?; exact I
    | solve [eauto with keeps] ].

Section keeps_engine.
Context {V : Type} (E : Env V) (c : config).

Lemma read_band_ok w b :
  result (read_band (V:=V)) w = Ok b → band_cache (st w) = Some b.
Proof.
  unfold result, read_band, bind, get_st. simpl.
  destruct (band_cache (st w)); simpl; congruence.
Qed.

Lemma read_band_after w : after (read_band (V:=V)) w = w.
Proof.
  unfold after, read_band, bind, get_st. simpl. by destruct (band_cache (st w)).
Qed.

(** The band [fetch_price_band_cached] returns is the one it leaves cached. *)
Lemma fetch_price_band_cached_ok fb w b :
  result (fetch_price_band_cached E c fb) w = Ok b →
  band_cache (st (after (fetch_price_band_cached E c fb) w)) = Some b.
Proof.
  unfold fetch_price_band_cached, result, after.
  rewrite bind_query, bind_get_st. cbn [st].
  set (now := (time_time E (env w)).1).
  set (w1 := World (st w) (time_time E (env w)).2 (fs w) (log w)).
  assert ((bind (refresh_band E c now fb) (λ _, read_band) w1).1 = Ok b →
          band_cache (st (bind (refresh_band E c now fb) (λ _, read_band) w1).2) = Some b)
    as Href.
  { unfold bind.
    destruct (refresh_band E c now fb w1) as [[[]|e] w2]; [|done].
    intros Hr. pose proof (read_band_ok w2 b Hr) as Hb.
    by rewrite (run_eq read_band w2), read_band_after. }
  destruct (band_cache (st w)) as [b0|] eqn:Hc; [|exact Href].
  destruct (ltb _ _); [|exact Href].
  simpl. congruence.
Qed.

Lemma submit_limit_Inv w sd price qty :
  Inv c w →
  od_mem price (open_orders (st w)) = false →
  band_allows sd price (band_cache (st w)) →
  Inv c (after (submit_limit E c sd price qty) w).
Proof.
  intros HI Hmem Hband.
  set (w3 := λ v' : V,
         World (st w) v' (fs w) ((EvCall (CPlaceLimit sd price qty), st w) :: log w)).
  assert (∀ v', Inv c (w3 v')) as H3.
  { intros v'. destruct HI as (H1 & H2 & Hl). split; [|split]; simpl; [done| |].
    - unfold flag_pattern, close_reports, events in *. simpl in *.
      rewrite omap_app. simpl. by rewrite app_nil_r.
    - apply Forall_cons. split; [|done]. by split. }
  unfold after, submit_limit, try_except, bind at 1, venue.
  destruct (place_limit E sd price qty (env w)) as [[o|e] v']; fold (w3 v').
  - match goal with
    | |- Inv c (match ?m (w3 v') with _ => _ end).2 =>
        assert (rel (keeps (Inv c)) m) as Hk by keeps_auto;
        specialize (Hk (w3 v') (H3 v')); unfold after in Hk;
        destruct (m (w3 v')) as [[a|e] w4]; cbn [snd] in *; [done|]
    end.
    destruct (is_Exception e); [|done].
    match goal with
    | |- Inv c (?h w4).2 =>
        assert (rel (keeps (Inv c)) h) as Hh by keeps_auto; by apply Hh
    end.
  - destruct (is_Exception e); [|apply H3].
    match goal with
    | |- Inv c (?h (w3 v')).2 =>
        assert (rel (keeps (Inv c)) h) as Hh by keeps_auto; by apply Hh
    end.
Qed.

(** What the guard of [safe_place] lets through is within the band. *)
Lemma guard_band_allows sd price mb ms :
  is_buy sd && gtb price mb = false →
  is_sell sd && ltb price ms = false →
  band_allows sd price (Some (mb, ms)).
Proof.
  intros Hb Hs. exists mb, ms. split; [done|]. split.
  - intros [-> Hlt]. simpl in Hb. by apply bool_decide_eq_false in Hb.
  - intros [-> Hlt]. simpl in Hs. by apply bool_decide_eq_false in Hs.
Qed.

Lemma keeps_safe_place sd p0 q0 : rel (keeps (Inv c)) (safe_place E c sd p0 q0).
Proof.
  intros w HI. unfold after, safe_place. rewrite bind_get_st.
  destruct (od_mem _ _) eqn:Hmem; [done|].
  pose proof (quiet_current_mark_or_mid E c w) as Hq1.
  destruct (result (current_mark_or_mid E c) w) as [px|e] eqn:Hr1.
  2:{ rewrite (bind_raise _ _ _ _ Hr1). by eapply quiet_keeps_Inv. }
  rewrite (bind_ok _ _ _ _ Hr1).
  set (w1 := after (current_mark_or_mid E c) w) in *.
  pose proof (quiet_fetch_price_band_cached E c px w1) as Hq2.
  assert (quiet w (after (fetch_price_band_cached E c px) w1)) as Hq by by etrans.
  destruct (result (fetch_price_band_cached E c px) w1) as [[mb ms]|e] eqn:Hr2.
  2:{ rewrite (bind_raise _ _ _ _ Hr2). by eapply quiet_keeps_Inv. }
  rewrite (bind_ok _ _ _ _ Hr2).
  pose proof (fetch_price_band_cached_ok px w1 _ Hr2) as Hband.
  set (w2 := after (fetch_price_band_cached E c px) w1) in *.
  assert (Inv c w2) as HI2 by by eapply quiet_keeps_Inv.
  assert (open_orders (st w2) = open_orders (st w)) as Ho by apply Hq.
  destruct (is_buy sd && gtb _ mb) eqn:Hb.
  { assert (rel (keeps (Inv c))
              (print (V:=V) (MSkipBuy (p_prec E p0) mb) >>> ret (None (A:=oid)))) as Hk
      by keeps_auto.
    by apply Hk. }
  destruct (is_sell sd && ltb _ ms) eqn:Hs.
  { assert (rel (keeps (Inv c))
              (print (V:=V) (MSkipSell (p_prec E p0) ms) >>> ret (None (A:=oid)))) as Hk
      by keeps_auto.
    by apply Hk. }
  apply submit_limit_Inv; [done|by rewrite Ho|].
  rewrite Hband. by apply guard_band_allows.
Qed.

Lemma keeps_try_cancel o : rel (keeps (Inv c)) (try_cancel E o).
Proof. unfold try_cancel. keeps_auto. Qed.

Lemma keeps_safe_cancel_by_price p : rel (keeps (Inv c)) (safe_cancel_by_price E p).
Proof. unfold safe_cancel_by_price. pose proof keeps_try_cancel. keeps_auto. Qed.

Lemma keeps_cancel_all_open_orders : rel (keeps (Inv c)) (cancel_all_open_orders E).
Proof. unfold cancel_all_open_orders. pose proof keeps_try_cancel. keeps_auto. Qed.

Lemma keeps_place_market sd q : rel (keeps (Inv c)) (place_market E sd q).
Proof. unfold place_market. keeps_auto. Qed.

Lemma keeps_bump_fills p sd : rel (keeps (Inv c)) (bump_fills (V:=V) p sd).
Proof. unfold bump_fills. keeps_auto. Qed.

Lemma keeps_on_fill sd p q : rel (keeps (Inv c)) (on_fill E c sd p q).
Proof.
  unfold on_fill. pose proof keeps_bump_fills.
  assert (rel (V:=V) (keeps (Inv c))
            (modify (λ s,
               match sell_loop c (S (length (inventory s))) p q (inventory s) (realized_pnl s)
               with
               | Some (inv', realized') => set_realized_pnl realized' (set_inventory inv' s)
               | None => s
               end))) as Hsell.
  { apply keeps_modify; intros s; by destruct (sell_loop _ _ _ _ _ _) as [[]|]. }
  keeps_auto.
Qed.

Lemma keeps_replenish sd p : rel (keeps (Inv c)) (replenish E c sd p).
Proof. unfold replenish. pose proof keeps_safe_place. keeps_auto. Qed.

Lemma close_reports_cons (s : state) (v : V) files ev s' l :
  close_reports (World s v files ((ev, s') :: l))
  = close_reports (World s v files l)
    ++ match close_report ev with Some b => [b] | None => [] end.
Proof.
  unfold close_reports. rewrite events_cons, omap_app.
  unfold omap at 2. simpl. by destruct (close_report ev).
Qed.

Lemma replicate_snoc {A} (n : nat) (x : A) : replicate n x ++ [x] = replicate (S n) x.
Proof. induction n as [|n IH]; [done|]. simpl. by rewrite IH. Qed.

Lemma keeps_handle_post_close sd p f : rel (keeps (Inv c)) (handle_post_close E c sd p f).
Proof.
  intros w (Hnd & Hflag & Hlog). unfold after, handle_post_close.
  rewrite bind_print, bind_get_st. cbn [st].
  unfold flag_pattern in Hflag.
  destruct (first_fill_ignore (st w)) eqn:Hf.
  - destruct Hflag as [Hen Hcr]. rewrite bind_modify. cbn [st env fs log].
    unfold print, emit. cbn [snd st env fs log].
    split; [|split].
    + done.
    + unfold flag_pattern. cbn [st first_fill_ignore set_first_fill_ignore].
      exists 0%nat. rewrite !close_reports_cons. cbn [close_report].
      destruct w as [s v files l]. cbn [st env fs log] in *.
      unfold close_reports, events in *. cbn [log] in *. rewrite Hcr, Hen. done.
    + repeat (apply Forall_cons; split; [exact I|]). done.
  - apply keeps_replenish. destruct Hflag as [n Hcr]. split; [|split].
    + done.
    + unfold flag_pattern. cbn [st]. rewrite Hf. exists (S n).
      rewrite close_reports_cons. cbn [close_report].
      destruct w as [s v files l]. cbn [st env fs log] in *.
      unfold close_reports, events in *. cbn [log] in *. rewrite Hcr.
      by rewrite <- app_assoc, replicate_snoc.
    + apply Forall_cons. split; [exact I|done].
Qed.

Lemma keeps_submit_command_limit sd price cts ro :
  rel (keeps (Inv c)) (submit_command_limit E sd price cts ro).
Proof.
  intros w HI. unfold after, submit_command_limit, try_except. rewrite bind_get_st.
  destruct (od_mem _ _) eqn:Hmem.
  { assert (rel (V:=V) (keeps (Inv c)) (print (MSkipPlaceLimit price))) as Hk by keeps_auto.
    by apply Hk. }
  set (w3 := λ v' : V,
         World (st w) v' (fs w)
           ((EvCall (CCreateOrder Limit sd cts (Some price) ro), st w) :: log w)).
  assert (∀ v', Inv c (w3 v')) as H3.
  { intros v'. destruct HI as (H1 & H2 & Hl). split; [|split]; simpl; [done| |].
    - unfold flag_pattern, close_reports, events in *. simpl in *.
      rewrite omap_app. simpl. by rewrite app_nil_r.
    - apply Forall_cons. by split. }
  unfold bind at 1, venue.
  destruct (create_order E Limit sd cts (Some price) ro (env w)) as [[o|e] v']; fold (w3 v').
  - match goal with
    | |- Inv c (match ?m (w3 v') with _ => _ end).2 =>
        assert (rel (keeps (Inv c)) m) as Hk by keeps_auto;
        specialize (Hk (w3 v') (H3 v')); unfold after in Hk;
        destruct (m (w3 v')) as [[a|e] w4]; cbn [snd] in *; [done|]
    end.
    destruct (is_Exception e); [|done].
    assert (rel (V:=V) (keeps (Inv c)) (print (MCmdPlaceErr e))) as Hh by keeps_auto.
    by apply Hh.
  - destruct (is_Exception e); [|apply H3].
    assert (rel (V:=V) (keeps (Inv c)) (print (MCmdPlaceErr e))) as Hh by keeps_auto.
    by apply Hh.
Qed.

Lemma quiet_py_float v : rel quiet (py_float E v).
Proof. intros w. reflexivity. Qed.

Lemma quiet_field k cmd : rel (V:=V) quiet (field k cmd).
Proof. unfold field. quiet_auto. Qed.

Lemma quiet_read_stripped_lines p : rel quiet (read_stripped_lines E p).
Proof. unfold read_stripped_lines. pose proof (quiet_fs_fault E). quiet_auto. Qed.

Lemma quiet_truncate_file p : rel quiet (truncate_file E p).
Proof. unfold truncate_file. pose proof (quiet_fs_fault E). quiet_auto. Qed.

Lemma quiet_build_state_doc : rel quiet (build_state_doc E c).
Proof.
  unfold build_state_doc.
  pose proof (quiet_current_mark_or_mid E c). pose proof (quiet_fetch_price_band_cached E c).
  quiet_auto.
Qed.

Lemma quiet_snapshot_and_dump : rel quiet (snapshot_and_dump E c).
Proof.
  unfold snapshot_and_dump.
  pose proof quiet_build_state_doc. pose proof (quiet_atomic_write_json E). quiet_auto.
Qed.

Lemma quiet_heartbeat i : rel quiet (heartbeat (V:=V) i).
Proof. unfold heartbeat. quiet_auto. Qed.

Lemma quiet_tick_after_snapshot hb i : rel quiet (tick_after_snapshot E c hb i).
Proof.
  unfold tick_after_snapshot. pose proof quiet_heartbeat. pose proof (quiet_sleep E).
  quiet_auto.
Qed.

Lemma keeps_cmd_place_limit cmd : rel (keeps (Inv c)) (cmd_place_limit E cmd).
Proof.
  unfold cmd_place_limit.
  pose proof quiet_py_float. pose proof quiet_field. pose proof keeps_submit_command_limit.
  keeps_auto.
Qed.

Lemma keeps_cmd_restore_level cmd : rel (keeps (Inv c)) (cmd_restore_level E c cmd).
Proof.
  unfold cmd_restore_level.
  pose proof quiet_py_float. pose proof quiet_field. pose proof keeps_safe_place.
  pose proof (quiet_current_mark_or_mid E c).
  keeps_auto.
Qed.

Lemma keeps_run_command cmd : rel (keeps (Inv c)) (run_command E c cmd).
Proof.
  unfold run_command.
  pose proof quiet_py_float. pose proof quiet_field.
  pose proof keeps_cancel_all_open_orders. pose proof keeps_safe_cancel_by_price.
  pose proof keeps_cmd_place_limit. pose proof keeps_cmd_restore_level.
  keeps_auto.
Qed.

Lemma keeps_process_commands : rel (keeps (Inv c)) (process_commands E c).
Proof.
  unfold process_commands, process_line.
  pose proof quiet_read_stripped_lines. pose proof quiet_truncate_file.
  pose proof keeps_run_command.
  keeps_auto.
Qed.

Lemma keeps_set_last_filled o f : rel (V:=V) (keeps (Inv c)) (set_last_filled o f).
Proof. unfold set_last_filled. keeps_auto. Qed.

Lemma keeps_poll_one o m : rel (keeps (Inv c)) (poll_one E c o m).
Proof.
  unfold poll_one.
  pose proof keeps_on_fill. pose proof keeps_set_last_filled.
  pose proof keeps_handle_post_close.
  keeps_auto.
Qed.

Lemma keeps_poll_and_handle_fills : rel (keeps (Inv c)) (poll_and_handle_fills E c).
Proof. unfold poll_and_handle_fills. pose proof keeps_poll_one. keeps_auto. Qed.

Lemma keeps_init_level px acc p : rel (keeps (Inv c)) (init_level E c px acc p).
Proof. unfold init_level. pose proof keeps_safe_place. keeps_auto. Qed.

Lemma keeps_initialize_full_grid_once : rel (keeps (Inv c)) (initialize_full_grid_once E c).
Proof.
  unfold initialize_full_grid_once.
  pose proof keeps_init_level. pose proof keeps_place_market.
  pose proof (quiet_current_mark_or_mid E c).
  keeps_auto.
Qed.

Lemma keeps_tick hb i : rel (keeps (Inv c)) (tick E c hb i).
Proof.
  unfold tick, tick_before_snapshot.
  pose proof keeps_initialize_full_grid_once. pose proof keeps_process_commands.
  pose proof keeps_poll_and_handle_fills. pose proof quiet_snapshot_and_dump.
  pose proof quiet_tick_after_snapshot.
  keeps_auto.
Qed.

Lemma keeps_exec o : rel (keeps (Inv c)) (exec E c o).
Proof.
  destruct o; simpl.
  - apply keeps_initialize_full_grid_once.
  - apply keeps_process_commands.
  - apply keeps_run_command.
  - apply keeps_poll_and_handle_fills.
  - apply keeps_of_quiet, quiet_snapshot_and_dump.
  - apply keeps_tick.
  - pose proof keeps_safe_place. keeps_auto.
  - pose proof keeps_safe_cancel_by_price. keeps_auto.
  - apply keeps_cancel_all_open_orders.
  - apply keeps_on_fill.
  - apply keeps_handle_post_close.
Qed.

Lemma initial_world_Inv (v : V) files : Inv c (initial_world c v files).
Proof.
  split; [|split]; simpl.
  - apply NoDup_nil_2.
  - unfold flag_pattern. simpl. destruct (init_position_enabled c); [done|].
    by exists 0%nat.
  - constructor.
Qed.

(** Every reachable world satisfies the invariant. *)
Lemma reachable_Inv w : reachable E c w → Inv c w.
Proof.
  induction 1 as [v files|o w Hr IH|w v' files' Hr IH].
  - apply initial_world_Inv.
  - by apply keeps_exec.
  - destruct IH as (H1 & H2 & H3). by split.
Qed.
End keeps_engine.

(** ** C1: one open order per price *)

Section one_order_per_price.
Context {V : Type} (E : Env V) (c : config).

(** C1: in every world the engine can reach, by any sequence of
    operations, no two entries of [open_orders] share a price, and every
    limit order it ever submitted, through [safe_place] or through the
    [place_limit] command, was submitted while its price had no entry.
    On a price that has an entry, [safe_place] returns [None] and leaves
    the world as it is (no venue call, no message), and a [place_limit]
    command only reports the skip. *)
Theorem one_order_per_price (w : world V) :
  reachable E c w →
  NoDup (od_keys (open_orders (st w))) ∧
  (∀ en sd p q, en ∈ log w → fst en = EvCall (CPlaceLimit sd p q) →
                od_mem p (open_orders (snd en)) = false) ∧
  (∀ en sd p q ro, en ∈ log w → fst en = EvCall (CCreateOrder Limit sd q (Some p) ro) →
                   od_mem p (open_orders (snd en)) = false) ∧
  (∀ sd p0 q0, od_mem (p_prec E p0) (open_orders (st w)) = true →
               safe_place E c sd p0 q0 w = (Ok None, w)) ∧
  (∀ cmd sv pv cv pf cts,
     od_get "side"%string cmd = Some sv →
     od_get "price"%string cmd = Some pv →
     od_get "contracts"%string cmd = Some cv →
     float_of E pv = Ok pf →
     float_of E cv = Ok cts →
     od_mem (p_prec E pf) (open_orders (st w)) = true →
     cmd_place_limit E cmd w
     = (Ok (), World (st w) (env w) (fs w)
                 ((EvPrint (MSkipPlaceLimit (p_prec E pf)), st w) :: log w))).
Proof.
  intros Hr. destruct (reachable_Inv E c w Hr) as (Hnd & _ & Hlog).
  rewrite Forall_forall in Hlog.
  split; [done|]. split; [|split; [|split]].
  - intros en sd p q Hin Hev. specialize (Hlog en Hin). unfold entry_ok in Hlog.
    rewrite Hev in Hlog. by destruct Hlog.
  - intros en sd p q ro Hin Hev. specialize (Hlog en Hin). unfold entry_ok in Hlog.
    by rewrite Hev in Hlog.
  - intros sd p0 q0 Hmem. unfold safe_place. rewrite bind_get_st. by rewrite Hmem.
  - intros cmd sv pv cv pf cts Hs Hp Hc Hpf Hcts Hmem.
    unfold cmd_place_limit, submit_command_limit, field, py_float, bind, ret,
      try_except, get_st.
    rewrite Hs, Hp, Hpf, Hc, Hcts, Hmem. by destruct w.
Qed.
End one_order_per_price.

(** An instance of [one_order_per_price]: after the grid is initialised on
    the test world (orders at 100 and 110), a second placement at 100 is a
    no-op. *)
Lemma one_order_per_price_witness :
  let E := test_env false in
  let c := test_config false in
  let w := after (exec E c OpInit) (test_world false) in
  reachable E c w ∧
  NoDup (od_keys (open_orders (st w))) ∧
  safe_place E c Buy (qint 100) 1 w = (Ok None, w).
Proof.
  intros E c w.
  assert (reachable E c w) as Hr by (apply reach_step, reach_init).
  split; [exact Hr|].
  destruct (one_order_per_price E c w Hr) as (Hnd & _ & _ & Hsp & _).
  split; [exact Hnd|]. apply Hsp. by_eval.
Defined.

(** ** C5: the first close is ignored once, when the hedge is on *)

Section first_fill.
Context {V : Type} (E : Env V) (c : config).

(** C5: in every reachable world, if the initial hedge is off the one-shot
    flag is down and no close was ever reported as ignored; if it is on,
    either no close has been handled yet and the flag is up, or the flag is
    down and the close reports are "closed, ignored" followed by "closed"
    only: exactly the first close was ignored.  A close handled while the
    flag is up lowers the flag, reports, and does nothing else (no venue
    call, no change of the order book); a close handled while it is down
    follows the replenishment rule. *)
Theorem first_close_ignored_once (w : world V) :
  reachable E c w →
  (init_position_enabled c = false →
   first_fill_ignore (st w) = false ∧ ∃ n, close_reports w = replicate n true) ∧
  (init_position_enabled c = true →
   (first_fill_ignore (st w) = true ∧ close_reports w = []) ∨
   (first_fill_ignore (st w) = false ∧
    ∃ n, close_reports w = true :: false :: replicate n true)) ∧
  (∀ sd p f, first_fill_ignore (st w) = true →
     handle_post_close E c sd p f w
     = (Ok (), World (set_first_fill_ignore false (st w)) (env w) (fs w)
                 ((EvPrint MFirstFillIgnored, set_first_fill_ignore false (st w))
                  :: (EvPrint (MClosed sd p f), st w) :: log w))) ∧
  (∀ sd p f, first_fill_ignore (st w) = false →
     handle_post_close E c sd p f w
     = replenish E c sd p
         (World (st w) (env w) (fs w) ((EvPrint (MClosed sd p f), st w) :: log w))).
Proof.
  intros Hr. destruct (reachable_Inv E c w Hr) as (_ & Hflag & _).
  unfold flag_pattern in Hflag.
  split; [|split; [|split]].
  - intros Hen. rewrite Hen in Hflag.
    destruct (first_fill_ignore (st w)); [by destruct Hflag|done].
  - intros Hen. rewrite Hen in Hflag.
    destruct (first_fill_ignore (st w)); [left; by destruct Hflag|right].
    split; [done|]. destruct Hflag as [n Hn]. by exists n.
  - intros sd p f Hf. unfold handle_post_close.
    rewrite bind_print, bind_get_st. cbn [st]. by rewrite Hf.
  - intros sd p f Hf. unfold handle_post_close.
    rewrite bind_print, bind_get_st. cbn [st]. by rewrite Hf.
Qed.
End first_fill.

(** An instance of [first_close_ignored_once]: with the hedge on, the grid
    is initialised and two closes are handled; the first is reported as
    ignored, the second is not. *)
Lemma first_close_ignored_once_witness :
  let E := test_env false in
  let c := test_config true in
  let w := after (exec E c (OpPostClose Sell (qint 110) 1))
             (after (exec E c (OpPostClose Buy (qint 100) 1))
                (after (exec E c OpInit) (test_world true))) in
  reachable E c w ∧
  first_fill_ignore (st w) = false ∧
  close_reports w = [true; false; true].
Proof.
  intros E c w.
  assert (reachable E c w) as Hr by (do 3 apply reach_step; apply reach_init).
  split; [exact Hr|].
  destruct (first_close_ignored_once E c w Hr) as (_ & Hon & _).
  destruct (Hon eq_refl) as [[Hf _]|[Hf [n Hn]]].
  - exfalso. revert Hf. by_eval.
  - split; [exact Hf|]. by_eval.
Defined.

(** ** Submissions in the log *)

Section log_tokens.
Context {V : Type} {B : Type} (g : event → option B).

Lemma log_omap_rev (l : list (event * state)) :
  omap g (rev (l.*1)) = rev (omap (λ en, g (fst en)) l).
Proof.
  induction l as [|[ev s] l IH]; [done|].
  rewrite fmap_cons. cbn [rev fst]. rewrite omap_app, IH.
  unfold omap. cbn [list_omap fst].
  destruct (g ev); simpl; by rewrite ?app_nil_r.
Qed.

Lemma log_omap_loud (l : list (event * state)) :
  (∀ ev s, loud (ev, s) = false → g ev = None) →
  omap (λ en, g (fst en)) l
  = omap (λ en, g (fst en)) (filter (λ en, loud en = true) l).
Proof.
  intros Hg. induction l as [|[ev s] l IH]; [done|].
  destruct (loud (ev, s)) eqn:Hl.
  - rewrite filter_cons_True by done. unfold omap in *. simpl. by rewrite IH.
  - rewrite filter_cons_False by (by rewrite Hl). unfold omap in *. simpl.
    by rewrite IH, (Hg ev s Hl).
Qed.

Lemma quiet_log_omap (w w' : world V) :
  (∀ ev s, loud (ev, s) = false → g ev = None) →
  quiet w w' → omap g (events w') = omap g (events w).
Proof.
  intros Hg (_&_&_&_&_&_&Hl). unfold events. rewrite !log_omap_rev.
  by rewrite (log_omap_loud (log w') Hg), Hl, <- (log_omap_loud (log w) Hg).
Qed.

Lemma omap_events_cons (s : state) (v : V) files ev s' l :
  omap g (events (World s v files ((ev, s') :: l)))
  = omap g (events (World s v files l)) ++ match g ev with Some b => [b] | None => [] end.
Proof.
  rewrite events_cons, omap_app. unfold omap at 2. simpl. by destruct (g ev).
Qed.
End log_tokens.

Section placements_facts.
Context {V : Type}.

Lemma placement_of_quiet ev (s : state) : loud (ev, s) = false → placement_of ev = None.
Proof.
  unfold loud. simpl. intros [Hp _]%orb_false_elim. unfold placement_of.
  destruct ev; [by rewrite Hp|done].
Qed.

Lemma limit_create_of_quiet ev (s : state) : loud (ev, s) = false → limit_create_of ev = None.
Proof.
  unfold loud. simpl. intros [Hp _]%orb_false_elim.
  by destruct ev as [[? ? ?|[] ? ? ? ?| | | | |]|].
Qed.

Lemma quiet_placements (w w' : world V) : quiet w w' → placements w' = placements w.
Proof. apply quiet_log_omap, placement_of_quiet. Qed.

Lemma quiet_limit_creates (w w' : world V) : quiet w w' → same_limit_creates w w'.
Proof. apply quiet_log_omap, limit_create_of_quiet. Qed.

Lemma placements_cons (s : state) (v : V) files ev s' l :
  placements (World s v files ((ev, s') :: l))
  = placements (World s v files l)
    ++ match placement_of ev with Some cl => [cl] | None => [] end.
Proof. apply omap_events_cons. Qed.

#[global] Instance same_limit_creates_preorder : PreOrder (same_limit_creates (V:=V)).
Proof.
  split; [by intros w|]. intros w1 w2 w3 H1 H2. unfold same_limit_creates in *. congruence.
Qed.

Lemma lc_of_quiet {A} (m : M (V:=V) A) : rel quiet m → rel same_limit_creates m.
Proof. intros Hm w. apply quiet_limit_creates, Hm. Qed.

Lemma lc_modify (f : state → state) : rel (V:=V) same_limit_creates (modify f).
Proof. intros w. done. Qed.

Lemma lc_venue {A} (cl : call) (f : V → res A * V) :
  limit_create_of (EvCall cl) = None → rel same_limit_creates (venue cl f).
Proof.
  intros Hcl w. unfold after, venue. destruct (f (env w)) as [r v']. cbn [snd].
  unfold same_limit_creates, limit_creates.
  rewrite omap_events_cons, Hcl, app_nil_r. done.
Qed.

Lemma lc_print (m : msg) : rel (V:=V) same_limit_creates (print m).
Proof.
  intros w. unfold same_limit_creates, limit_creates, after, print, emit. cbn [snd].
  rewrite omap_events_cons. cbn [limit_create_of]. by rewrite app_nil_r.
Qed.
End placements_facts.

Ltac lc_auto :=
  repeat first
    [ rel_step
    | apply lc_modify
    | apply lc_print
    | apply lc_venue; reflexivity
    | apply lc_of_quiet;
      first [ apply quiet_ask | apply quiet_query | apply quiet_put_fs
            | solve [eauto with quiet] ]
    | solve [eauto with keeps] ].

Section band_guard.
Context {V : Type} (E : Env V) (c : config).

Lemma lc_safe_place sd p0 q0 : rel same_limit_creates (safe_place E c sd p0 q0).
Proof.
  unfold safe_place, submit_limit.
  pose proof (quiet_current_mark_or_mid E c). pose proof (quiet_fetch_price_band_cached E c).
  pose proof (quiet_sleep E).
  lc_auto.
Qed.

Lemma lc_replenish sd p : rel same_limit_creates (replenish E c sd p).
Proof. unfold replenish. pose proof lc_safe_place. lc_auto. Qed.

Lemma lc_handle_post_close sd p f : rel same_limit_creates (handle_post_close E c sd p f).
Proof. unfold handle_post_close. pose proof lc_replenish. lc_auto. Qed.

Lemma lc_initialize_full_grid_once : rel same_limit_creates (initialize_full_grid_once E c).
Proof.
  unfold initialize_full_grid_once, init_level, place_market.
  pose proof lc_safe_place. pose proof (quiet_current_mark_or_mid E c).
  lc_auto.
Qed.

Lemma lc_cmd_restore_level cmd : rel same_limit_creates (cmd_restore_level E c cmd).
Proof.
  unfold cmd_restore_level.
  pose proof lc_safe_place. pose proof (quiet_current_mark_or_mid E c).
  pose proof (quiet_py_float E). pose proof (quiet_field (V:=V)).
  lc_auto.
Qed.

(** The skip of [safe_place]: past the duplicate check, with the mark
    price and the band fetched, an order outside the band is reported as
    skipped and nothing is submitted. *)
Lemma safe_place_skip w sd p0 q0 px mb ms :
  od_mem (p_prec E p0) (open_orders (st w)) = false →
  result (current_mark_or_mid E c) w = Ok px →
  result (fetch_price_band_cached E c px) (after (current_mark_or_mid E c) w) = Ok (mb, ms) →
  (sd = Buy ∧ mb < p_prec E p0) ∨ (sd = Sell ∧ p_prec E p0 < ms) →
  let w2 := after (fetch_price_band_cached E c px) (after (current_mark_or_mid E c) w) in
  let report := match sd with
                | Buy => MSkipBuy (p_prec E p0) mb
                | _ => MSkipSell (p_prec E p0) ms
                end in
  safe_place E c sd p0 q0 w
  = (Ok None, World (st w2) (env w2) (fs w2) ((EvPrint report, st w2) :: log w2)) ∧
  placements w2 = placements w ∧
  open_orders (st w2) = open_orders (st w).
Proof.
  intros Hmem Hr1 Hr2 Hout w2 report.
  assert (quiet w w2) as Hq.
  { etrans; [apply (quiet_current_mark_or_mid E c w)|].
    apply (quiet_fetch_price_band_cached E c px). }
  split; [|split; [by apply quiet_placements|apply Hq]].
  unfold safe_place. rewrite bind_get_st, Hmem.
  rewrite (bind_ok _ _ _ _ Hr1), (bind_ok _ _ _ _ Hr2). fold w2.
  destruct Hout as [[-> Hlt]|[-> Hlt]]; subst report; cbn [is_buy is_sell andb].
  - unfold gtb. by rewrite bool_decide_eq_true_2.
  - unfold ltb. by rewrite bool_decide_eq_true_2.
Qed.

(** C6 (amended): every limit order the engine submits through
    [safe_place], which is the only way grid initialisation, replenishment
    and [restore_level] submit one, is checked against the price band
    first: in every reachable world each logged call of the injected
    [place_limit] was made within the band cached at that moment; a buy
    above [maxBuy] or a sell below [minSell] is not sent and is reported as
    skipped; and initialisation, replenishment and [restore_level] never
    submit a limit order through [okx.create_order].  The [place_limit]
    command, which does, consults no band. *)
Theorem band_checked_by_safe_place (w : world V) :
  reachable E c w →
  (∀ en sd p q, en ∈ log w → fst en = EvCall (CPlaceLimit sd p q) →
                band_allows sd p (band_cache (snd en))) ∧
  (∀ sd p0 q0 px mb ms,
     od_mem (p_prec E p0) (open_orders (st w)) = false →
     result (current_mark_or_mid E c) w = Ok px →
     result (fetch_price_band_cached E c px) (after (current_mark_or_mid E c) w)
     = Ok (mb, ms) →
     (sd = Buy ∧ mb < p_prec E p0) ∨ (sd = Sell ∧ p_prec E p0 < ms) →
     let w2 := after (fetch_price_band_cached E c px) (after (current_mark_or_mid E c) w) in
     let report := match sd with
                   | Buy => MSkipBuy (p_prec E p0) mb
                   | _ => MSkipSell (p_prec E p0) ms
                   end in
     safe_place E c sd p0 q0 w
     = (Ok None, World (st w2) (env w2) (fs w2) ((EvPrint report, st w2) :: log w2)) ∧
     placements w2 = placements w ∧
     open_orders (st w2) = open_orders (st w)) ∧
  same_limit_creates w (after (initialize_full_grid_once E c) w) ∧
  (∀ sd p f, same_limit_creates w (after (handle_post_close E c sd p f) w)) ∧
  (∀ cmd, same_limit_creates w (after (cmd_restore_level E c cmd) w)).
Proof.
  intros Hr. destruct (reachable_Inv E c w Hr) as (_ & _ & Hlog).
  rewrite Forall_forall in Hlog.
  split; [|split; [|split; [|split]]].
  - intros en sd p q Hin Hev. specialize (Hlog en Hin). unfold entry_ok in Hlog.
    rewrite Hev in Hlog. by destruct Hlog.
  - intros sd p0 q0 px mb ms. apply safe_place_skip.
  - apply lc_initialize_full_grid_once.
  - intros sd p f. apply lc_handle_post_close.
  - intros cmd. apply lc_cmd_restore_level.
Qed.
End band_guard.

(** An instance of [band_checked_by_safe_place]: on the initialised test
    world (band (200, 50)) a buy at 300 is skipped and reported. *)
Lemma band_checked_by_safe_place_witness :
  let E := test_env false in
  let c := test_config false in
  let w := after (exec E c OpInit) (test_world false) in
  reachable E c w ∧
  result (safe_place E c Buy (qint 300) 1) w = Ok None ∧
  placements (after (safe_place E c Buy (qint 300) 1) w) = placements w ∧
  messages (after (safe_place E c Buy (qint 300) 1) w)
  = messages w ++ [MSkipBuy (qint 300) (qint 200)].
Proof.
  intros E c w.
  assert (reachable E c w) as Hr by (apply reach_step, reach_init).
  split; [exact Hr|].
  destruct (band_checked_by_safe_place E c w Hr) as (_ & Hskip & _).
  assert (od_mem (p_prec E (qint 300)) (open_orders (st w)) = false) as H1 by by_eval.
  assert (result (current_mark_or_mid E c) w = Ok (qint 105)) as H2 by by_eval.
  assert (result (fetch_price_band_cached E c (qint 105)) (after (current_mark_or_mid E c) w)
          = Ok (qint 200, qint 50)) as H3 by by_eval.
  assert ((Buy = Buy ∧ qint 200 < p_prec E (qint 300)) ∨
          (Buy = Sell ∧ p_prec E (qint 300) < qint 50)) as H4.
  { left. split; [reflexivity|by_eval]. }
  destruct (Hskip Buy (qint 300) 1 (qint 105) (qint 200) (qint 50) H1 H2 H3 H4)
    as (Heq & Hpl & _).
  split; [unfold result; rewrite Heq; reflexivity|].
  split; by_eval.
Defined.

(** C6, as stated, fails for the [place_limit] command: with the band at
    (200, 50), a command to buy at 1000 is sent to the venue and no skip is
    reported. *)
Lemma place_limit_command_ignores_band :
  let E := test_env false in
  let c := test_config false in
  let w := test_world false in
  let cmd := [("op"%string, JStr "place_limit"); ("side"%string, JStr "buy");
              ("price"%string, JNum (qint 1000)); ("contracts"%string, JNum 1)] in
  result (fetch_price_band_cached E c (qint 105)) w = Ok (qint 200, qint 50) ∧
  calls (after (run_command E c cmd) w)
  = [CCreateOrder Limit Buy 1 (Some (qint 1000)) false] ∧
  messages (after (run_command E c cmd) w) = [MCmdPlaced Buy (qint 1000) "A"] ∧
  open_orders (st (after (run_command E c cmd) w)) = [(qint 1000, "A"%string)].
Proof. split; [by_eval|]. split; [by_eval|]. split; by_eval. Qed.

(** ** C2: the replenishment rule *)

Section levels_facts.

Lemma insert_level_elem x l y : y ∈ insert_level x l ↔ y = x ∨ y ∈ l.
Proof.
  induction l as [|z l IH]; simpl.
  - rewrite list_elem_of_singleton. split; [by left|]. intros [?|?%elem_of_nil]; done.
  - destruct (ltb x z); [by rewrite elem_of_cons|].
    case_bool_decide as Hxz.
    + subst z. rewrite elem_of_cons. intuition.
    + rewrite !elem_of_cons, IH. intuition.
Qed.

Lemma insert_level_sorted x l :
  StronglySorted Qclt l → StronglySorted Qclt (insert_level x l).
Proof.
  induction 1 as [|z l Hs IH Hz]; simpl.
  - repeat constructor.
  - destruct (ltb x z) eqn:Hlt.
    + apply bool_decide_eq_true in Hlt. constructor; [by constructor|].
      constructor; [done|]. eapply Forall_impl; [exact Hz|].
      intros y Hy. by etrans.
    + apply bool_decide_eq_false in Hlt. case_bool_decide as Hxz; [by constructor|].
      constructor; [done|]. apply Forall_forall. intros y [->|Hy]%insert_level_elem.
      * apply Qcle_ngt in Hlt. destruct (Qcle_lt_or_eq _ _ Hlt); [done|congruence].
      * rewrite Forall_forall in Hz. by apply Hz.
Qed.

Lemma sorted_set_sorted l : StronglySorted Qclt (sorted_set l).
Proof.
  induction l as [|x l IH]; simpl; [constructor|]. by apply insert_level_sorted.
Qed.

Lemma sorted_set_elem l y : y ∈ sorted_set l ↔ y ∈ l.
Proof.
  induction l as [|x l IH]; simpl; [done|].
  by rewrite insert_level_elem, elem_of_cons, IH.
Qed.

Context {V : Type} (E : Env V).

(** The levels [__init__] builds are strictly increasing. *)
Lemma make_config_levels_sorted sym mkt ep cs lv gq sp cp fr ss ls bt ip :
  StronglySorted Qclt (levels (make_config E sym mkt ep cs lv gq sp cp fr ss ls bt ip)).
Proof. apply sorted_set_sorted. Qed.

(** They are already at the venue's precision when rounding twice is
    rounding once. *)
Lemma make_config_levels_rounded sym mkt ep cs lv gq sp cp fr ss ls bt ip x :
  (∀ y, p_prec E (p_prec E y) = p_prec E y) →
  x ∈ levels (make_config E sym mkt ep cs lv gq sp cp fr ss ls bt ip) → p_prec E x = x.
Proof.
  intros Hidem Hx. unfold make_config in Hx. cbn [levels] in Hx.
  apply (proj1 (sorted_set_elem _ _)) in Hx.
  apply (proj1 (list_elem_of_fmap _ _ _)) in Hx as (y & -> & _). apply Hidem.
Qed.

Context (c : config).

Lemma neighbor_above_least p up :
  StronglySorted Qclt (levels c) → neighbor_above c p = Some up →
  up ∈ levels c ∧ p < up ∧ ∀ x, x ∈ levels c → p < x → up ≤ x.
Proof.
  unfold neighbor_above. induction 1 as [|z l Hs IH Hz]; [done|].
  destruct (decide (p < z)) as [Hpz|Hpz].
  - rewrite filter_cons_True by done. simpl. intros [= ->].
    split; [by left|]. split; [done|].
    intros x [->|Hx]%elem_of_cons _; [done|].
    rewrite Forall_forall in Hz. by apply Qclt_le_weak, Hz.
  - rewrite filter_cons_False by done. intros Hh.
    destruct (IH Hh) as (Hin & Hlt & Hleast). split; [by right|]. split; [done|].
    intros x [->|Hx]%elem_of_cons Hpx; [done|]. by apply Hleast.
Qed.

Lemma neighbor_below_greatest p dn :
  StronglySorted Qclt (levels c) → neighbor_below c p = Some dn →
  dn ∈ levels c ∧ dn < p ∧ ∀ x, x ∈ levels c → x < p → x ≤ dn.
Proof.
  unfold neighbor_below. induction 1 as [|z l Hs IH Hz]; [done|].
  rewrite Forall_forall in Hz.
  destruct (decide (z < p)) as [Hzp|Hzp].
  - rewrite filter_cons_True by done. rewrite last_cons.
    destruct (last (filter (λ x, x < p) l)) as [d|] eqn:Hl.
    + intros [= ->]. destruct (IH eq_refl) as (Hin & Hlt & Hmax).
      split; [by right|]. split; [done|].
      intros x [->|Hx]%elem_of_cons Hxp; [|by apply Hmax].
      by apply Qclt_le_weak, Hz.
    + intros [= ->]. split; [by left|]. split; [done|].
      intros x [->|Hx]%elem_of_cons Hxp; [done|].
      apply last_None in Hl.
      assert (x ∈ filter (λ x, x < p) l) as Hf by by apply list_elem_of_filter.
      rewrite Hl in Hf. by apply elem_of_nil in Hf.
  - rewrite filter_cons_False by done. intros Hh.
    destruct (IH Hh) as (Hin & Hlt & Hmax). split; [by right|]. split; [done|].
    intros x [->|Hx]%elem_of_cons Hxp; [done|]. by apply Hmax.
Qed.
Lemma neighbor_above_exists p x : x ∈ levels c → p < x → is_Some (neighbor_above c p).
Proof.
  intros Hx Hlt. unfold neighbor_above.
  destruct (head (filter (λ y, p < y) (levels c))) as [u|] eqn:Hh; [by exists u|].
  apply head_None in Hh.
  assert (x ∈ filter (λ y, p < y) (levels c)) as Hin by by apply list_elem_of_filter.
  rewrite Hh in Hin. by apply elem_of_nil in Hin.
Qed.

Lemma neighbor_below_exists p x : x ∈ levels c → x < p → is_Some (neighbor_below c p).
Proof.
  intros Hx Hlt. unfold neighbor_below.
  destruct (last (filter (λ y, y < p) (levels c))) as [d|] eqn:Hl; [by exists d|].
  apply last_None in Hl.
  assert (x ∈ filter (λ y, y < p) (levels c)) as Hin by by apply list_elem_of_filter.
  rewrite Hl in Hin. by apply elem_of_nil in Hin.
Qed.
End levels_facts.

Section replenishment.
Context {V : Type} (E : Env V) (c : config).

(** What a submission through [place_limit] leaves behind: one logged
    submission, and the order book as it was (the venue refused) or with
    the new entry. *)
Lemma submit_limit_effect w sd price qty :
  let w' := after (submit_limit E c sd price qty) w in
  placements w' = placements w ++ [CPlaceLimit sd price qty] ∧
  (open_orders (st w') = open_orders (st w) ∨
   ∃ o, open_orders (st w') = od_set price o (open_orders (st w))).
Proof.
  destruct w as [s v files l].
  unfold after, submit_limit, try_except, bind, venue, modify, print, emit, sleep, ask, ret.
  cbn [st env fs log].
  destruct (place_limit E sd price qty v) as [[o|e] v1]; cbn [st env fs log snd].
  - destruct (time_sleep E (SLEEP_SEC c) v1) as [[[]|e2] v2]; cbn [st env fs log snd].
    + rewrite !placements_cons. cbn [placement_of is_placement]. rewrite app_nil_r.
      split; [done|]. right. by exists o.
    + destruct (is_Exception e2); cbn [st env fs log snd].
      * destruct (time_sleep E (SLEEP_SEC c) v2) as [[[]|e3] v3]; cbn [st env fs log snd];
          rewrite !placements_cons; cbn [placement_of is_placement];
          rewrite !app_nil_r; (split; [done|]); right; by exists o.
      * rewrite !placements_cons. cbn [placement_of is_placement]. rewrite app_nil_r.
        split; [done|]. right. by exists o.
  - destruct (is_Exception e); cbn [st env fs log snd].
    + destruct (time_sleep E (SLEEP_SEC c) v1) as [[[]|e3] v3]; cbn [st env fs log snd];
        rewrite !placements_cons; cbn [placement_of is_placement];
        rewrite ?app_nil_r; (split; [done|]); by left.
    + rewrite !placements_cons. cbn [placement_of is_placement].
      split; [done|]. by left.
Qed.

(** What [safe_place] does to the order book and the log of submissions:
    nothing, or one submission at the rounded price, which had no entry. *)
Lemma safe_place_effect w sd p0 q0 :
  let w' := after (safe_place E c sd p0 q0) w in
  (placements w' = placements w ∧ open_orders (st w') = open_orders (st w)) ∨
  (od_mem (p_prec E p0) (open_orders (st w)) = false ∧
   placements w' = placements w ++ [CPlaceLimit sd (p_prec E p0) (q_prec E q0)] ∧
   (open_orders (st w') = open_orders (st w) ∨
    ∃ o, open_orders (st w') = od_set (p_prec E p0) o (open_orders (st w)))).
Proof.
  unfold after, safe_place. rewrite bind_get_st.
  destruct (od_mem _ _) eqn:Hmem; [by left|].
  pose proof (quiet_current_mark_or_mid E c w) as Hq1.
  destruct (result (current_mark_or_mid E c) w) as [px|e] eqn:Hr1.
  2:{ rewrite (bind_raise _ _ _ _ Hr1). left.
      split; [by apply quiet_placements|apply Hq1]. }
  rewrite (bind_ok _ _ _ _ Hr1).
  set (w1 := after (current_mark_or_mid E c) w) in *.
  pose proof (quiet_fetch_price_band_cached E c px w1) as Hq2.
  assert (quiet w (after (fetch_price_band_cached E c px) w1)) as Hq by by etrans.
  destruct (result (fetch_price_band_cached E c px) w1) as [[mb ms]|e] eqn:Hr2.
  2:{ rewrite (bind_raise _ _ _ _ Hr2). left.
      split; [by apply quiet_placements|apply Hq]. }
  rewrite (bind_ok _ _ _ _ Hr2).
  set (w2 := after (fetch_price_band_cached E c px) w1) in *.
  pose proof (quiet_placements _ _ Hq) as Hp2.
  assert (open_orders (st w2) = open_orders (st w)) as Ho2 by apply Hq.
  destruct (is_buy sd && gtb _ mb).
  { left. rewrite bind_print. cbn [ret snd st]. rewrite placements_cons.
    cbn [placement_of]. rewrite app_nil_r.
    destruct w2 as [s2 v2 f2 l2]. by split. }
  destruct (is_sell sd && ltb _ ms).
  { left. rewrite bind_print. cbn [ret snd st]. rewrite placements_cons.
    cbn [placement_of]. rewrite app_nil_r.
    destruct w2 as [s2 v2 f2 l2]. by split. }
  right. split; [done|].
  destruct (submit_limit_effect w2 sd (p_prec E p0) (q_prec E q0)) as [Hp Ho].
  unfold after in Hp, Ho. rewrite Hp, Hp2, Ho2 in *. by split.
Qed.

Lemma after_bind_ret {A} (m : M (V:=V) A) w : after (bind m (λ _, ret ())) w = after m w.
Proof. unfold after, bind, ret. by destruct (m w) as [[a|e] w1]. Qed.

Lemma replenish_unfold sd p :
  replenish E c sd p
  = if leb (grid_qty c p) 0 then ret ()
    else match replenish_level c sd p with
         | Some n =>
             let* s := get_st in
             if gtb (grid_qty c n) 0 && negb (od_mem n (open_orders s))
             then safe_place E c (opposite sd) n (grid_qty c n) >>> ret ()
             else ret ()
         | None => ret ()
         end.
Proof. by destruct sd. Qed.

Lemma after_bind_get_st {B} (k : state → M (V:=V) B) w :
  after (bind get_st k) w = after (k (st w)) w.
Proof. reflexivity. Qed.

Lemma nothing_placed_refl (w : world V) : nothing_placed w w.
Proof. by split. Qed.

Lemma replenish_effect w sd p :
  (∀ x, x ∈ levels c → p_prec E x = x) →
  (∀ n, replenish_level c sd p = Some n → n ∈ levels c) →
  let w' := after (replenish E c sd p) w in
  (nothing_placed w w' ∨
   ∃ n, replenish_level c sd p = Some n ∧ 0 < grid_qty c n ∧
        od_mem n (open_orders (st w)) = false ∧
        placements w' = placements w
                        ++ [CPlaceLimit (opposite sd) n (q_prec E (grid_qty c n))] ∧
        (open_orders (st w') = open_orders (st w) ∨
         ∃ o, open_orders (st w') = od_set n o (open_orders (st w)))) ∧
  (replenish_level c sd p = None ∨
   (∃ n, replenish_level c sd p = Some n ∧ od_mem n (open_orders (st w)) = true) →
   nothing_placed w w').
Proof.
  intros Hidem Hin. cbv zeta. rewrite replenish_unfold.
  assert (∀ P Q : Prop, (nothing_placed w w ∨ P) ∧ (Q → nothing_placed w w)) as Hnp.
  { intros P Q. split; [left|intros _]; apply nothing_placed_refl. }
  destruct (leb (grid_qty c p) 0); [apply Hnp|].
  destruct (replenish_level c sd p) as [n|] eqn:Hn; [|apply Hnp].
  rewrite after_bind_get_st.
  destruct (gtb (grid_qty c n) 0) eqn:Hq; cbn [andb]; [|apply Hnp].
  destruct (od_mem n (open_orders (st w))) eqn:Hmem; cbn [negb]; [apply Hnp|].
  rewrite after_bind_ret.
  pose proof (safe_place_effect w (opposite sd) n (grid_qty c n)) as Heff. cbv zeta in Heff.
  rewrite (Hidem n (Hin n eq_refl)) in Heff.
  split.
  - destruct Heff as [Heff|(_ & Hp & Ho)]; [by left|]. right. exists n.
    split; [done|]. split; [by apply bool_decide_eq_true in Hq|]. by split.
  - intros [?|(n' & [= <-] & ?)]; congruence.
Qed.

End replenishment.

Section replenishment_rule.
Context {V : Type} (E : Env V) (c : config).

(** The submission of [safe_place]: past the duplicate check, with the
    mark price and the band fetched, an order inside the band is
    submitted. *)
Lemma safe_place_submits w sd p0 q0 px mb ms :
  od_mem (p_prec E p0) (open_orders (st w)) = false →
  result (current_mark_or_mid E c) w = Ok px →
  result (fetch_price_band_cached E c px) (after (current_mark_or_mid E c) w) = Ok (mb, ms) →
  match sd with Buy => p_prec E p0 ≤ mb | Sell => ms ≤ p_prec E p0 | OtherSide _ => True end →
  let w' := after (safe_place E c sd p0 q0) w in
  placements w' = placements w ++ [CPlaceLimit sd (p_prec E p0) (q_prec E q0)] ∧
  (open_orders (st w') = open_orders (st w) ∨
   ∃ o, open_orders (st w') = od_set (p_prec E p0) o (open_orders (st w))).
Proof.
  intros Hmem Hr1 Hr2 Hin. cbv zeta.
  unfold after, safe_place. rewrite bind_get_st, Hmem.
  rewrite (bind_ok _ _ _ _ Hr1), (bind_ok _ _ _ _ Hr2).
  assert (quiet w (after (fetch_price_band_cached E c px) (after (current_mark_or_mid E c) w)))
    as Hq.
  { etrans; [apply (quiet_current_mark_or_mid E c w)|].
    apply (quiet_fetch_price_band_cached E c px). }
  set (w2 := after (fetch_price_band_cached E c px) (after (current_mark_or_mid E c) w)) in *.
  assert (is_buy sd && gtb (p_prec E p0) mb = false) as ->.
  { destruct sd; cbn [is_buy andb]; [|done..]. unfold gtb.
    apply bool_decide_eq_false_2. by apply Qcle_not_lt. }
  assert (is_sell sd && ltb (p_prec E p0) ms = false) as ->.
  { destruct sd; cbn [is_sell andb]; [done| |done]. unfold ltb.
    apply bool_decide_eq_false_2. by apply Qcle_not_lt. }
  destruct (submit_limit_effect E c w2 sd (p_prec E p0) (q_prec E q0)) as [Hp Ho].
  unfold after in Hp, Ho. rewrite Hp, (quiet_placements _ _ Hq).
  split; [done|]. destruct Hq as [Hq _]. by rewrite <- Hq.
Qed.

Lemma replenish_submits w sd p n px mb ms :
  (∀ x, x ∈ levels c → p_prec E x = x) →
  n ∈ levels c →
  replenish_level c sd p = Some n →
  0 < grid_qty c p → 0 < grid_qty c n →
  od_mem n (open_orders (st w)) = false →
  result (current_mark_or_mid E c) w = Ok px →
  result (fetch_price_band_cached E c px) (after (current_mark_or_mid E c) w) = Ok (mb, ms) →
  match sd with Buy => ms ≤ n | _ => n ≤ mb end →
  let w' := after (replenish E c sd p) w in
  placements w' = placements w ++ [CPlaceLimit (opposite sd) n (q_prec E (grid_qty c n))] ∧
  (open_orders (st w') = open_orders (st w) ∨
   ∃ o, open_orders (st w') = od_set n o (open_orders (st w))).
Proof.
  intros Hidem Hin Hn Hqp Hqn Hmem Hr1 Hr2 Hband. cbv zeta. rewrite replenish_unfold.
  assert (leb (grid_qty c p) 0 = false) as ->.
  { unfold leb. apply bool_decide_eq_false_2. by apply Qclt_not_le. }
  rewrite Hn, after_bind_get_st, Hmem.
  assert (gtb (grid_qty c n) 0 = true) as ->.
  { unfold gtb. by apply bool_decide_eq_true_2. }
  cbn [andb negb]. rewrite after_bind_ret.
  pose proof (safe_place_submits w (opposite sd) n (grid_qty c n) px mb ms) as Hs.
  cbv zeta in Hs. rewrite (Hidem n Hin) in Hs.
  apply Hs; [done..|]. by destruct sd.
Qed.

Lemma replenish_skips w sd p n px mb ms :
  (∀ x, x ∈ levels c → p_prec E x = x) →
  n ∈ levels c →
  replenish_level c sd p = Some n →
  result (current_mark_or_mid E c) w = Ok px →
  result (fetch_price_band_cached E c px) (after (current_mark_or_mid E c) w) = Ok (mb, ms) →
  match sd with Buy => n < ms | _ => mb < n end →
  nothing_placed w (after (replenish E c sd p) w).
Proof.
  intros Hidem Hin Hn Hr1 Hr2 Hband. rewrite replenish_unfold.
  destruct (leb (grid_qty c p) 0); [apply nothing_placed_refl|].
  rewrite Hn, after_bind_get_st.
  destruct (gtb (grid_qty c n) 0); cbn [andb]; [|apply nothing_placed_refl].
  destruct (od_mem n (open_orders (st w))) eqn:Hmem; cbn [negb]; [apply nothing_placed_refl|].
  rewrite after_bind_ret.
  destruct (safe_place_skip E c w (opposite sd) n (grid_qty c n) px mb ms) as (Heq & Hp & Ho).
  - by rewrite (Hidem n Hin).
  - done.
  - done.
  - rewrite (Hidem n Hin). destruct sd; [right|left..]; by split.
  - unfold after at 1. rewrite Heq. cbn [snd]. split; cbn [st]; [|done].
    rewrite placements_cons. cbn [placement_of]. by rewrite app_nil_r.
Qed.

(** C2: when an order closes while the first-fill flag is down, a buy at
    [p] is replenished only by a sell at the smallest configured level
    above [p], a sell only by a buy at the largest level below [p]: either
    nothing is submitted and the order book is unchanged, or exactly one
    order is submitted, at that neighbour, on the opposite side, the
    neighbour's configured quantity being positive and no order being open
    there; the order book then gains that one entry (or none, if the venue
    refuses).  Without a neighbour, or with an order already open there,
    nothing is submitted.  The neighbour exists as soon as a level lies
    above [p] (below [p], for a sell).  And the order is submitted when the
    closed level and the neighbour have positive configured quantities, no
    order is open at the neighbour, the mark price and the price band are
    obtained, and the neighbour is inside the band; with a closed level of
    no positive quantity, or a neighbour outside the band, nothing is
    submitted.  The levels are strictly increasing and at the venue's
    precision, as built at construction. *)
Theorem replenishment_rule (w : world V) (sd : side) (p f : Qc) :
  StronglySorted Qclt (levels c) →
  (∀ x, x ∈ levels c → p_prec E x = x) →
  first_fill_ignore (st w) = false →
  sd = Buy ∨ sd = Sell →
  let w' := after (handle_post_close E c sd p f) w in
  (∀ n, replenish_level c sd p = Some n →
     n ∈ levels c ∧
     match sd with
     | Buy => p < n ∧ ∀ x, x ∈ levels c → p < x → n ≤ x
     | _ => n < p ∧ ∀ x, x ∈ levels c → x < p → x ≤ n
     end) ∧
  (nothing_placed w w' ∨
   ∃ n, replenish_level c sd p = Some n ∧ 0 < grid_qty c n ∧
        od_mem n (open_orders (st w)) = false ∧
        placements w' = placements w
                        ++ [CPlaceLimit (opposite sd) n (q_prec E (grid_qty c n))] ∧
        (open_orders (st w') = open_orders (st w) ∨
         ∃ o, open_orders (st w') = od_set n o (open_orders (st w)))) ∧
  (replenish_level c sd p = None ∨
   (∃ n, replenish_level c sd p = Some n ∧ od_mem n (open_orders (st w)) = true) →
   nothing_placed w w') ∧
  (match sd with
   | Buy => ∃ x, x ∈ levels c ∧ p < x
   | _ => ∃ x, x ∈ levels c ∧ x < p
   end → ∃ n, replenish_level c sd p = Some n) ∧
  (∀ n px mb ms,
     replenish_level c sd p = Some n →
     let w0 := after (print (MClosed sd p f)) w in
     result (current_mark_or_mid E c) w0 = Ok px →
     result (fetch_price_band_cached E c px) (after (current_mark_or_mid E c) w0)
     = Ok (mb, ms) →
     (0 < grid_qty c p → 0 < grid_qty c n →
      od_mem n (open_orders (st w)) = false →
      match sd with Buy => ms ≤ n | _ => n ≤ mb end →
      placements w' = placements w
                      ++ [CPlaceLimit (opposite sd) n (q_prec E (grid_qty c n))] ∧
      (open_orders (st w') = open_orders (st w) ∨
       ∃ o, open_orders (st w') = od_set n o (open_orders (st w)))) ∧
     (match sd with Buy => n < ms | _ => mb < n end → nothing_placed w w')) ∧
  (grid_qty c p ≤ 0 → nothing_placed w w').
Proof.
  intros Hsorted Hidem Hflag Hsd w'.
  assert (∀ n, replenish_level c sd p = Some n →
            n ∈ levels c ∧
            match sd with
            | Buy => p < n ∧ ∀ x, x ∈ levels c → p < x → n ≤ x
            | _ => n < p ∧ ∀ x, x ∈ levels c → x < p → x ≤ n
            end) as Hnb.
  { intros n Hn. destruct Hsd as [-> | ->]; simpl in Hn.
    - by apply neighbor_above_least in Hn.
    - by apply neighbor_below_greatest in Hn. }
  split; [exact Hnb|].
  set (w1 := World (st w) (env w) (fs w) ((EvPrint (MClosed sd p f), st w) :: log w)).
  assert (w' = after (replenish E c sd p) w1) as ->.
  { subst w'. unfold after, handle_post_close.
    rewrite bind_print, bind_get_st. cbn [st]. by rewrite Hflag. }
  assert (placements w1 = placements w) as Hp1.
  { subst w1. destruct w as [s v files l]. cbn [st env fs log].
    rewrite placements_cons. cbn [placement_of]. by rewrite app_nil_r. }
  pose proof (replenish_effect E c w1 sd p Hidem (λ n Hn, proj1 (Hnb n Hn))) as Heff.
  cbv zeta in Heff. unfold nothing_placed in *. rewrite Hp1 in Heff.
  destruct Heff as [Heff1 Heff2].
  split; [exact Heff1|]. split; [exact Heff2|]. split; [|split].
  - destruct Hsd as [-> | ->]; intros (x & Hx & Hlt); cbn [replenish_level].
    + destruct (neighbor_above_exists c p x Hx Hlt) as [n Hn]. by exists n.
    + destruct (neighbor_below_exists c p x Hx Hlt) as [n Hn]. by exists n.
  - intros n px mb ms Hn Hr1 Hr2.
    change (after (print (MClosed sd p f)) w) with w1 in Hr1, Hr2. split.
    + intros Hqp Hqn Hmem Hband.
      pose proof (replenish_submits w1 sd p n px mb ms Hidem (proj1 (Hnb n Hn)) Hn Hqp Hqn
                    Hmem Hr1 Hr2 Hband) as Hs.
      cbv zeta in Hs. rewrite Hp1 in Hs. exact Hs.
    + intros Hband.
      pose proof (replenish_skips w1 sd p n px mb ms Hidem (proj1 (Hnb n Hn)) Hn
                    Hr1 Hr2 Hband) as Hs.
      unfold nothing_placed in Hs. rewrite Hp1 in Hs. exact Hs.
  - intros Hq. rewrite replenish_unfold.
    assert (leb (grid_qty c p) 0 = true) as ->.
    { unfold leb. by apply bool_decide_eq_true_2. }
    split; [exact Hp1|reflexivity].
Qed.
End replenishment_rule.

(** An instance of [replenishment_rule]: levels 100, 105, 110 with orders
    open at 100 and 110.  When the buy at 100 closes, a sell is submitted
    at 105, the smallest level above 100; when instead the sell at 110
    closes, a buy is submitted at 105, the largest level below 110. *)
Lemma replenishment_rule_witness :
  let E := test_env false in
  let c := test_config false in
  let w := after (exec E c OpInit) (test_world false) in
  (StronglySorted Qclt (levels c) ∧ (∀ x, x ∈ levels c → p_prec E x = x) ∧
   first_fill_ignore (st w) = false) ∧
  (replenish_level c Buy (qint 100) = Some (qint 105) ∧
   placements (after (handle_post_close E c Buy (qint 100) 1) w)
   = placements w ++ [CPlaceLimit Sell (qint 105) 1] ∧
   (∀ x, x ∈ levels c → qint 100 < x → qint 105 ≤ x)) ∧
  (replenish_level c Sell (qint 110) = Some (qint 105) ∧
   placements (after (handle_post_close E c Sell (qint 110) 1) w)
   = placements w ++ [CPlaceLimit Buy (qint 105) 1] ∧
   (∀ x, x ∈ levels c → x < qint 110 → x ≤ qint 105)).
Proof.
  intros E c w.
  assert (StronglySorted Qclt (levels c)) as H1 by apply make_config_levels_sorted.
  assert (∀ x, x ∈ levels c → p_prec E x = x) as H2 by (intros x _; reflexivity).
  assert (first_fill_ignore (st w) = false) as H3 by by_eval.
  assert (od_mem (qint 105) (open_orders (st w)) = false) as Hfree by by_eval.
  assert (0 < grid_qty c (qint 105)) as Hq105 by by_eval.
  split; [exact (conj H1 (conj H2 H3))|]. split.
  - destruct (replenishment_rule E c w Buy (qint 100) 1 H1 H2 H3 (or_introl eq_refl))
      as (Hnb & _ & _ & Hex & Hlive & _).
    assert (∃ x, x ∈ levels c ∧ qint 100 < x) as Habove.
    { exists (qint 110). split; by_eval. }
    destruct (Hex Habove) as [n Hn].
    assert (n = qint 105) as ->.
    { assert (replenish_level c Buy (qint 100) = Some (qint 105)) as Hn' by by_eval.
      congruence. }
    split; [exact Hn|].
    destruct (Hnb _ Hn) as (_ & _ & Hleast). split; [|exact Hleast].
    assert (result (current_mark_or_mid E c)
              (after (print (MClosed Buy (qint 100) 1)) w) = Ok (qint 105)) as Hr1 by by_eval.
    assert (result (fetch_price_band_cached E c (qint 105))
              (after (current_mark_or_mid E c) (after (print (MClosed Buy (qint 100) 1)) w))
            = Ok (qint 200, qint 50)) as Hr2 by by_eval.
    destruct (Hlive (qint 105) (qint 105) (qint 200) (qint 50) Hn Hr1 Hr2) as [Hsub _].
    assert (0 < grid_qty c (qint 100)) as Hq100 by by_eval.
    assert (qint 50 ≤ qint 105) as Hband by by_eval.
    destruct (Hsub Hq100 Hq105 Hfree Hband) as [Hp _].
    assert (q_prec E (grid_qty c (qint 105)) = 1) as Hqty by by_eval.
    rewrite Hqty in Hp. exact Hp.
  - destruct (replenishment_rule E c w Sell (qint 110) 1 H1 H2 H3 (or_intror eq_refl))
      as (Hnb & _ & _ & Hex & Hlive & _).
    assert (∃ x, x ∈ levels c ∧ x < qint 110) as Hbelow.
    { exists (qint 100). split; by_eval. }
    destruct (Hex Hbelow) as [n Hn].
    assert (n = qint 105) as ->.
    { assert (replenish_level c Sell (qint 110) = Some (qint 105)) as Hn' by by_eval.
      congruence. }
    split; [exact Hn|].
    destruct (Hnb _ Hn) as (_ & _ & Hmost). split; [|exact Hmost].
    assert (result (current_mark_or_mid E c)
              (after (print (MClosed Sell (qint 110) 1)) w) = Ok (qint 105)) as Hr1 by by_eval.
    assert (result (fetch_price_band_cached E c (qint 105))
              (after (current_mark_or_mid E c) (after (print (MClosed Sell (qint 110) 1)) w))
            = Ok (qint 200, qint 50)) as Hr2 by by_eval.
    destruct (Hlive (qint 105) (qint 105) (qint 200) (qint 50) Hn Hr1 Hr2) as [Hsub _].
    assert (0 < grid_qty c (qint 110)) as Hq110 by by_eval.
    assert (qint 105 ≤ qint 200) as Hband by by_eval.
    destruct (Hsub Hq110 Hq105 Hfree Hband) as [Hp _].
    assert (q_prec E (grid_qty c (qint 105)) = 1) as Hqty by by_eval.
    rewrite Hqty in Hp. exact Hp.
Defined.

(** ** The command queue is read once and emptied *)

Section queue_drained.
Context {V : Type} (E : Env V) (c : config).

#[local] Instance same_fs_preorder : PreOrder (same_fs (V:=V)).
Proof.
  split; [by intros w|]. intros w1 w2 w3 H1 H2. unfold same_fs in *. congruence.
Qed.

Lemma fs_modify (f : state → state) : rel (V:=V) same_fs (modify f).
Proof. by intros w. Qed.

Lemma fs_print (m : msg) : rel (V:=V) same_fs (print m).
Proof. by intros w. Qed.

Lemma fs_venue {A} (cl : call) (f : V → res A * V) : rel same_fs (venue cl f).
Proof. intros w. unfold after, venue. by destruct (f (env w)). Qed.

Lemma fs_ask {A} (f : V → res A * V) : rel same_fs (ask f).
Proof. intros w. unfold after, ask. by destruct (f (env w)). Qed.

Lemma fs_query {A} (f : V → A * V) : rel same_fs (query f).
Proof. intros w. unfold after, query. by destruct (f (env w)). Qed.

Lemma fs_py_float v : rel same_fs (py_float E v).
Proof. by intros w. Qed.

Ltac fs_auto :=
  repeat first
    [ rel_step
    | apply fs_modify | apply fs_print | apply fs_venue | apply fs_ask | apply fs_query
    | apply fs_py_float
    | solve [eauto] ].

(** No command touches a file. *)
Lemma fs_process_line ln : rel same_fs (process_line E c ln).
Proof.
  unfold process_line, run_command, cancel_all_open_orders, safe_cancel_by_price,
    try_cancel, cmd_place_limit, submit_command_limit, cmd_restore_level, safe_place,
    submit_limit, current_mark_or_mid, mid_or_last, fetch_price_band_cached,
    refresh_band, read_band, sleep, field.
  fs_auto.
Qed.

(** A line that is not JSON is passed over. *)
Lemma process_line_malformed ln w :
  json_loads E ln = None → process_line E c ln w = (Ok (), w).
Proof. intros H. unfold process_line. by rewrite H. Qed.

Lemma read_stripped_lines_ok p w txt v1 :
  fs w !! fkey p = Some txt → io_fault E (env w) = (None, v1) →
  read_stripped_lines E p w
  = (Ok (filter (λ ln, ln ≠ ""%string) (py_strip <$> split_lines txt)),
     World (st w) v1 (fs w) (log w)).
Proof.
  intros Hfile Hf. unfold read_stripped_lines, fs_fault, bind, query, get_fs, ret.
  rewrite Hf. cbn [fs]. by rewrite Hfile.
Qed.

Lemma truncate_file_ok p w v1 :
  io_fault E (env w) = (None, v1) →
  truncate_file E p w
  = (Ok (), World (st w) v1 (<[fkey p := ""%string]> (fs w)) (log w)).
Proof.
  intros Hf. unfold truncate_file, fs_fault, bind, query, get_fs, put_fs, ret.
  by rewrite Hf.
Qed.

(** When the queue file exists and can be read and truncated, it is empty
    after [process_commands], whatever the commands did: a line is handed
    to the engine at most once. *)
Lemma process_commands_empties_queue w txt v1 v2 :
  fs w !! fkey (COMMANDS_PATH c) = Some txt →
  io_fault E (env w) = (None, v1) →
  io_fault E v1 = (None, v2) →
  fs (after (process_commands E c) w) !! fkey (COMMANDS_PATH c) = Some ""%string.
Proof.
  intros Hfile Hf1 Hf2.
  pose proof (read_stripped_lines_ok (COMMANDS_PATH c) w txt v1 Hfile Hf1) as Hread.
  set (w1 := World (st w) v1 (fs w) (log w)) in *.
  pose proof (truncate_file_ok (COMMANDS_PATH c) w1 v2 Hf2) as Htrunc.
  set (w2 := World (st w1) v2 (<[fkey (COMMANDS_PATH c) := ""%string]> (fs w1)) (log w1)) in *.
  set (ls := filter (λ ln, ln ≠ ""%string) (py_strip <$> split_lines txt)) in *.
  pose proof (rel_for_each same_fs ls (process_line E c) fs_process_line w2) as Hfs.
  unfold same_fs, after in Hfs.
  assert (fs w2 !! fkey (COMMANDS_PATH c) = Some ""%string) as H2
    by apply lookup_insert_eq.
  unfold after, process_commands, try_except.
  unfold bind at 1. unfold get_fs at 1. rewrite Hfile.
  unfold bind at 1. rewrite Hread.
  unfold bind at 1. rewrite Htrunc.
  destruct (for_each ls (process_line E c) w2) as [[[]|e] w3]; cbn [snd] in *.
  - by rewrite Hfs.
  - destruct (is_Exception e); cbn [print emit snd fs]; by rewrite Hfs.
Qed.
End queue_drained.

(** * Further properties of the engine and the launcher *)

(** ** The reference price ([current_mark_or_mid]) *)

Section reference_price.
Context {V : Type} (E : Env V) (c : config).

Lemma mid_or_last_outcome tk w :
  (∃ y, result (mid_or_last E c tk) w = Ok (p_prec E y)) ∨
  (∃ e, result (mid_or_last E c tk) w = Raise e ∧
        fetch_order_book E (env w) = (Raise e, (fetch_order_book E (env w)).2)).
Proof.
  unfold result, mid_or_last, bind, venue.
  destruct (fetch_order_book E (env w)) as [[ob|e] v1]; cbn [fst snd].
  - left. destruct (ob_bids ob) as [|[b ?] ?], (ob_asks ob) as [|[a ?] ?];
      cbn [ret fst]; by eexists.
  - right. by exists e.
Qed.

Lemma same_st_current_mark_or_mid w :
  st (after (current_mark_or_mid E c) w) = st w ∧
  fs (after (current_mark_or_mid E c) w) = fs w.
Proof.
  unfold after, current_mark_or_mid, try_except, bind, venue, mid_or_last.
  destruct (fetch_ticker E (env w)) as [[tk|e] v1]; cbn [fst snd st env fs log].
  2:{ by destruct (is_Exception e). }
  assert (∀ w1 : world V, st w1 = st w → fs w1 = fs w →
     let r := (let* ob := venue CFetchOrderBook (fetch_order_book E) in
               match ob_bids ob, ob_asks ob with
               | (b, _) :: _, (a, _) :: _ => ret (p_prec E ((b + a) / 2))
               | _, _ =>
                   ret (p_prec E (match tk_last tk with
                                  | Some l => if bool_decide (l = 0) then entry_price c else l
                                  | None => entry_price c
                                  end))
               end) w1 in
     st (match r with
         | (Ok a, w') => (Ok a, w')
         | (Raise e, w') => if is_Exception e then ret (entry_price c) w' else (Raise e, w')
         end).2 = st w ∧
     fs (match r with
         | (Ok a, w') => (Ok a, w')
         | (Raise e, w') => if is_Exception e then ret (entry_price c) w' else (Raise e, w')
         end).2 = fs w) as Hmid.
  { intros w1 Hs Hf. unfold bind, venue.
    destruct (fetch_order_book E (env w1)) as [[ob|e] v2]; cbn [fst snd st env fs log].
    - by destruct (ob_bids ob) as [|[b ?] ?], (ob_asks ob) as [|[a ?] ?].
    - by destruct (is_Exception e). }
  destruct (tk_markPx tk) as [mark|].
  - case_bool_decide; [by apply Hmid|done].
  - by apply Hmid.
Qed.

(** X3: [current_mark_or_mid] cannot fail with an [Exception]: it returns a
    price, which is either the configured entry price or a value rounded by
    [p_prec]; only [KeyboardInterrupt] passes through.  It changes neither
    the engine's attributes nor the files. *)
Theorem current_mark_or_mid_never_fails (w : world V) :
  let w' := after (current_mark_or_mid E c) w in
  ((∃ px, result (current_mark_or_mid E c) w = Ok px ∧
          (px = entry_price c ∨ ∃ y, px = p_prec E y)) ∨
   result (current_mark_or_mid E c) w = Raise KeyboardInterrupt) ∧
  st w' = st w ∧ fs w' = fs w.
Proof.
  intros w'. split; [|apply same_st_current_mark_or_mid].
  assert (∀ r : res Qc * world V,
            ((∃ y, r.1 = Ok (p_prec E y)) ∨ (∃ e, r.1 = Raise e)) →
            ∃ r', (match r with
                   | (Ok a, w1) => (Ok a, w1)
                   | (Raise e, w1) =>
                       if is_Exception e then ret (entry_price c) w1 else (Raise e, w1)
                   end).1 = r' ∧
                  ((∃ px, r' = Ok px ∧ (px = entry_price c ∨ ∃ y, px = p_prec E y)) ∨
                   r' = Raise KeyboardInterrupt)) as Hwrap.
  { intros [[a|e] w1] Hr; cbn [fst] in *.
    - destruct Hr as [[y Hy]|[e He]]; [|done]. eexists. split; [reflexivity|].
      left. exists a. split; [done|]. right. exists y. congruence.
    - destruct e; cbn [is_Exception ret fst]; eexists; (split; [reflexivity|]);
        first [by right | left; eexists; split; [reflexivity|by left]]. }
  cut (∃ r', result (current_mark_or_mid E c) w = r' ∧
             ((∃ px, r' = Ok px ∧ (px = entry_price c ∨ ∃ y, px = p_prec E y)) ∨
              r' = Raise KeyboardInterrupt)).
  { intros (r' & -> & Hr'). exact Hr'. }
  unfold result, current_mark_or_mid, try_except, bind at 1, venue.
  destruct (fetch_ticker E (env w)) as [[tk|e] v1].
  2:{ apply (Hwrap (Raise e, _)). right. by exists e. }
  set (w1 := World (st w) v1 (fs w) ((EvCall CFetchTicker, st w) :: log w)).
  assert ((∃ y, (mid_or_last E c tk w1).1 = Ok (p_prec E y)) ∨
          (∃ e, (mid_or_last E c tk w1).1 = Raise e)) as Hmid.
  { destruct (mid_or_last_outcome tk w1) as [?|[e [? _]]]; [by left|right; by exists e]. }
  destruct (tk_markPx tk) as [mark|]; [|by apply Hwrap].
  case_bool_decide; [by apply Hwrap|].
  apply (Hwrap (ret (p_prec E mark) w1)). left. by exists mark.
Qed.

(** X4: when the mark price is unusable and the order book cannot be
    fetched, the ticker's last price is not consulted: the result is the
    configured entry price, as it was given (not rounded). *)
Theorem order_book_failure_gives_entry_price (w : world V) (tk : ticker) (v1 v2 : V) (e : exn) :
  fetch_ticker E (env w) = (Ok tk, v1) →
  tk_markPx tk = None ∨ tk_markPx tk = Some 0 →
  fetch_order_book E v1 = (Raise e, v2) →
  is_Exception e = true →
  result (current_mark_or_mid E c) w = Ok (entry_price c) ∧
  calls (after (current_mark_or_mid E c) w) = calls w ++ [CFetchTicker; CFetchOrderBook].
Proof.
  intros Htk Hmark Hob He.
  assert (current_mark_or_mid E c w
          = (Ok (entry_price c),
             World (st w) v2 (fs w)
               ((EvCall CFetchOrderBook, st w) :: (EvCall CFetchTicker, st w) :: log w)))
    as Hrun.
  { unfold current_mark_or_mid, try_except, bind at 1, venue.
    rewrite Htk.
    assert (mid_or_last E c tk (World (st w) v1 (fs w) ((EvCall CFetchTicker, st w) :: log w))
            = (Raise e, World (st w) v2 (fs w)
                 ((EvCall CFetchOrderBook, st w) :: (EvCall CFetchTicker, st w) :: log w)))
      as Hmid.
    { unfold mid_or_last, bind, venue. cbn [env st fs log]. by rewrite Hob. }
    assert ((if bool_decide (0 = 0) then mid_or_last E c tk else ret (p_prec E 0))
            = mid_or_last E c tk) as H0 by by case_bool_decide.
    destruct Hmark as [-> | ->]; rewrite ?H0, Hmid, He; reflexivity. }
  unfold result, after. rewrite Hrun. cbn [fst snd]. split; [done|].
  destruct w as [s v files l]. cbn [st env fs log].
  rewrite !calls_cons_call. by rewrite <- app_assoc.
Qed.
End reference_price.

(** ** The price band ([fetch_price_band_cached]) *)

Section price_band.
Context {V : Type} (E : Env V) (c : config).

Lemma cache_hit w fb b :
  band_cache (st w) = Some b →
  (time_time E (env w)).1 - band_ts (st w) < band_ttl c →
  fetch_price_band_cached E c fb w
  = (Ok b, World (st w) (time_time E (env w)).2 (fs w) (log w)).
Proof.
  intros Hc Ht. unfold fetch_price_band_cached.
  rewrite bind_query, bind_get_st. cbn [st]. rewrite Hc.
  unfold ltb. by rewrite bool_decide_eq_true_2.
Qed.

(** X5: a band that [fetch_price_band_cached] returned is served again,
    without contacting the venue and without touching the engine's
    attributes, as long as the clock is within [band_ttl] of the cache's
    time stamp. *)
Theorem band_reused_within_ttl (w : world V) (fb fb' : Qc) (b : Qc * Qc) :
  let w1 := after (fetch_price_band_cached E c fb) w in
  let w2 := after (fetch_price_band_cached E c fb') w1 in
  result (fetch_price_band_cached E c fb) w = Ok b →
  (time_time E (env w1)).1 - band_ts (st w1) < band_ttl c →
  result (fetch_price_band_cached E c fb') w1 = Ok b ∧
  st w2 = st w1 ∧ calls w2 = calls w1.
Proof.
  intros w1 w2 Hr Ht.
  pose proof (fetch_price_band_cached_ok E c fb w b Hr) as Hc. fold w1 in Hc.
  pose proof (cache_hit w1 fb' b Hc Ht) as Hrun.
  subst w2. unfold result, after. rewrite Hrun. cbn [fst snd st]. by split.
Qed.

Lemma refresh_band_fallback now fb (w : world V) :
  (mkt_id c = None ∨
   ∃ i, mkt_id c = Some i ∧ unusable_limits (public_price_limit E i (env w)).1) →
  ∃ v' l',
    refresh_band E c now fb w
    = (Ok (), World (set_band_ts now
                       (set_band_cache
                          (Some (p_prec E (p_prec E fb * qfrac 102 100),
                                 p_prec E (p_prec E fb * qfrac 98 100))) (st w)))
                v' (fs w) l').
Proof.
  intros Hbad. unfold refresh_band, try_finally, try_except.
  destruct Hbad as [Hid|(i & Hid & Hbad)]; rewrite Hid.
  { unfold bind at 1, raise. cbn [is_Exception]. by eexists _, _. }
  unfold bind at 1, ret at 1. unfold bind, venue.
  destruct (public_price_limit E i (env w)) as [[[|row rows]|e] v1]; cbn [fst] in Hbad.
  - unfold raise. cbn [is_Exception]. by eexists _, _.
  - destruct Hbad as [Hb|Hs].
    + rewrite Hb. unfold raise. cbn [is_Exception]. by eexists _, _.
    + rewrite Hs. destruct (buyLmt row); unfold raise; cbn [is_Exception]; by eexists _, _.
  - rewrite Hbad. by eexists _, _.
Qed.

(** X6: when the cache is empty or older than [band_ttl] and the venue's
    price limits cannot be obtained (the market has no id, the call fails,
    the reply is empty or a limit is unreadable), the band becomes the
    fallback price plus and minus two percent, each rounded by [p_prec]; it
    replaces whatever was cached, and the cache is stamped with the time
    read at the start of the call. *)
Theorem band_falls_back_to_two_percent (w : world V) (fb : Qc) :
  let now := (time_time E (env w)).1 in
  let v1 := (time_time E (env w)).2 in
  let w' := after (fetch_price_band_cached E c fb) w in
  let band := (p_prec E (p_prec E fb * qfrac 102 100), p_prec E (p_prec E fb * qfrac 98 100)) in
  (band_cache (st w) = None ∨ band_ttl c ≤ now - band_ts (st w)) →
  (mkt_id c = None ∨ ∃ i, mkt_id c = Some i ∧ unusable_limits (public_price_limit E i v1).1) →
  result (fetch_price_band_cached E c fb) w = Ok band ∧
  band_cache (st w') = Some band ∧ band_ts (st w') = now.
Proof.
  intros now v1 w' band Hmiss Hbad.
  set (w1 := World (st w) v1 (fs w) (log w)).
  destruct (refresh_band_fallback now fb w1 Hbad) as (v' & l' & Href).
  assert (fetch_price_band_cached E c fb w
          = bind (refresh_band E c now fb) (λ _, read_band) w1) as Hrun.
  { unfold fetch_price_band_cached. rewrite bind_query, bind_get_st. cbn [st].
    fold now v1 w1. destruct (band_cache (st w)) as [b0|] eqn:Hc; [|done].
    destruct Hmiss as [?|Hold]; [done|].
    unfold ltb. rewrite bool_decide_eq_false_2; [done|]. by apply Qcle_not_lt. }
  assert (bind (refresh_band E c now fb) (λ _, read_band) w1
          = (Ok band, World (set_band_ts now (set_band_cache (Some band) (st w))) v' (fs w) l'))
    as Hfull.
  { unfold bind at 1. rewrite Href. unfold read_band. by rewrite bind_get_st. }
  subst w'. unfold result, after. rewrite Hrun, Hfull. by cbn.
Qed.
End price_band.

(** ** Cancelling *)

Section odict_more.
Context {K A : Type} `{EqDecision K}.

Lemma od_del_absent (k : K) (d : list (K * A)) : od_get k d = None → od_del k d = d.
Proof.
  induction d as [|[k' v] d IH]; simpl; [done|].
  destruct (decide (k' = k)); [done|]. intros H. by rewrite IH.
Qed.

Lemma od_get_del_NoDup (k : K) (d : list (K * A)) :
  NoDup (od_keys d) → od_get k (od_del k d) = None.
Proof.
  induction d as [|[k' v] d IH]; simpl; [done|].
  intros [Hk Hd]%NoDup_cons. destruct (decide (k' = k)) as [->|Hne].
  - by apply od_get_None.
  - simpl. rewrite decide_False by done. by apply IH.
Qed.

Lemma od_del_head (k : K) (v : A) (d : list (K * A)) : od_del k ((k, v) :: d) = d.
Proof. simpl. by rewrite decide_True. Qed.
End odict_more.

Section cancelling.
Context {V : Type} (E : Env V).

Lemma try_cancel_run o (w : world V) :
  let r := cancel_order E o (env w) in
  let w1 := World (st w) r.2 (fs w) ((EvCall (CCancelOrder o), st w) :: log w) in
  try_cancel E o w
  = match r.1 with
    | Ok _ => (Ok (), w1)
    | Raise e =>
        if is_Exception e
        then (Ok (), World (st w) r.2 (fs w) ((EvPrint (MCancelErr o e), st w) :: log w1))
        else (Raise e, w1)
    end.
Proof.
  unfold try_cancel, try_except, venue.
  destruct (cancel_order E o (env w)) as [[[]|e] v1]; cbn [fst snd]; [done|].
  by destruct (is_Exception e).
Qed.

(** What one cancel attempt leaves behind: the call is logged, the engine's
    attributes are untouched, and a refusal by the venue is swallowed. *)
Lemma try_cancel_effect o (w : world V) :
  let w' := after (try_cancel E o) w in
  st w' = st w ∧ fs w' = fs w ∧ calls w' = calls w ++ [CCancelOrder o] ∧
  (result (try_cancel E o) w = Ok () ∨
   result (try_cancel E o) w = Raise KeyboardInterrupt) ∧
  ((cancel_order E o (env w)).1 ≠ Raise KeyboardInterrupt →
   result (try_cancel E o) w = Ok ()).
Proof.
  unfold after, result. rewrite try_cancel_run.
  destruct w as [s v files l]. cbn [st env fs log].
  destruct (cancel_order E o v) as [[[]|e] v1]; cbn [fst snd st fs].
  - rewrite calls_cons_call. repeat split; auto.
  - destruct e; cbn [is_Exception fst snd st fs];
      rewrite ?calls_cons_print, calls_cons_call; repeat split; auto; done.
Qed.

(** X7: [safe_cancel_by_price] forgets the order at the rounded price
    whatever the venue answers.  Without an order there nothing happens and
    the venue is not contacted.  With one, its entry leaves [open_orders]
    before the venue is asked, one cancel call is made, and unless that
    call is interrupted from the keyboard the entry of [order_meta] goes
    too and the result is [True], also when the venue refused the cancel. *)
Theorem cancel_by_price_forgets_order (w : world V) (price : Qc) :
  NoDup (od_keys (open_orders (st w))) →
  let p := p_prec E price in
  let w' := after (safe_cancel_by_price E price) w in
  od_mem p (open_orders (st w')) = false ∧
  match od_get p (open_orders (st w)) with
  | None => safe_cancel_by_price E price w = (Ok false, w)
  | Some o =>
      o ≠ ""%string →
      open_orders (st w') = od_del p (open_orders (st w)) ∧
      calls w' = calls w ++ [CCancelOrder o] ∧
      ((cancel_order E o (env w)).1 ≠ Raise KeyboardInterrupt →
       result (safe_cancel_by_price E price) w = Ok true ∧
       order_meta (st w') = od_del o (order_meta (st w)))
  end.
Proof.
  intros Hnd p w'.
  assert (od_mem p (open_orders (st w')) = false ∧
          (od_get p (open_orders (st w)) = None →
           safe_cancel_by_price E price w = (Ok false, w)) ∧
          (∀ o, od_get p (open_orders (st w)) = Some o → o ≠ ""%string →
             open_orders (st w') = od_del p (open_orders (st w)) ∧
             calls w' = calls w ++ [CCancelOrder o] ∧
             ((cancel_order E o (env w)).1 ≠ Raise KeyboardInterrupt →
              result (safe_cancel_by_price E price) w = Ok true ∧
              order_meta (st w') = od_del o (order_meta (st w))))) as (H1 & H2 & H3).
  2:{ split; [exact H1|]. destruct (od_get p (open_orders (st w))) as [o|]; auto. }
  assert (∀ o : oid, od_get p (od_del p (open_orders (st w))) = None) as Hgone
    by (intros _; by apply od_get_del_NoDup).
  subst w'. destruct w as [s v files l]. cbn [st env fs log] in *.
  unfold after, result, safe_cancel_by_price, try_cancel, try_except, bind, venue, modify,
    print, emit, ret, get_st, od_mem.
  fold p. cbn [st env fs log].
  destruct (od_get p (open_orders s)) as [o|] eqn:Hget.
  - case_bool_decide as Ho; cbn [fst snd st env fs log open_orders set_open_orders].
    { rewrite (Hgone o). split; [done|]. split; [done|]. by intros o' [= <-] Hne. }
    destruct (cancel_order E o v) as [[[]|e] v1] eqn:Hc; cbn [fst snd st env fs log].
    + cbn [set_order_meta set_open_orders open_orders order_meta].
      rewrite (Hgone o). split; [done|]. split; [done|]. intros o' [= <-] _.
      split; [done|]. rewrite calls_cons_print, calls_cons_call.
      split; [|done]. by rewrite (calls_log _ s v1 v1 files files).
    + destruct e; cbn [is_Exception fst snd st env fs log set_order_meta set_open_orders
                         open_orders order_meta];
        rewrite (Hgone o); (split; [done|]); (split; [done|]); intros o' [= <-] _;
        (split; [done|]); rewrite ?calls_cons_print, calls_cons_call;
        (split; [by rewrite (calls_log _ s v1 v1 files files)|]); try done.
      intros Hne. exfalso. apply Hne. by rewrite Hc.
  - cbn [fst snd st env fs log open_orders set_open_orders].
    rewrite (od_del_absent _ _ Hget), Hget. split; [done|]. split; [|done].
    intros _. by destruct s.
Qed.

Lemma od_get_del_ne {K A} `{EqDecision K} (k k' : K) (d : list (K * A)) :
  k ≠ k' → od_get k' (od_del k d) = od_get k' d.
Proof.
  intros Hne. induction d as [|[k0 v0] d IH]; simpl; [done|].
  destruct (decide (k0 = k)) as [->|Hk].
  - by rewrite decide_False.
  - simpl. by rewrite IH.
Qed.

(** The loop of [cancel_all_open_orders] over a copy [l] of the order book,
    started while the order book still is [l]. *)
Lemma cancel_loop l (w : world V) :
  open_orders (st w) = l →
  let m := for_each l (λ '(p, o),
             try_cancel E o >>>
             modify (λ s, set_order_meta (od_del o (order_meta s)) s) >>>
             modify (λ s, set_open_orders (od_del p (open_orders s)) s)) in
  (result m w = Ok () ∨ result m w = Raise KeyboardInterrupt) ∧
  (result m w = Ok () →
   open_orders (st (after m w)) = [] ∧
   order_meta (st (after m w)) = foldl (λ d o, od_del o d) (order_meta (st w)) l.*2 ∧
   calls (after m w) = calls w ++ (CCancelOrder <$> l.*2)) ∧
  ((∀ o v, (cancel_order E o v).1 ≠ Raise KeyboardInterrupt) → result m w = Ok ()).
Proof.
  revert w. induction l as [|[p o] l IH]; intros w Hl m.
  { subst m. cbn. rewrite app_nil_r. repeat split; auto. }
  subst m. set (body := λ '(p, o), _) in *.
  change (for_each ((p, o) :: l) body) with (bind (body (p, o)) (λ _, for_each l body)).
  destruct (try_cancel_effect o w) as (Hst & Hfs & Hcalls & Hres & Hok).
  destruct Hres as [Hres|Hres].
  2:{ assert (result (body (p, o)) w = Raise KeyboardInterrupt) as Hb.
      { unfold body, result. by rewrite (bind_raise _ _ _ _ Hres). }
      unfold result at 1 2 3. rewrite (bind_raise _ _ _ _ Hb). cbn [fst].
      split; [by right|]. split; [done|]. intros Hne. exfalso.
      specialize (Hok (Hne _ _)). congruence. }
  set (w1 := after (try_cancel E o) w) in *.
  set (w2 := World (set_open_orders (od_del p (open_orders (st w1)))
                      (set_order_meta (od_del o (order_meta (st w1))) (st w1)))
                (env w1) (fs w1) (log w1)).
  assert (body (p, o) w = (Ok (), w2)) as Hb.
  { unfold body. by rewrite (bind_ok _ _ _ _ Hres). }
  assert (open_orders (st w2) = l) as Hl2.
  { subst w2. cbn. rewrite Hst, Hl. apply od_del_head. }
  destruct (IH w2 Hl2) as (IH1 & IH2 & IH3).
  unfold result, after in *. unfold bind at 1 2 3 4 5 6 7. rewrite Hb.
  split; [exact IH1|]. split; [|exact IH3].
  intros Hr. destruct (IH2 Hr) as (Ho & Hm & Hc). split; [exact Ho|]. split.
  - rewrite Hm. subst w2. cbn. by rewrite Hst.
  - rewrite Hc, !fmap_cons, cons_middle, app_assoc. cbn [snd]. f_equal.
    subst w2. destruct w1 as [s1 v1 f1 l1]. cbn [st env fs log] in *.
    rewrite (calls_log _ s1 v1 v1 f1 f1). exact Hcalls.
Qed.

(** X8: [cancel_all_open_orders] asks the venue to cancel every open order
    once, in the order the orders were opened, and unless it is interrupted
    from the keyboard it returns with an empty order book, also when the
    venue refused some or all of the cancels; the entries of [order_meta]
    that remain are those of orders that were not open. *)
Theorem cancel_all_empties_order_book (w : world V) :
  NoDup (od_keys (order_meta (st w))) →
  let w' := after (cancel_all_open_orders E) w in
  let oids := (open_orders (st w)).*2 in
  (result (cancel_all_open_orders E) w = Ok () ∨
   result (cancel_all_open_orders E) w = Raise KeyboardInterrupt) ∧
  ((∀ o v, (cancel_order E o v).1 ≠ Raise KeyboardInterrupt) →
   result (cancel_all_open_orders E) w = Ok ()) ∧
  (result (cancel_all_open_orders E) w = Ok () →
   open_orders (st w') = [] ∧
   calls w' = calls w ++ (CCancelOrder <$> oids) ∧
   ∀ o m, od_get o (order_meta (st w')) = Some m ↔
          od_get o (order_meta (st w)) = Some m ∧ o ∉ oids).
Proof.
  intros Hnd w' oids.
  destruct (cancel_loop (open_orders (st w)) w eq_refl) as (H1 & H2 & H3).
  set (loop := for_each _ _) in *.
  assert (cancel_all_open_orders E w
          = match loop w with
            | (Ok _, w1) =>
                (Ok (), World (st w1) (env w1) (fs w1) ((EvPrint MCanceledAll, st w1) :: log w1))
            | (Raise e, w1) => (Raise e, w1)
            end) as Hrun.
  { unfold cancel_all_open_orders. rewrite bind_get_st. unfold bind at 1. fold loop.
    by destruct (loop w) as [[[]|e] w1]. }
  subst w'. unfold result, after in *. rewrite Hrun.
  destruct (loop w) as [[[]|e] w1]; cbn [fst snd] in *.
  - split; [by left|]. split; [done|]. intros _.
    destruct (H2 eq_refl) as (Ho & Hm & Hc). cbn [st]. split; [exact Ho|]. split.
    + destruct w1 as [s1 v1 f1 l1]. cbn [st env fs log] in *. by rewrite calls_cons_print.
    + rewrite Hm. fold oids. clear -Hnd. revert Hnd.
      generalize (order_meta (st w)). induction oids as [|o' os IH]; intros d Hnd o m; cbn.
      * rewrite elem_of_nil. intuition.
      * rewrite IH by by apply NoDup_od_del. rewrite not_elem_of_cons.
        destruct (decide (o' = o)) as [->|Hne].
        -- rewrite od_get_del_NoDup by done. intuition; done.
        -- rewrite od_get_del_ne by done. intuition; congruence.
  - split; [exact H1|]. split; [exact H3|]. intros H. destruct H1; congruence.
Qed.
End cancelling.

(** ** Methods that contain the failures of the venue and of the files *)

Section contained_rules.
Context {V : Type}.
Local Abbreviation M := (M (V:=V)).

Lemma contained_ret {A} (a : A) : contained (V:=V) (ret a).
Proof. intros w e. unfold result, ret. cbn. done. Qed.

Lemma contained_get_st : contained (V:=V) get_st.
Proof. intros w e. unfold result, get_st. cbn. done. Qed.

Lemma contained_get_fs : contained (V:=V) get_fs.
Proof. intros w e. unfold result, get_fs. cbn. done. Qed.

Lemma contained_modify f : contained (V:=V) (modify f).
Proof. intros w e. unfold result, modify. cbn. done. Qed.

Lemma contained_print m : contained (V:=V) (print m).
Proof. intros w e. unfold result, print, emit. cbn. done. Qed.

Lemma contained_put_fs f : contained (V:=V) (put_fs f).
Proof. intros w e. unfold result, put_fs. cbn. done. Qed.

Lemma contained_query {A} (f : V → A * V) : contained (query f).
Proof. intros w e. unfold result, query. by destruct (f (env w)). Qed.

Lemma contained_bind {A B} (m : M A) (k : A → M B) :
  contained m → (∀ a, contained (k a)) → contained (bind m k).
Proof.
  intros Hm Hk w e. unfold result, bind.
  specialize (Hm w). unfold result in Hm.
  destruct (m w) as [[a|e'] w1]; cbn [fst] in *; [apply Hk|].
  intros [= <-]. by apply Hm.
Qed.

(** A handler that cannot fail shields its caller from every [Exception]
    of the guarded block. *)
Lemma contained_try_except {A} (m : M A) (h : exn → M A) :
  (∀ e, contained (h e)) → contained (try_except m h).
Proof.
  intros Hh w e. unfold result, try_except.
  destruct (m w) as [[a|e'] w1]; cbn [fst]; [done|].
  destruct e'; cbn [is_Exception fst]; try apply Hh. congruence.
Qed.

Lemma contained_try_finally {A} (m : M A) (f : M ()) :
  contained m → contained f → contained (try_finally m f).
Proof.
  intros Hm Hf w e. unfold result, try_finally.
  specialize (Hm w). unfold result in Hm.
  destruct (m w) as [r w1]. specialize (Hf w1). unfold result in Hf.
  destruct (f w1) as [[[]|e'] w2]; cbn [fst] in *.
  - intros ->. by apply Hm.
  - intros [= <-]. by apply Hf.
Qed.

Lemma contained_for_each {A} (l : list A) (body : A → M ()) :
  (∀ x, contained (body x)) → contained (for_each l body).
Proof.
  intros Hb. induction l as [|x l IH]; simpl; [apply contained_ret|].
  apply contained_bind; [apply Hb|intros _; apply IH].
Qed.
End contained_rules.

Ltac contained_auto :=
  repeat first
    [ apply contained_ret | apply contained_get_st | apply contained_get_fs
    | apply contained_modify | apply contained_print | apply contained_put_fs
    | apply contained_query
    | apply contained_try_except; intros ?
    | apply contained_try_finally
    | apply contained_bind; [|intros ?]
    | apply contained_for_each; intros ?
    | assumption
    | lazymatch goal with
      | |- contained (if ?b then _ else _) => destruct b
      | |- contained (match ?x with _ => _ end) => destruct x
      end ].

Section contained_engine.
Context {V : Type} (E : Env V) (c : config).

Lemma refresh_band_caches now fb (w : world V) :
  result (refresh_band E c now fb) w = Ok () →
  band_cache (st (after (refresh_band E c now fb) w)) ≠ None.
Proof.
  unfold result, after, refresh_band, try_finally, try_except.
  destruct (mkt_id c) as [i|].
  2:{ unfold bind at 1 2, raise. by cbn. }
  unfold bind at 1 3, ret at 1 2. unfold bind, venue.
  destruct (public_price_limit E i (env w)) as [[[|row rows]|e] v1].
  - unfold raise. by cbn.
  - destruct (buyLmt row), (sellLmt row); unfold raise; by cbn.
  - destruct (is_Exception e); by cbn.
Qed.

Lemma contained_fetch_price_band_cached fb : contained (fetch_price_band_cached E c fb).
Proof.
  assert (∀ now, contained (refresh_band E c now fb >>> read_band)) as Href.
  { intros now w e. unfold result.
    destruct (result (refresh_band E c now fb) w) as [[]|e'] eqn:Hr.
    - rewrite (bind_ok _ _ _ _ Hr). pose proof (refresh_band_caches now fb w Hr) as Hc.
      unfold read_band. rewrite bind_get_st.
      destruct (band_cache (st (after (refresh_band E c now fb) w))); [by cbn|done].
    - rewrite (bind_raise _ _ _ _ Hr). cbn [fst]. intros [= ->]. revert Hr.
      apply (contained_try_finally (V:=V)); [|apply contained_modify].
      apply contained_try_except. intros ?. apply contained_modify. }
  unfold fetch_price_band_cached.
  apply contained_bind; [apply contained_query|intros now].
  apply contained_bind; [apply contained_get_st|intros s].
  destruct (band_cache s); [|apply Href].
  destruct (ltb _ _); [apply contained_ret|apply Href].
Qed.

(** X9: the methods that guard their venue and file access never let an
    [Exception] reach their caller, whatever the venue, the clock and the
    file system do: reading the reference price, fetching the price band,
    cancelling by price, cancelling everything, the market order of the
    hedge, and the whole of the command processing.  Only a keyboard
    interrupt passes through them.  (The rounding functions [p_prec] and
    [q_prec] are total here, as everywhere in this development.) *)
Theorem venue_failures_are_contained :
  contained (current_mark_or_mid E c) ∧
  (∀ fb, contained (fetch_price_band_cached E c fb)) ∧
  (∀ p, contained (safe_cancel_by_price E p)) ∧
  contained (cancel_all_open_orders E) ∧
  (∀ sd q, contained (place_market E sd q)) ∧
  contained (process_commands E c).
Proof.
  assert (∀ o, contained (try_cancel E o)) as Htc.
  { intros o. unfold try_cancel. contained_auto. }
  split; [|split; [|split; [|split; [|split]]]].
  - unfold current_mark_or_mid. contained_auto.
  - apply contained_fetch_price_band_cached.
  - intros p. unfold safe_cancel_by_price. contained_auto; apply Htc.
  - unfold cancel_all_open_orders. contained_auto; apply Htc.
  - intros sd q. unfold place_market. contained_auto.
  - unfold process_commands. contained_auto.
Qed.
End contained_engine.

(** ** Which operations change which attributes *)

#[global] Instance same_part_preorder {V X} (g : state → X) : PreOrder (same_part (V:=V) g).
Proof.
  split; [by intros w|]. intros w1 w2 w3 H1 H2. unfold same_part in *. congruence.
Qed.

#[global] Instance flag_stays_preorder {V} : PreOrder (flag_stays (V:=V)).
Proof.
  split; [by intros w|]. intros w1 w2 w3 H1 H2 H. by apply H2, H1.
Qed.

Section part_rules.
Context {V X : Type} (g : state → X).

Lemma part_modify (f : state → state) :
  (∀ s, g (f s) = g s) → rel (V:=V) (same_part g) (modify f).
Proof. intros Hf w. apply Hf. Qed.

Lemma part_print (m : msg) : rel (V:=V) (same_part g) (print m).
Proof. by intros w. Qed.

Lemma part_venue {A} (cl : call) (f : V → res A * V) : rel (same_part g) (venue cl f).
Proof. intros w. unfold after, venue. by destruct (f (env w)). Qed.

Lemma part_ask {A} (f : V → res A * V) : rel (same_part g) (ask f).
Proof. intros w. unfold after, ask. by destruct (f (env w)). Qed.

Lemma part_query {A} (f : V → A * V) : rel (same_part g) (query f).
Proof. intros w. unfold after, query. by destruct (f (env w)). Qed.

Lemma part_put_fs files : rel (V:=V) (same_part g) (put_fs files).
Proof. by intros w. Qed.

Lemma part_py_float (E : Env V) v : rel (same_part g) (py_float E v).
Proof. by intros w. Qed.
End part_rules.

Section part_pass.
Context {V X : Type} (E : Env V) (c : config) (g : state → X).
Hypothesis Hbc : ∀ x s, g (set_band_cache x s) = g s.
Hypothesis Hbt : ∀ x s, g (set_band_ts x s) = g s.
Hypothesis Hoo : ∀ x s, g (set_open_orders x s) = g s.
Hypothesis Hom : ∀ x s, g (set_order_meta x s) = g s.
Hypothesis Heq : ∀ x s, g (set_equity_series x s) = g s.
Hypothesis Hff : ∀ x s, g (set_first_fill_ignore x s) = g s.

Ltac part_auto :=
  repeat first
    [ rel_step
    | apply part_modify; intros ?; rewrite ?Hbc, ?Hbt, ?Hoo, ?Hom, ?Heq, ?Hff; reflexivity
    | apply part_print | apply part_venue | apply part_ask | apply part_query
    | apply part_put_fs | apply part_py_float
    | solve [eauto] ].

Lemma part_safe_place sd p q : rel (same_part g) (safe_place E c sd p q).
Proof.
  unfold safe_place, submit_limit, current_mark_or_mid, mid_or_last,
    fetch_price_band_cached, refresh_band, read_band, sleep.
  part_auto.
Qed.

Lemma part_handle_post_close sd p f : rel (same_part g) (handle_post_close E c sd p f).
Proof.
  unfold handle_post_close, replenish. pose proof part_safe_place. part_auto.
Qed.

Lemma part_run_command cmd : rel (same_part g) (run_command E c cmd).
Proof.
  unfold run_command, cancel_all_open_orders, safe_cancel_by_price, try_cancel,
    cmd_place_limit, submit_command_limit, cmd_restore_level, current_mark_or_mid,
    mid_or_last, field.
  pose proof part_safe_place. part_auto.
Qed.

Lemma part_process_commands : rel (same_part g) (process_commands E c).
Proof.
  unfold process_commands, process_line, read_stripped_lines, truncate_file, fs_fault.
  pose proof part_run_command. part_auto.
Qed.

Lemma part_aw_run n target data pc : rel (same_part g) (aw_run E n target data pc).
Proof.
  revert pc. induction n as [|n IH]; intros pc; simpl; [apply rel_ret; apply _|].
  apply rel_bind; [apply _| |intros pc'; apply IH].
  unfold aw_step. part_auto.
Qed.

Lemma part_snapshot_and_dump : rel (same_part g) (snapshot_and_dump E c).
Proof.
  unfold snapshot_and_dump, build_state_doc, atomic_write_json, current_mark_or_mid,
    mid_or_last, fetch_price_band_cached, refresh_band, read_band.
  pose proof part_aw_run. part_auto.
Qed.

Lemma part_safe_cancel_by_price p : rel (same_part g) (safe_cancel_by_price E p).
Proof. unfold safe_cancel_by_price, try_cancel. part_auto. Qed.

Lemma part_cancel_all_open_orders : rel (same_part g) (cancel_all_open_orders E).
Proof. unfold cancel_all_open_orders, try_cancel. part_auto. Qed.

Lemma part_tick_after_snapshot hb i : rel (same_part g) (tick_after_snapshot E c hb i).
Proof. unfold tick_after_snapshot, heartbeat, sleep. part_auto. Qed.

Section with_init.
Hypothesis Hif : ∀ x s, g (set_initialized_full x s) = g s.

Lemma part_initialize_full_grid_once : rel (same_part g) (initialize_full_grid_once E c).
Proof.
  unfold initialize_full_grid_once, init_level, place_market, current_mark_or_mid,
    mid_or_last.
  pose proof part_safe_place.
  repeat first
    [ rel_step
    | apply part_modify; intros ?; rewrite ?Hif; reflexivity
    | apply part_print | apply part_venue
    | solve [eauto] ].
Qed.
End with_init.

Section with_fills.
Hypothesis Hiv : ∀ x s, g (set_inventory x s) = g s.
Hypothesis Hrp : ∀ x s, g (set_realized_pnl x s) = g s.
Hypothesis Htl : ∀ x s, g (set_trades_log x s) = g s.
Hypothesis Hfa : ∀ x s, g (set_fills_at x s) = g s.

Lemma part_on_fill sd p q : rel (same_part g) (on_fill E c sd p q).
Proof.
  unfold on_fill, bump_fills.
  repeat first
    [ rel_step
    | apply part_modify; intros s; cbv beta;
      try destruct (sell_loop _ _ _ _ _ _) as [[]|];
      rewrite ?Hrp, ?Hiv, ?Htl, ?Hfa; reflexivity
    | apply part_query ].
Qed.

Lemma part_poll_and_handle_fills : rel (same_part g) (poll_and_handle_fills E c).
Proof.
  unfold poll_and_handle_fills, poll_one, set_last_filled.
  pose proof part_on_fill. pose proof part_handle_post_close. part_auto.
Qed.
End with_fills.
End part_pass.

Section frames.
Context {V : Type} (E : Env V) (c : config).

(** X10: the ledger (inventory, realized PnL, trade log, fill counters) is
    changed by fill polling alone.  Grid initialisation (including the
    market order of the hedge, which is not booked), command processing,
    placing and cancelling orders, the replenishment after a close and the
    snapshot leave it exactly as it was, whether they return or raise. *)
Theorem ledger_changes_only_by_fills (o : op) (w : world V) :
  books_fills o = false →
  let w' := after (exec E c o) w in
  inventory (st w') = inventory (st w) ∧ realized_pnl (st w') = realized_pnl (st w) ∧
  trades_log (st w') = trades_log (st w) ∧ fills_at (st w') = fills_at (st w).
Proof.
  intros Ho w'.
  assert (same_part ledger w w') as Hl.
  { subst w'. destruct o; try discriminate Ho; cbn [exec].
    - by apply part_initialize_full_grid_once.
    - by apply part_process_commands.
    - by apply part_run_command.
    - by apply part_snapshot_and_dump.
    - apply rel_bind; [apply _| |intros ?; apply rel_ret; apply _].
      by apply part_safe_place.
    - apply rel_bind; [apply _| |intros ?; apply rel_ret; apply _].
      by apply part_safe_cancel_by_price.
    - by apply part_cancel_all_open_orders.
    - by apply part_handle_post_close. }
  unfold same_part, ledger in Hl. by simplify_eq.
Qed.

Lemma initialized_noop (w : world V) :
  initialized_full (st w) = true → initialize_full_grid_once E c w = (Ok (), w).
Proof.
  intros Hw. unfold initialize_full_grid_once. rewrite bind_get_st. by rewrite Hw.
Qed.

Lemma flag_stays_of_same {A} (m : M (V:=V) A) :
  rel (same_part initialized_full) m → rel flag_stays m.
Proof. intros Hm w Hw. by rewrite (Hm w). Qed.

Lemma flag_stays_initialize : rel flag_stays (initialize_full_grid_once E c).
Proof. intros w Hw. unfold after. by rewrite initialized_noop. Qed.

Lemma flag_stays_tick hb i : rel flag_stays (tick E c hb i).
Proof.
  unfold tick, tick_before_snapshot.
  pose proof flag_stays_initialize.
  pose proof (flag_stays_of_same (process_commands E c)) as H1.
  pose proof (flag_stays_of_same (poll_and_handle_fills E c)) as H2.
  pose proof (flag_stays_of_same (snapshot_and_dump E c)) as H3.
  pose proof (flag_stays_of_same (tick_after_snapshot E c hb i)) as H4.
  repeat first
    [ rel_step
    | assumption
    | apply H1; by apply part_process_commands
    | apply H2; by apply part_poll_and_handle_fills
    | apply H3; by apply part_snapshot_and_dump
    | apply H4; by apply part_tick_after_snapshot ].
Qed.

(** X11: once [_initialize_full_grid_once] has returned, the grid counts as
    initialised for good: the call sets [_initialized_full], no operation
    of the engine ever resets it, and a call made while it is set does
    nothing at all. *)
Theorem grid_is_initialised_once :
  (∀ w : world V, result (initialize_full_grid_once E c) w = Ok () →
        initialized_full (st (after (initialize_full_grid_once E c) w)) = true) ∧
  (∀ (o : op) (w : world V), initialized_full (st w) = true →
        initialized_full (st (after (exec E c o) w)) = true) ∧
  (∀ w : world V, initialized_full (st w) = true →
        initialize_full_grid_once E c w = (Ok (), w)).
Proof.
  split; [|split; [|exact initialized_noop]].
  - intros w. unfold result, after, initialize_full_grid_once. rewrite bind_get_st.
    destruct (initialized_full (st w)) eqn:Hw; [done|].
    destruct (result (current_mark_or_mid E c) w) as [px|e] eqn:H1;
      [rewrite (bind_ok _ _ _ _ H1)|by rewrite (bind_raise _ _ _ _ H1)].
    set (w1 := after (current_mark_or_mid E c) w).
    destruct (result (fold_each (levels c) 0 (init_level E c px)) w1) as [total|e] eqn:H2;
      [rewrite (bind_ok _ _ _ _ H2)|by rewrite (bind_raise _ _ _ _ H2)].
    set (w2 := after (fold_each (levels c) 0 (init_level E c px)) w1).
    match goal with
    | |- context [bind ?m _ w2] =>
        destruct (result m w2) as [[]|e] eqn:H3;
          [rewrite (bind_ok _ _ _ _ H3)|by rewrite (bind_raise _ _ _ _ H3)]
    end.
    rewrite bind_modify. by cbn.
  - intros o w.
    assert (rel flag_stays (exec E c o)) as Hrel; [|apply Hrel].
    destruct o; cbn [exec].
    + apply flag_stays_initialize.
    + by apply flag_stays_of_same, part_process_commands.
    + by apply flag_stays_of_same, part_run_command.
    + by apply flag_stays_of_same, part_poll_and_handle_fills.
    + by apply flag_stays_of_same, part_snapshot_and_dump.
    + apply flag_stays_tick.
    + apply flag_stays_of_same.
      apply rel_bind; [apply _| |intros ?; apply rel_ret; apply _].
      by apply part_safe_place.
    + apply flag_stays_of_same.
      apply rel_bind; [apply _| |intros ?; apply rel_ret; apply _].
      by apply part_safe_cancel_by_price.
    + by apply flag_stays_of_same, part_cancel_all_open_orders.
    + by apply flag_stays_of_same, part_on_fill.
    + by apply flag_stays_of_same, part_handle_post_close.
Qed.
End frames.

(** ** Bounded logs, order ids and market orders *)

#[global] Instance both_preorder {V} (R1 R2 : relation (world V))
  `{!PreOrder R1, !PreOrder R2} : PreOrder (both R1 R2).
Proof.
  split.
  - intros w. split; reflexivity.
  - intros w1 w2 w3 [H1 H2] [H3 H4]. split; etrans; eauto.
Qed.

Lemma rel_both {V A} (R1 R2 : relation (world V)) (m : M (V:=V) A) :
  rel R1 m → rel R2 m → rel (both R1 R2) m.
Proof. intros H1 H2 w. split; [apply H1|apply H2]. Qed.

Lemma deque_append_length {A} (n : nat) (x : A) (l : list A) :
  (length l ≤ n)%nat → (length (deque_append n x l) ≤ n)%nat.
Proof.
  intros Hl. unfold deque_append. case_bool_decide as Hn.
  - rewrite length_drop, length_app. simpl. lia.
  - lia.
Qed.

Section well_kept_rules.
Context {V : Type} (c : config).

Lemma wk_modify (f : state → state) :
  (∀ s, sizes_ok s → sizes_ok (f s)) → rel (V:=V) (keeps (well_kept c)) (modify f).
Proof. intros Hf w [H1 H2]. split; [by apply Hf|done]. Qed.

Lemma wk_print (m : msg) : rel (V:=V) (keeps (well_kept c)) (print m).
Proof. intros w [H1 H2]. split; [done|]. by apply Forall_cons. Qed.

Lemma wk_venue {A} (cl : call) (f : V → res A * V) :
  (∀ s, market_ok c (EvCall cl, s)) → rel (keeps (well_kept c)) (venue cl f).
Proof.
  intros Hok w [H1 H2]. unfold after, venue. destruct (f (env w)) as [r v'].
  split; [done|]. by apply Forall_cons.
Qed.

Lemma wk_ask {A} (f : V → res A * V) : rel (keeps (well_kept c)) (ask f).
Proof. intros w H. unfold after, ask. by destruct (f (env w)). Qed.

Lemma wk_query {A} (f : V → A * V) : rel (keeps (well_kept c)) (query f).
Proof. intros w H. unfold after, query. by destruct (f (env w)). Qed.

Lemma wk_put_fs files : rel (V:=V) (keeps (well_kept c)) (put_fs files).
Proof. by intros w H. Qed.

Lemma wk_py_float (E : Env V) v : rel (keeps (well_kept c)) (py_float E v).
Proof. by intros w H. Qed.
End well_kept_rules.

Ltac wk_auto :=
  repeat first
    [ rel_step
    | apply wk_modify; intros ? (? & ? & ?); cbv beta;
      try destruct (sell_loop _ _ _ _ _ _) as [[]|];
      (split; [|split]); cbn;
      first [ assumption | by apply deque_append_length
            | by apply NoDup_od_set | by apply NoDup_od_del ]
    | apply wk_print
    | apply wk_venue; intros ?; exact I
    | apply wk_ask | apply wk_query | apply wk_put_fs | apply wk_py_float
    | solve [eauto] ].

Section well_kept_engine.
Context {V : Type} (E : Env V) (c : config).

Lemma wk_safe_place sd p q : rel (keeps (well_kept c)) (safe_place E c sd p q).
Proof.
  unfold safe_place, submit_limit, current_mark_or_mid, mid_or_last,
    fetch_price_band_cached, refresh_band, read_band, sleep.
  wk_auto.
Qed.

Lemma wk_current_mark_or_mid : rel (keeps (well_kept c)) (current_mark_or_mid E c).
Proof. unfold current_mark_or_mid, mid_or_last. wk_auto. Qed.

Lemma wk_handle_post_close sd p f : rel (keeps (well_kept c)) (handle_post_close E c sd p f).
Proof. unfold handle_post_close, replenish. pose proof wk_safe_place. wk_auto. Qed.

Lemma wk_run_command cmd : rel (keeps (well_kept c)) (run_command E c cmd).
Proof.
  unfold run_command, cancel_all_open_orders, safe_cancel_by_price, try_cancel,
    cmd_place_limit, submit_command_limit, cmd_restore_level, field.
  pose proof wk_safe_place. pose proof wk_current_mark_or_mid. wk_auto.
Qed.

Lemma wk_process_commands : rel (keeps (well_kept c)) (process_commands E c).
Proof.
  unfold process_commands, process_line, read_stripped_lines, truncate_file, fs_fault.
  pose proof wk_run_command. wk_auto.
Qed.

Lemma wk_aw_run n target data pc : rel (keeps (well_kept c)) (aw_run E n target data pc).
Proof.
  revert pc. induction n as [|n IH]; intros pc; simpl; [apply rel_ret; apply _|].
  apply rel_bind; [apply _| |intros pc'; apply IH].
  unfold aw_step. wk_auto.
Qed.

Lemma wk_snapshot_and_dump : rel (keeps (well_kept c)) (snapshot_and_dump E c).
Proof.
  unfold snapshot_and_dump, build_state_doc, atomic_write_json,
    fetch_price_band_cached, refresh_band, read_band.
  pose proof wk_aw_run. pose proof wk_current_mark_or_mid. wk_auto.
Qed.

Lemma wk_safe_cancel_by_price p : rel (keeps (well_kept c)) (safe_cancel_by_price E p).
Proof. unfold safe_cancel_by_price, try_cancel. wk_auto. Qed.

Lemma wk_cancel_all_open_orders : rel (keeps (well_kept c)) (cancel_all_open_orders E).
Proof. unfold cancel_all_open_orders, try_cancel. wk_auto. Qed.

Lemma wk_tick_after_snapshot hb i : rel (keeps (well_kept c)) (tick_after_snapshot E c hb i).
Proof. unfold tick_after_snapshot, heartbeat, sleep. wk_auto. Qed.

Lemma wk_on_fill sd p q : rel (keeps (well_kept c)) (on_fill E c sd p q).
Proof. unfold on_fill, bump_fills. wk_auto. Qed.

Lemma wk_set_last_filled o f : rel (V:=V) (keeps (well_kept c)) (set_last_filled o f).
Proof.
  intros w [(H1 & H2 & H3) H4]. unfold after, set_last_filled. rewrite bind_get_st.
  destruct (od_get o (order_meta (st w))); [|by split].
  split; [|done]. split; [done|]. split; [done|]. cbn. by apply NoDup_od_set.
Qed.

Lemma wk_poll_and_handle_fills : rel (keeps (well_kept c)) (poll_and_handle_fills E c).
Proof.
  unfold poll_and_handle_fills, poll_one.
  pose proof wk_on_fill. pose proof wk_set_last_filled. pose proof wk_handle_post_close.
  wk_auto.
Qed.

(** The market order of the hedge, made where the invariant allows it. *)
Lemma wk_place_market q (w : world V) :
  init_position_enabled c = true → initialized_full (st w) = false →
  well_kept c w → well_kept c (after (place_market E Buy q) w).
Proof.
  intros Hen Hflag [H1 H2].
  unfold after, place_market, try_except, bind at 1, venue.
  destruct (create_order E Market Buy (q_prec E q) None false (env w)) as [[o|e] v'].
  - rewrite bind_print. cbn. split; [done|].
    apply Forall_cons. split; [exact I|]. apply Forall_cons. by split.
  - destruct (is_Exception e); [rewrite bind_print|]; cbn; (split; [done|]);
      repeat (apply Forall_cons; split; [first [exact I | by repeat split]|]); done.
Qed.

Lemma wk_initialize_full_grid_once :
  rel (keeps (well_kept c)) (initialize_full_grid_once E c).
Proof.
  intros w Hwk. unfold after, initialize_full_grid_once. rewrite bind_get_st.
  destruct (initialized_full (st w)) eqn:Hflag; [done|].
  set (R := both (keeps (well_kept c)) (same_part (V:=V) initialized_full)).
  assert (rel R (current_mark_or_mid E c)) as Hcm.
  { apply rel_both; [apply wk_current_mark_or_mid|].
    unfold current_mark_or_mid, mid_or_last.
    repeat first [rel_step | apply part_venue]. }
  assert (∀ px, rel R (fold_each (levels c) 0 (init_level E c px))) as Hfold.
  { intros px. apply rel_fold_each; [apply _|]. intros acc p. unfold init_level.
    assert (∀ sd q, rel R (safe_place E c sd p q)) as Hsp.
    { intros sd q. apply rel_both; [apply wk_safe_place|by apply part_safe_place]. }
    repeat first [rel_step | apply Hsp]. }
  destruct (Hcm w) as [Hk1 Hf1]. specialize (Hk1 Hwk). unfold same_part in Hf1.
  destruct (result (current_mark_or_mid E c) w) as [px|e] eqn:H1;
    [rewrite (bind_ok _ _ _ _ H1)|by rewrite (bind_raise _ _ _ _ H1)].
  set (w1 := after (current_mark_or_mid E c) w) in *.
  destruct (Hfold px w1) as [Hk2 Hf2]. specialize (Hk2 Hk1). unfold same_part in Hf2.
  destruct (result (fold_each (levels c) 0 (init_level E c px)) w1) as [total|e] eqn:H2;
    [rewrite (bind_ok _ _ _ _ H2)|by rewrite (bind_raise _ _ _ _ H2)].
  set (w2 := after (fold_each (levels c) 0 (init_level E c px)) w1) in *.
  assert (initialized_full (st w2) = false) as Hflag2 by congruence.
  assert (rel (keeps (well_kept c))
            (modify (V:=V) (set_initialized_full true) >>> print (MInitialized px total)))
    as Hend by wk_auto.
  destruct (init_position_enabled c && gtb total 0) eqn:Hguard.
  - apply andb_true_iff in Hguard as [Hen _].
    pose proof (wk_place_market total w2 Hen Hflag2 Hk2) as Hk3.
    unfold after in Hk3. unfold bind at 1. unfold bind at 1.
    destruct (place_market E Buy total w2) as [[o|e] w3]; cbn [snd] in Hk3.
    + exact (Hend w3 Hk3).
    + done.
  - exact (Hend w2 Hk2).
Qed.

Lemma wk_tick hb i : rel (keeps (well_kept c)) (tick E c hb i).
Proof.
  unfold tick, tick_before_snapshot.
  pose proof wk_initialize_full_grid_once. pose proof wk_process_commands.
  pose proof wk_poll_and_handle_fills. pose proof wk_snapshot_and_dump.
  pose proof wk_tick_after_snapshot.
  wk_auto.
Qed.

Lemma wk_exec o : rel (keeps (well_kept c)) (exec E c o).
Proof.
  destruct o; cbn [exec].
  - apply wk_initialize_full_grid_once.
  - apply wk_process_commands.
  - apply wk_run_command.
  - apply wk_poll_and_handle_fills.
  - apply wk_snapshot_and_dump.
  - apply wk_tick.
  - pose proof wk_safe_place. wk_auto.
  - pose proof wk_safe_cancel_by_price. wk_auto.
  - apply wk_cancel_all_open_orders.
  - apply wk_on_fill.
  - apply wk_handle_post_close.
Qed.

Lemma reachable_well_kept w : reachable E c w → well_kept c w.
Proof.
  induction 1 as [v files|o w Hr IH|w v' files' Hr IH].
  - split; [|constructor]. split; [simpl; lia|]. split; [simpl; lia|]. constructor.
  - by apply wk_exec.
  - exact IH.
Qed.

(** X12: the engine submits a market order only as the hedge of the initial
    grid.  In every world it can reach, each market order in its log is a
    buy without price and without [reduceOnly], was made with
    [init_position] enabled, and was made before the grid counted as
    initialised; with the option off no market order is ever made. *)
Theorem market_orders_only_hedge (w : world V) :
  reachable E c w →
  Forall (market_ok c) (log w) ∧
  (init_position_enabled c = false →
   ∀ sd q p ro, CCreateOrder Market sd q p ro ∉ calls w).
Proof.
  intros Hr. destruct (reachable_well_kept w Hr) as [_ Hlog]. split; [exact Hlog|].
  intros Hoff sd q p ro Hin.
  unfold calls, events in Hin. apply list_elem_of_omap in Hin as (ev & Hev & Hcl).
  destruct ev as [cl|m]; [|done]. injection Hcl as ->.
  apply list_elem_of_In, in_rev, list_elem_of_In in Hev.
  apply list_elem_of_fmap in Hev as ([ev s] & Heq & Hen). simpl in Heq. subst ev.
  rewrite Forall_forall in Hlog. specialize (Hlog _ Hen).
  unfold market_ok in Hlog. simpl in Hlog. destruct Hlog as (_ & _ & _ & Hon & _). congruence.
Qed.

(** X13: the trade log and the equity series never hold more than 5000
    entries, in any world the engine can reach: they are bounded deques,
    which drop their oldest entry when full. *)
Theorem history_is_bounded (w : world V) :
  reachable E c w →
  (length (trades_log (st w)) ≤ 5000)%nat ∧ (length (equity_series (st w)) ≤ 5000)%nat.
Proof.
  intros Hr. destruct (reachable_well_kept w Hr) as [(H1 & H2 & _) _]. by split.
Qed.
End well_kept_engine.

(** ** The snapshot document *)

Lemma bind_ret_l {V A B} (a : A) (k : A → M (V:=V) B) w : bind (ret a) k w = k a w.
Proof. reflexivity. Qed.

Section valuation_facts.
Context (c : config).

Lemma valuation_spec px inv :
  valuation c px inv
  = (px * (total_contracts inv * contract_size c) - cost_basis c inv,
     total_contracts inv, cost_basis c inv).
Proof.
  unfold valuation.
  assert (∀ u t k,
            foldl (λ '(unreal, total, cost) l,
                     (unreal + (px - lot_price l) * (contracts l * contract_size c),
                      total + contracts l,
                      cost + lot_price l * (contracts l * contract_size c)))
                  (u, t, k) inv
            = (u + (px * (total_contracts inv * contract_size c) - cost_basis c inv),
               t + total_contracts inv, k + cost_basis c inv)) as Hgen.
  { induction inv as [|l inv IH]; intros u t k; cbn [foldl total_contracts cost_basis foldr].
    - f_equal; [f_equal|]; ring.
    - rewrite IH. fold (total_contracts inv) (cost_basis c inv).
      f_equal; [f_equal|]; ring. }
  rewrite Hgen. f_equal; [f_equal|]; ring.
Qed.
End valuation_facts.

Section sorting_facts.
Context {A : Type}.

Lemma insert_by_price_perm (x : Qc * A) l : insert_by_price x l ≡ₚ x :: l.
Proof.
  induction l as [|y l IH]; simpl; [done|].
  destruct (leb x.1 y.1); [done|]. rewrite IH. apply Permutation_swap.
Qed.

Lemma sort_by_price_perm (l : list (Qc * A)) : sort_by_price l ≡ₚ l.
Proof.
  induction l as [|x l IH]; simpl; [done|].
  unfold sort_by_price in *. simpl. by rewrite insert_by_price_perm, IH.
Qed.

Lemma insert_by_price_sorted (x : Qc * A) l :
  StronglySorted (λ a b, a.1 ≤ b.1) l →
  StronglySorted (λ a b, a.1 ≤ b.1) (insert_by_price x l).
Proof.
  induction 1 as [|y l Hs IH Hy]; simpl; [repeat constructor|].
  destruct (leb x.1 y.1) eqn:Hle.
  - apply bool_decide_eq_true in Hle. constructor; [by constructor|].
    constructor; [done|]. eapply Forall_impl; [exact Hy|].
    intros z Hz. simpl in *. by etrans.
  - apply bool_decide_eq_false in Hle. constructor; [done|].
    rewrite insert_by_price_perm. constructor; [|done].
    apply Qcnot_le_lt in Hle. by apply Qclt_le_weak.
Qed.

Lemma sort_by_price_sorted (l : list (Qc * A)) :
  StronglySorted (λ a b, a.1 ≤ b.1) (sort_by_price l).
Proof.
  induction l as [|x l IH]; [constructor|]. by apply insert_by_price_sorted.
Qed.
End sorting_facts.

Section deque_facts.
Context {A : Type}.

Lemma last_n_length (n : nat) (l : list A) : (length (last_n n l) ≤ n)%nat.
Proof. unfold last_n. rewrite length_drop. lia. Qed.

Lemma last_n_suffix (n : nat) (l : list A) : last_n n l `suffix_of` l.
Proof. unfold last_n. apply suffix_drop. Qed.

Lemma last_drop (k : nat) (l : list A) : (k < length l)%nat → last (drop k l) = last l.
Proof.
  revert l. induction k as [|k IH]; intros [|x l] Hk; simpl in *; try lia; [done|].
  rewrite IH by lia. destruct l; [simpl in *; lia|done].
Qed.

Lemma last_deque_append (x : A) (l : list A) : last (deque_append 5000 x l) = Some x.
Proof.
  unfold deque_append. case_bool_decide as Hn.
  - rewrite last_drop; [by rewrite last_snoc|]. lia.
  - by rewrite last_snoc.
Qed.

Lemma last_last_n (n : nat) (l : list A) : (0 < n)%nat → last (last_n n l) = last l.
Proof.
  intros Hn. unfold last_n. destruct l as [|x l]; [done|].
  apply last_drop. simpl. lia.
Qed.
End deque_facts.

Section band_frame.
Context {V X : Type} (E : Env V) (c : config) (g : state → X).
Hypothesis Hbc : ∀ x s, g (set_band_cache x s) = g s.
Hypothesis Hbt : ∀ x s, g (set_band_ts x s) = g s.

Lemma part_fetch_price_band_cached fb : rel (same_part g) (fetch_price_band_cached E c fb).
Proof.
  unfold fetch_price_band_cached, refresh_band, read_band.
  repeat first
    [ rel_step
    | apply part_modify; intros ?; rewrite ?Hbt, ?Hbc; reflexivity
    | apply part_venue | apply part_query ].
Qed.
End band_frame.

Section snapshot_doc.
Context {V : Type} (E : Env V) (c : config).

(** The part of [build_state_doc] after the equity sample was recorded. *)
Lemma build_state_doc_end (w3 : world V) (px t u eqy avg : Qc)
    (ol : list (Qc * oid * option side)) (d : state_doc) :
  let m :=
    (let* band := fetch_price_band_cached E c px in
     let* ts' := query (utcnow E) in
     let* s' := get_st in
     ret (StateDoc ts' (symbol c) (entry_price c) px (contract_size c) (levels c)
            (GRID_QTY_BY_LEVEL c) ol t (t * contract_size c) avg (realized_pnl s') u eqy
            (fee_rate c) band (last_n 300 (trades_log s'))
            (last_n 2000 (equity_series s')))) in
  (m w3).1 = Ok d →
  d_current_price d = px ∧ d_inventory_contracts d = t ∧
  d_inventory_btc d = t * contract_size c ∧ d_inventory_avg_cost d = avg ∧
  d_realized_pnl d = realized_pnl (st w3) ∧ d_unrealized_pnl d = u ∧ d_equity d = eqy ∧
  d_open_orders d = ol ∧
  d_trades d = last_n 300 (trades_log (st w3)) ∧
  d_equity_series d = last_n 2000 (equity_series (st w3)) ∧
  equity_series (st (m w3).2) = equity_series (st w3).
Proof.
  intros m. subst m.
  pose proof (part_fetch_price_band_cached E c trades_log
                (λ _ _, eq_refl) (λ _ _, eq_refl) px w3) as Ht.
  pose proof (part_fetch_price_band_cached E c realized_pnl
                (λ _ _, eq_refl) (λ _ _, eq_refl) px w3) as Hrp.
  pose proof (part_fetch_price_band_cached E c equity_series
                (λ _ _, eq_refl) (λ _ _, eq_refl) px w3) as He.
  unfold same_part, after in Ht, Hrp, He. unfold bind, query, get_st, ret.
  destruct (fetch_price_band_cached E c px w3) as [[band|e] w4]; [|done].
  cbn [snd] in Ht, Hrp, He. destruct (utcnow E (env w4)) as [ts' v'].
  cbn [fst snd st]. intros [= <-].
  cbn [d_current_price d_inventory_contracts d_inventory_btc d_inventory_avg_cost
       d_realized_pnl d_unrealized_pnl d_equity d_open_orders d_trades d_equity_series].
  rewrite Hrp, Ht, He. by repeat split.
Qed.

(** The part of [build_state_doc] after the average cost was computed. *)
Lemma build_state_doc_tail (w1 : world V) (px t u eqy avg : Qc)
    (ol : list (Qc * oid * option side)) (d : state_doc) :
  let m :=
    (let* ts := query (utcnow E) in
     modify (λ s0, set_equity_series
                     (deque_append 5000 (EquityPoint ts eqy (realized_pnl s0) u)
                        (equity_series s0)) s0) >>>
     let* band := fetch_price_band_cached E c px in
     let* ts' := query (utcnow E) in
     let* s' := get_st in
     ret (StateDoc ts' (symbol c) (entry_price c) px (contract_size c) (levels c)
            (GRID_QTY_BY_LEVEL c) ol t (t * contract_size c) avg (realized_pnl s') u eqy
            (fee_rate c) band (last_n 300 (trades_log s'))
            (last_n 2000 (equity_series s')))) in
  result m w1 = Ok d →
  ∃ ts,
    d_current_price d = px ∧ d_inventory_contracts d = t ∧
    d_inventory_btc d = t * contract_size c ∧ d_inventory_avg_cost d = avg ∧
    d_realized_pnl d = realized_pnl (st w1) ∧ d_unrealized_pnl d = u ∧ d_equity d = eqy ∧
    d_open_orders d = ol ∧
    d_trades d = last_n 300 (trades_log (st w1)) ∧
    d_equity_series d
    = last_n 2000 (deque_append 5000 (EquityPoint ts eqy (realized_pnl (st w1)) u)
                     (equity_series (st w1))) ∧
    equity_series (st (after m w1))
    = deque_append 5000 (EquityPoint ts eqy (realized_pnl (st w1)) u) (equity_series (st w1)).
Proof.
  intros m. subst m. unfold result at 1, after at 1. rewrite bind_query, bind_modify.
  intros Hr. exists (utcnow E (env w1)).1. revert Hr. cbv beta. cbn [st].
  generalize (deque_append 5000 (EquityPoint (utcnow E (env w1)).1 eqy (realized_pnl (st w1)) u)
                (equity_series (st w1))) as series.
  intros series Hr. apply build_state_doc_end in Hr.
  cbn [st set_equity_series realized_pnl trades_log equity_series] in Hr.
  destruct Hr as (H1 & H2 & H3 & H4 & H5 & H6 & H7 & H8 & H9 & H10 & H11).
  repeat (split; [assumption|]). assumption.
Qed.

(** The document [build_state_doc] returns, field by field. *)
Lemma build_state_doc_ok (w : world V) (d : state_doc) :
  result (build_state_doc E c) w = Ok d →
  let s := st w in
  let t := total_contracts (inventory s) in
  let r := realized_pnl s in
  ∃ px ts,
    let u := px * (t * contract_size c) - cost_basis c (inventory s) in
    let series := deque_append 5000 (EquityPoint ts (r + u) r u) (equity_series s) in
    result (current_mark_or_mid E c) w = Ok px ∧
    (gtb t dust = true → t * contract_size c ≠ 0) ∧
    d_current_price d = px ∧
    d_inventory_contracts d = t ∧
    d_inventory_btc d = t * contract_size c ∧
    d_inventory_avg_cost d
    = (if gtb t dust then cost_basis c (inventory s) / (t * contract_size c) else 0) ∧
    d_realized_pnl d = r ∧ d_unrealized_pnl d = u ∧ d_equity d = r + u ∧
    d_open_orders d
    = (λ '(p, (o, sd)), (p, o, sd))
        <$> sort_by_price ((λ '(p, o), (p, (o, m_side <$> od_get o (order_meta s))))
                             <$> open_orders s) ∧
    d_trades d = last_n 300 (trades_log s) ∧
    d_equity_series d = last_n 2000 series ∧
    equity_series (st (after (build_state_doc E c) w)) = series.
Proof.
  intros Hr. cbv zeta.
  destruct (same_st_current_mark_or_mid E c w) as [Hst1 _].
  destruct (result (current_mark_or_mid E c) w) as [px|e] eqn:H1;
    [|unfold result, build_state_doc in Hr; by rewrite (bind_raise _ _ _ _ H1) in Hr].
  exists px. revert Hr. unfold result at 1, after at 1, build_state_doc.
  rewrite (bind_ok _ _ _ _ H1), bind_get_st.
  generalize dependent (after (current_mark_or_mid E c) w). intros w1 Hst1.
  rewrite Hst1, valuation_spec. cbv beta iota.
  generalize (total_contracts (inventory (st w))) as t.
  generalize (cost_basis c (inventory (st w))) as k. intros k t.
  destruct (gtb t dust).
  - destruct (bool_decide (t * contract_size c = 0)) eqn:Hz; [by intros ?|].
    apply bool_decide_eq_false in Hz. rewrite bind_ret_l. intros Hr.
    apply build_state_doc_tail in Hr. destruct Hr as (ts & Hd). rewrite Hst1 in Hd.
    exists ts. split; [done|]. split; [by intros _|]. exact Hd.
  - rewrite bind_ret_l. intros Hr.
    apply build_state_doc_tail in Hr. destruct Hr as (ts & Hd). rewrite Hst1 in Hd.
    exists ts. split; [done|]. split; [done|]. exact Hd.
Qed.


(** X15: the snapshot lists every open order once, with the side recorded in
    [order_meta] (none when the order has no entry there), in ascending
    order of price. *)
Theorem snapshot_lists_open_orders_by_price (w : world V) (d : state_doc) :
  result (build_state_doc E c) w = Ok d →
  d_open_orders d ≡ₚ listed (st w) <$> open_orders (st w) ∧
  StronglySorted (λ a b, a.1.1 ≤ b.1.1) (d_open_orders d).
Proof.
  intros Hr.
  destruct (build_state_doc_ok w d Hr) as (px & ts & _ & _ & _ & _ & _ & _ & _ & _ & _ & Ho & _).
  rewrite Ho. split.
  - rewrite sort_by_price_perm, <- list_fmap_compose.
    apply eq_subrelation; [apply _|]. apply list_fmap_ext. by intros i [p o] _.
  - eapply StronglySorted_fmap; [|apply sort_by_price_sorted].
    by intros [p1 [o1 s1]] [p2 [o2 s2]].
Qed.

(** X16: a snapshot carries the last 300 trades and the last 2000 equity
    samples at most, and its newest equity sample is the one taken for
    this very snapshot: it repeats the document's equity, realized and
    unrealized PnL. *)
Theorem snapshot_history_windows (w : world V) (d : state_doc) :
  result (build_state_doc E c) w = Ok d →
  (length (d_trades d) ≤ 300)%nat ∧ d_trades d `suffix_of` trades_log (st w) ∧
  (length (d_equity_series d) ≤ 2000)%nat ∧
  d_equity_series d `suffix_of` equity_series (st (after (build_state_doc E c) w)) ∧
  ∃ ts, last (d_equity_series d)
        = Some (EquityPoint ts (d_equity d) (d_realized_pnl d) (d_unrealized_pnl d)).
Proof.
  intros Hr.
  destruct (build_state_doc_ok w d Hr)
    as (px & ts & _ & _ & _ & _ & _ & _ & Hrp & Hu & He & _ & Htr & Hes & Hafter).
  rewrite Htr, Hes, Hafter, He, Hrp, Hu.
  split; [apply last_n_length|]. split; [apply last_n_suffix|].
  split; [apply last_n_length|]. split; [apply last_n_suffix|].
  exists ts. rewrite last_last_n by lia. apply last_deque_append.
Qed.

(** X17: with a contract size of zero, a snapshot taken while the inventory
    exceeds [1e-12] contracts divides by zero when it computes the average
    cost: [snapshot_and_dump] raises [ZeroDivisionError] before anything
    is recorded or written. *)
Theorem snapshot_needs_contract_size (w : world V) (px : Qc) :
  contract_size c = 0 →
  dust < total_contracts (inventory (st w)) →
  result (current_mark_or_mid E c) w = Ok px →
  let w' := after (snapshot_and_dump E c) w in
  result (snapshot_and_dump E c) w = Raise ZeroDivisionError ∧
  equity_series (st w') = equity_series (st w) ∧ fs w' = fs w.
Proof.
  intros Hcs Hbig H1 w'.
  destruct (same_st_current_mark_or_mid E c w) as [Hst1 Hfs1].
  assert (build_state_doc E c w
          = (Raise ZeroDivisionError, after (current_mark_or_mid E c) w)) as Hdoc.
  { unfold build_state_doc. rewrite (bind_ok _ _ _ _ H1), bind_get_st, Hst1.
    rewrite valuation_spec. cbv beta iota.
    unfold gtb. rewrite bool_decide_eq_true_2 by done.
    rewrite bool_decide_eq_true_2; [done|]. rewrite Hcs. ring. }
  subst w'. unfold result, after, snapshot_and_dump, bind. rewrite Hdoc. cbn [fst snd].
  by rewrite Hst1, Hfs1.
Qed.
End snapshot_doc.

(** ** Polling the open orders for fills *)

Section polling.
Context {V : Type} (E : Env V) (c : config).

Lemma od_get_set_eq {K A} `{EqDecision K} (k : K) (v : A) (d : list (K * A)) :
  od_get k (od_set k v d) = Some v.
Proof.
  induction d as [|[k' v'] d IH]; simpl; [by rewrite decide_True|].
  destruct (decide (k' = k)) as [->|Hne]; simpl.
  - by rewrite decide_True.
  - by rewrite decide_False.
Qed.

(** An order whose fetch fails is passed over. *)
Lemma poll_one_fetch_fails o m (w : world V) e v1 :
  fetch_order E o (env w) = (Raise e, v1) → is_Exception e = true →
  poll_one E c o m w
  = (Ok (), World (st w) v1 (fs w) ((EvCall (CFetchOrder o), st w) :: log w)).
Proof.
  intros Hf He. unfold poll_one, bind at 1, try_except, bind at 1, venue.
  rewrite Hf, He. reflexivity.
Qed.

(** X19: while the venue cannot be asked about any order, a round of
    polling changes nothing in the engine: every order with an entry in
    [order_meta] is asked about once, in order, each failure is passed over,
    no fill is booked and no order is dropped, and the round returns
    normally. *)
Theorem polling_survives_venue_outage (w : world V) :
  (∀ o v, ∃ e, (fetch_order E o v).1 = Raise e ∧ is_Exception e = true) →
  let w' := after (poll_and_handle_fills E c) w in
  result (poll_and_handle_fills E c) w = Ok () ∧ st w' = st w ∧ fs w' = fs w ∧
  calls w' = calls w ++ (CFetchOrder <$> (order_meta (st w)).*1).
Proof.
  intros Hdown w'. subst w'. unfold poll_and_handle_fills, result, after.
  rewrite bind_get_st. generalize (order_meta (st w)) as l.
  intros l. revert w. induction l as [|[o m] l IH]; intros w.
  { cbn. by rewrite app_nil_r. }
  cbn [for_each]. destruct (Hdown o (env w)) as (e & Hr & He).
  destruct (fetch_order E o (env w)) as [r v1] eqn:Hf. cbn [fst] in Hr. subst r.
  unfold bind at 1 2 3 4. rewrite (poll_one_fetch_fails o m w e v1 Hf He).
  set (w1 := World (st w) v1 (fs w) ((EvCall (CFetchOrder o), st w) :: log w)).
  destruct (IH w1) as (H1 & H2 & H3 & H4).
  split; [exact H1|]. split; [exact H2|]. split; [exact H3|].
  rewrite H4. subst w1. destruct w as [s v files lg]. cbn [st env fs log].
  rewrite calls_cons_call, !fmap_cons, <- app_assoc. done.
Qed.

(** What booking a fill of a buy or a sell leaves behind outside the
    inventory: one more trade, the order book as it was. *)
Lemma on_fill_effect sd p q (w : world V) :
  sd = Buy ∨ sd = Sell →
  let w' := after (on_fill E c sd p q) w in
  result (on_fill E c sd p q) w = Ok () ∧
  trades_log (st w')
  = deque_append 5000 (Trade (utcnow E (env w)).1 sd p q) (trades_log (st w)) ∧
  open_orders (st w') = open_orders (st w) ∧ order_meta (st w') = order_meta (st w) ∧
  fs w' = fs w ∧ calls w' = calls w.
Proof.
  intros Hsd. unfold result, after, on_fill, bump_fills, bind, query, modify, get_st.
  destruct w as [s v files lg]. cbn [st env fs log].
  destruct (utcnow E v) as [ts v']. cbn [fst snd st env fs log].
  destruct (default _ _) as [b n].
  destruct Hsd as [-> | ->]; cbn [fst snd st env fs log].
  - by repeat split.
  - cbn [inventory realized_pnl set_trades_log set_fills_at].
    destruct (sell_loop _ _ _ _ _ _) as [[inv' r']|]; by repeat split.
Qed.

(** X20: polling an order that is not closed books exactly the increase of
    its cumulative fill.  When the venue reports more than was recorded,
    one trade of the difference is logged at the order's price and side
    and the new cumulative fill is recorded; when it reports the same or
    less, nothing in the engine changes.  So polling again without news
    books nothing twice. *)
Theorem poll_books_the_increase (w : world V) (o : oid) (m : meta) (f : Qc)
    (status : option string) (v1 : V) :
  fetch_order E o (env w) = (Ok (OrderInfo (Some f) status), v1) →
  py_lower (default ""%string status) ≠ "closed"%string →
  m_side m = Buy ∨ m_side m = Sell →
  od_get o (order_meta (st w)) = Some m →
  let w' := after (poll_one E c o m) w in
  let prev := m_last_filled m in
  result (poll_one E c o m) w = Ok () ∧
  open_orders (st w') = open_orders (st w) ∧
  calls w' = calls w ++ [CFetchOrder o] ∧
  (prev < f →
   (∃ ts, trades_log (st w')
          = deque_append 5000 (Trade ts (m_side m) (m_price m) (f - prev))
              (trades_log (st w))) ∧
   od_get o (order_meta (st w')) = Some (Meta (m_price m) (m_side m) f)) ∧
  (f ≤ prev → st w' = st w).
Proof.
  intros Hf Hst Hsd Hm w' prev. subst w'.
  set (w1 := World (st w) v1 (fs w) ((EvCall (CFetchOrder o), st w) :: log w)).
  assert (calls w1 = calls w ++ [CFetchOrder o]) as Hc1.
  { subst w1. destruct w as [s v files lg]. cbn [st env fs log].
    rewrite (calls_log s s v1 v files files). apply calls_cons_call. }
  set (inc := py_max 0 (f - prev)).
  set (book := if gtb inc 0
               then on_fill E c (m_side m) (m_price m) inc >>> set_last_filled o f
               else ret ()).
  assert (poll_one E c o m w
          = match book w1 with
            | (Ok _, w2) => (Ok (), w2)
            | (Raise e, w2) => (Raise e, w2)
            end) as Hrun.
  { unfold poll_one, bind at 1, try_except, bind at 1, venue. rewrite Hf.
    cbn [ret fst snd od_filled od_status default]. unfold id. fold prev inc book w1.
    unfold bind at 1. destruct (book w1) as [[[]|e] w2]; [|done].
    rewrite bool_decide_eq_false_2 by done. reflexivity. }
  unfold result, after. rewrite Hrun. clear Hrun.
  destruct (decide (prev < f)) as [Hlt|Hge].
  - assert (inc = f - prev) as Hinc.
    { subst inc. unfold py_max, gtb. rewrite bool_decide_eq_true_2; [done|]. qc_lra. }
    assert (gtb inc 0 = true) as Hg.
    { rewrite Hinc. apply bool_decide_eq_true. qc_lra. }
    subst book. rewrite Hg, Hinc.
    destruct (on_fill_effect (m_side m) (m_price m) (f - prev) w1 Hsd)
      as (Hr & Htl & Hoo & Hom & _ & Hcalls).
    rewrite (bind_ok _ _ _ _ Hr).
    set (w2 := after (on_fill E c (m_side m) (m_price m) (f - prev)) w1) in *.
    unfold set_last_filled. rewrite bind_get_st, Hom. subst w1. cbn [st] in *.
    rewrite Hm. cbn [modify fst snd st].
    split; [done|]. split; [done|]. split.
    { destruct w2 as [s2 v2 f2 l2]. cbn [st env fs log] in *.
      rewrite (calls_log _ s2 v2 v2 f2 f2). by rewrite Hcalls, Hc1. }
    split.
    + intros _. split; [by eexists|]. cbn. apply od_get_set_eq.
    + intros Hle. exfalso. qc_lra.
  - assert (gtb inc 0 = false) as Hg.
    { subst inc. unfold py_max, gtb.
      destruct (bool_decide (0 < f - prev)) eqn:Hb.
      - apply bool_decide_eq_true in Hb. exfalso. apply Hge. qc_lra.
      - apply bool_decide_eq_false. intros H0. qc_lra. }
    subst book. rewrite Hg. cbn [ret fst snd]. subst w1. cbn [st].
    split; [done|]. split; [done|]. split; [done|]. split; [|done].
    intros Hlt. by exfalso.
Qed.
End polling.

(** ** The grid: neighbours, construction, and the launcher's levels *)

Lemma filter_none {A} (P : A → Prop) `{∀ x, Decision (P x)} (l : list A) :
  (∀ x, x ∈ l → ¬ P x) → filter P l = [].
Proof.
  induction l as [|x l IH]; intros Hall; [done|].
  rewrite filter_cons_False by (apply Hall; by left).
  apply IH. intros y Hy. apply Hall. by right.
Qed.

Section neighbours.
Context (c : config).

Lemma neighbor_above_None p : neighbor_above c p = None ↔ ∀ x, x ∈ levels c → x ≤ p.
Proof.
  unfold neighbor_above. rewrite head_None. split.
  - intros Hf x Hx. apply Qcnot_lt_le. intros Hlt.
    assert (x ∈ filter (λ x, p < x) (levels c)) as Hin by by apply list_elem_of_filter.
    rewrite Hf in Hin. by apply elem_of_nil in Hin.
  - intros Hall. apply filter_none. intros x Hx Hlt.
    specialize (Hall x Hx). by apply Qcle_not_lt in Hall.
Qed.

Lemma neighbor_below_None p : neighbor_below c p = None ↔ ∀ x, x ∈ levels c → p ≤ x.
Proof.
  unfold neighbor_below. rewrite last_None. split.
  - intros Hf x Hx. apply Qcnot_lt_le. intros Hlt.
    assert (x ∈ filter (λ x, x < p) (levels c)) as Hin by by apply list_elem_of_filter.
    rewrite Hf in Hin. by apply elem_of_nil in Hin.
  - intros Hall. apply filter_none. intros x Hx Hlt.
    specialize (Hall x Hx). by apply Qcle_not_lt in Hall.
Qed.

(** X2: on a strictly increasing grid the two neighbour functions undo each
    other: one level up from a level of the grid and one level down again
    is that level, and the other way round.  A price has no neighbour
    above exactly when no level lies above it, and none below exactly when
    no level lies below it. *)
Theorem neighbours_are_inverse (p q : Qc) :
  StronglySorted Qclt (levels c) → p ∈ levels c →
  (neighbor_above c p = Some q → neighbor_below c q = Some p) ∧
  (neighbor_below c p = Some q → neighbor_above c q = Some p) ∧
  (neighbor_above c p = None ↔ ∀ x, x ∈ levels c → x ≤ p) ∧
  (neighbor_below c p = None ↔ ∀ x, x ∈ levels c → p ≤ x).
Proof.
  intros Hs Hp. split; [|split; [|split; [apply neighbor_above_None|apply neighbor_below_None]]].
  - intros Hq. destruct (neighbor_above_least c p q Hs Hq) as (Hin & Hlt & Hleast).
    destruct (neighbor_below c q) as [d|] eqn:Hd.
    + destruct (neighbor_below_greatest c q d Hs Hd) as (Hdin & Hdlt & Hmax).
      f_equal. specialize (Hmax p Hp Hlt).
      destruct (Qcle_lt_or_eq _ _ Hmax) as [Hpd|Hpd]; [|done].
      specialize (Hleast d Hdin Hpd). exfalso. by apply Qcle_not_lt in Hleast.
    + exfalso. pose proof (proj1 (neighbor_below_None q) Hd p Hp) as Hle.
      by apply Qcle_not_lt in Hle.
  - intros Hq. destruct (neighbor_below_greatest c p q Hs Hq) as (Hin & Hlt & Hmax).
    destruct (neighbor_above c q) as [u|] eqn:Hu.
    + destruct (neighbor_above_least c q u Hs Hu) as (Huin & Hult & Hleast).
      f_equal. specialize (Hleast p Hp Hlt).
      destruct (Qcle_lt_or_eq _ _ Hleast) as [Hup|Hup]; [|done].
      specialize (Hmax u Huin Hup). exfalso. by apply Qcle_not_lt in Hmax.
    + exfalso. pose proof (proj1 (neighbor_above_None q) Hu p Hp) as Hle.
      by apply Qcle_not_lt in Hle.
Qed.
End neighbours.

Section construction_facts.
Context {V : Type} (E : Env V).

(** The dict comprehension of [__init__]: among the entries whose price
    rounds to [p], the last one counts. *)
Lemma rounded_quantities_lookup (gq : list (Qc * Qc)) (p : Qc) :
  foldl (λ m '(k, v), <[price_to_precision E k := v]> m) (∅ : gmap Qc Qc) gq !! p
  = snd <$> last (filter (λ kv, price_to_precision E kv.1 = p) gq).
Proof.
  induction gq as [|[k v] gq IH] using rev_ind; [done|].
  rewrite foldl_app, filter_app. cbn [foldl].
  destruct (decide (price_to_precision E k = p)) as [Hk|Hk].
  - rewrite filter_cons_True by done. rewrite filter_nil, last_snoc.
    rewrite Hk. by rewrite lookup_insert_eq.
  - rewrite filter_cons_False by done. rewrite filter_nil, app_nil_r.
    by rewrite lookup_insert_ne.
Qed.

(** X1: [__init__] normalises the grid it is given.  The levels become the
    given prices rounded by [p_prec], without duplicates and in strictly
    increasing order; the quantity of a level is that of the last given
    entry whose price rounds to it, and zero when there is none.  The
    engine starts with no order, no inventory, no realized PnL, not
    initialised, and with the first fill to be ignored exactly when the
    hedge option is on. *)
Theorem construction_normalises_grid sym mkt ep cs lv gq sp cp fr ss ls bt ip :
  let c := make_config E sym mkt ep cs lv gq sp cp fr ss ls bt ip in
  StronglySorted Qclt (levels c) ∧
  (∀ x, x ∈ levels c ↔ ∃ y, y ∈ lv ∧ x = p_prec E y) ∧
  (∀ p, grid_qty c p
        = default 0 (snd <$> last (filter (λ kv, p_prec E kv.1 = p) gq))) ∧
  initial_state c = State None 0 [] [] [] [] 0 ∅ [] false ip.
Proof.
  intros c. split; [apply sorted_set_sorted|]. split; [|split; [|done]].
  - intros x. subst c. cbn [make_config levels]. rewrite sorted_set_elem.
    rewrite list_elem_of_fmap. split; intros (y & H1 & H2); exists y; by split.
  - intros p. unfold grid_qty. subst c. cbn [make_config GRID_QTY_BY_LEVEL].
    by rewrite rounded_quantities_lookup.
Qed.
End construction_facts.

Local Close Scope Qc_scope.

Section launcher64.

Lemma insert_level64_elem x l y : y ∈ insert_level64 x l → y = x ∨ y ∈ l.
Proof.
  induction l as [|z l IH]; cbn.
  - intros ?%list_elem_of_singleton. by left.
  - destruct (x <? z)%float.
    { intros [->|H]%elem_of_cons; [by left|by right]. }
    destruct (x =? z)%float.
    { intros [->|H]%elem_of_cons; [by left|right; by right]. }
    intros [->|H]%elem_of_cons; [right; by left|].
    destruct (IH H) as [->|?]; [by left|right; by right].
Qed.

Lemma insert_level64_self x l : x ∈ insert_level64 x l.
Proof.
  induction l as [|z l IH]; cbn; [by left|].
  destruct (x <? z)%float; [by left|].
  destruct (x =? z)%float; [by left|by right].
Qed.

Lemma insert_level64_length x l : (length (insert_level64 x l) ≤ S (length l))%nat.
Proof.
  induction l as [|z l IH]; cbn; [lia|].
  destruct (x <? z)%float; [cbn; lia|].
  destruct (x =? z)%float; cbn; lia.
Qed.

Lemma sorted_set64_elem l y : y ∈ sorted_set64 l → y ∈ l.
Proof.
  induction l as [|x l IH]; cbn; [done|].
  intros [->|H]%insert_level64_elem; [by left|right; by apply IH].
Qed.

Lemma sorted_set64_length l : (length (sorted_set64 l) ≤ length l)%nat.
Proof.
  induction l as [|x l IH]; [cbn; lia|].
  change (sorted_set64 (x :: l)) with (insert_level64 x (sorted_set64 l)).
  pose proof (insert_level64_length x (sorted_set64 l)). cbn [length]. lia.
Qed.

Lemma insert_level64_HdRel z x l :
  below z x → HdRel below z l → HdRel below z (insert_level64 x l).
Proof.
  intros Hzx Hz. destruct l as [|z' l]; cbn; [by constructor|].
  apply HdRel_inv in Hz.
  destruct (x <? z')%float; [by constructor|].
  destruct (x =? z')%float; by constructor.
Qed.

Lemma insert_level64_sorted x l :
  is_number x → Forall is_number l →
  Sorted below l → Sorted below (insert_level64 x l).
Proof.
  intros Hx Hl Hs. induction Hs as [|z l Hs IH Hz]; cbn.
  - repeat constructor.
  - apply Forall_cons in Hl as [Hzn Hl].
    destruct (x <? z)%float eqn:Hlt.
    { constructor; [by constructor|]. by constructor. }
    destruct (x =? z)%float eqn:Heq.
    { constructor; [done|]. destruct Hz as [|z' l' Hz]; constructor.
      unfold below in *. by rewrite (eqb_ltb_l x z z' Heq). }
    constructor; [by apply IH|].
    apply insert_level64_HdRel; [|done].
    by apply ltb_trichotomy.
Qed.

Lemma sorted_set64_sorted l : Forall is_number l → Sorted below (sorted_set64 l).
Proof.
  induction 1 as [|x l Hx Hl IH]; cbn; [constructor|].
  apply insert_level64_sorted; [done| |done].
  apply Forall_forall. intros y Hy%sorted_set64_elem.
  rewrite Forall_forall in Hl. by apply Hl.
Qed.

Lemma insert_level64_keeps x l w :
  (∃ y, y ∈ l ∧ (w =? y)%float = true) →
  ∃ y, y ∈ insert_level64 x l ∧ (w =? y)%float = true.
Proof.
  induction l as [|z l IH]; cbn; intros (y & Hy & Hwy).
  { by apply elem_of_nil in Hy. }
  destruct (x <? z)%float.
  { exists y. split; [by right|done]. }
  apply elem_of_cons in Hy as [->|Hy].
  - destruct (x =? z)%float eqn:Heq.
    + exists x. split; [by left|]. apply (eqb_trans _ z); [done|by apply eqb_sym].
    + exists z. split; [by left|done].
  - destruct (x =? z)%float eqn:Heq.
    + exists y. split; [by right|done].
    + destruct IH as (y' & Hy' & Hwy'); [by exists y|].
      exists y'. split; [by right|done].
Qed.

Lemma sorted_set64_covers l w :
  is_number w → w ∈ l → ∃ y, y ∈ sorted_set64 l ∧ (w =? y)%float = true.
Proof.
  intros Hw. induction l as [|x l IH]; cbn; [by intros ?%elem_of_nil|].
  intros [->|Hin]%elem_of_cons.
  - exists x. split; [apply insert_level64_self|done].
  - by apply insert_level64_keeps, IH.
Qed.

Lemma py_range_elem (n k : Z) : k ∈ py_range n ↔ (0 ≤ k < n)%Z.
Proof.
  unfold py_range. rewrite list_elem_of_fmap. split.
  - intros (i & -> & Hi). apply elem_of_seq in Hi. lia.
  - intros Hk. exists (Z.to_nat k). split; [lia|]. apply elem_of_seq. lia.
Qed.

Lemma py_range_length (n : Z) : length (py_range n) = Z.to_nat n.
Proof. unfold py_range. by rewrite length_fmap, length_seq. Qed.

(** X22: what [make_levels] returns, in the code's arithmetic.  Asked for
    at most one level it returns the two snapped bounds as they are, in the
    order given.  Asked for [n >= 2] levels it raises [OverflowError] when
    [n - 1] is beyond the range of a float; otherwise it returns at most
    [n] prices, each the snapped value of [lower + i * step] for an index
    [i] below [n], as binary64 computes it; and when all these snapped
    values are numbers, the prices are in strictly increasing order and
    every snapped value is equal to one of them. *)
Theorem make_levels64_sorted_grid (lower upper : float) (n : Z) (snap : float → float) :
  ((n ≤ 1)%Z → make_levels64 lower upper n snap = Ok [snap lower; snap upper]) ∧
  ((2 ≤ n)%Z →
   match py_float_of_int (n - 1) with
   | Raise e => make_levels64 lower upper n snap = Raise OverflowError
   | Ok d =>
       let point := λ k : Z, snap (lower + Z2F k * ((upper - lower) / d))%float in
       ∃ ls, make_levels64 lower upper n snap = Ok ls ∧
             (length ls ≤ Z.to_nat n)%nat ∧
             (∀ x, x ∈ ls → ∃ k, (0 ≤ k < n)%Z ∧ x = point k) ∧
             ((∀ k, (0 ≤ k < n)%Z → is_number (point k)) →
              Sorted below ls ∧
              ∀ k, (0 ≤ k < n)%Z → ∃ x, x ∈ ls ∧ (point k =? x)%float = true)
   end).
Proof.
  split.
  { intros Hn. unfold make_levels64. by rewrite bool_decide_eq_true_2. }
  intros Hn. unfold make_levels64. rewrite bool_decide_eq_false_2 by lia.
  unfold py_float_of_int. destruct (is_infinity (Z2F (n - 1))); [done|].
  pose (point := λ k : Z, snap (lower + Z2F k * ((upper - lower) / Z2F (n - 1)))%float).
  set (arr := (λ i, snap (lower + Z2F i * ((upper - lower) / Z2F (n - 1)))%float)
              <$> py_range n).
  assert (∀ x, x ∈ arr ↔ ∃ k, (0 ≤ k < n)%Z ∧ x = point k) as Harr.
  { intros x. subst arr. rewrite list_elem_of_fmap. split.
    - intros (k & -> & Hk%py_range_elem). by exists k.
    - intros (k & Hk & ->). exists k. split; [done|]. by apply py_range_elem. }
  exists (sorted_set64 arr). split; [done|]. split; [|split].
  - etrans; [apply sorted_set64_length|]. subst arr.
    by rewrite length_fmap, py_range_length.
  - intros x Hx%sorted_set64_elem. by apply Harr.
  - intros Hnum.
    assert (Forall is_number arr) as Hall.
    { apply Forall_forall. intros x (k & Hk & ->)%Harr. by apply Hnum. }
    split; [by apply sorted_set64_sorted|].
    intros k Hk. apply sorted_set64_covers; [by apply Hnum|].
    apply Harr. by exists k.
Qed.

Lemma dict_set64_elem k v d kv :
  kv ∈ dict_set64 k v d →
  (kv.2 = v ∧ same_key kv.1 k) ∨ kv ∈ d.
Proof.
  induction d as [|[k' v'] d IH]; cbn.
  - intros ->%list_elem_of_singleton. left. split; [done|by left].
  - destruct (k' =? k)%float eqn:Heq.
    + intros [->|H]%elem_of_cons; [|right; by right].
      left. split; [done|by right].
    + intros [->|H]%elem_of_cons; [right; by left|].
      destruct (IH H) as [?|?]; [by left|right; by right].
Qed.

Lemma dict_set64_key k v d k0 v0 :
  (k0, v0) ∈ d → ∃ v1, (k0, v1) ∈ dict_set64 k v d.
Proof.
  induction d as [|[k' v'] d IH]; cbn; [by intros ?%elem_of_nil|].
  intros [[= -> ->]|Hin]%elem_of_cons.
  - destruct (k' =? k)%float; eexists; by left.
  - destruct (k' =? k)%float.
    + exists v0. by right.
    + destruct (IH Hin) as [v1 Hv1]. exists v1. by right.
Qed.

Lemma dict_set64_new k v d : ∃ k0 v0, (k0, v0) ∈ dict_set64 k v d ∧ same_key k0 k.
Proof.
  induction d as [|[k' v'] d IH]; cbn.
  - exists k, v. split; [by left|by left].
  - destruct (k' =? k)%float eqn:Heq.
    + exists k', v. split; [by left|by right].
    + destruct IH as (k0 & v0 & Hin & Hk). exists k0, v0. split; [by right|done].
Qed.

Lemma level_contracts64_ok order_size contract_size p :
  (contract_size =? 0)%float = false →
  level_contracts64 order_size contract_size p
  = Ok (py_max64 0 (order_size / py_max64 p 1e-9 / contract_size)).
Proof.
  intros Hcs. unfold level_contracts64, py_div64.
  by rewrite floor_price_nonzero, Hcs.
Qed.

Lemma grid_quantities64_ok order_size contract_size levels acc :
  (contract_size =? 0)%float = false →
  ∃ d, grid_quantities64 order_size contract_size levels acc = Ok d ∧
       (∀ k v, (k, v) ∈ acc → ∃ v', (k, v') ∈ d) ∧
       (∀ p, p ∈ levels → ∃ k v, (k, v) ∈ d ∧ same_key k p) ∧
       (∀ k v, (k, v) ∈ d →
          (k, v) ∈ acc ∨
          ∃ p, p ∈ levels ∧ same_key k p ∧
               v = py_max64 0 (order_size / py_max64 p 1e-9 / contract_size)).
Proof.
  intros Hcs. revert acc. induction levels as [|p levels IH]; intros acc; cbn.
  { exists acc. split; [done|]. split; [by eauto|]. split; [by intros ? ?%elem_of_nil|].
    by left. }
  rewrite (level_contracts64_ok _ _ _ Hcs).
  set (q := py_max64 0 (order_size / py_max64 p 1e-9 / contract_size)).
  destruct (IH (dict_set64 p q acc)) as (d & Hd & Hacc & Hlev & Hval).
  exists d. split; [done|]. split; [|split].
  - intros k v Hin. destruct (dict_set64_key p q acc k v Hin) as [v1 Hv1]. by eapply Hacc.
  - intros p' [->|Hin]%elem_of_cons; [|by apply Hlev].
    destruct (dict_set64_new p q acc) as (k0 & v0 & Hin0 & Hk0).
    destruct (Hacc k0 v0 Hin0) as [v' Hv']. by exists k0, v'.
  - intros k v Hin. destruct (Hval k v Hin) as [Hin'|(p' & Hp' & Hk & Hv)].
    + apply dict_set64_elem in Hin' as [[Hv Hk]|?]; [|by left].
      right. exists p. split; [by left|]. by split.
    + right. exists p'. split; [by right|]. by split.
Qed.

(** X23: the quantities [main] computes for the grid.  The contract size
    it uses is never zero (a zero of the market is replaced by 1.0), and
    [max(p, 1e-9)] is never zero, so whatever the notional and the levels
    are, no division fails; every level gets an entry; and every entry
    belongs to a level [p] and holds
    [max(0.0, order_size / max(p, 1e-9) / contract_size)], which is a
    number and is not negative. *)
Theorem grid_quantities64_total (order_size : float) (field : option float)
    (levels : list float) :
  let contract_size := market_contract_size64 field in
  (contract_size =? 0)%float = false ∧
  ∃ d, grid_quantities64 order_size contract_size levels [] = Ok d ∧
       (∀ p, p ∈ levels → ∃ k v, (k, v) ∈ d ∧ same_key k p) ∧
       (∀ k v, (k, v) ∈ d →
          (0 <=? v)%float = true ∧
          ∃ p, p ∈ levels ∧ same_key k p ∧
               v = py_max64 0 (order_size / py_max64 p 1e-9 / contract_size)).
Proof.
  intros cs. pose proof (market_contract_size64_nonzero field) as Hcs. fold cs in Hcs.
  split; [done|].
  destruct (grid_quantities64_ok order_size cs levels [] Hcs) as (d & Hd & _ & Hlev & Hval).
  exists d. split; [done|]. split; [done|].
  intros k v Hin. destruct (Hval k v Hin) as [?%elem_of_nil|(p & Hp & Hk & ->)]; [done|].
  split; [apply max_zero_not_negative|]. by exists p.
Qed.
End launcher64.

(** An instance of [make_levels64_sorted_grid]: 71 levels from 11808.03 to
    49171.54, not snapped.  They come out in increasing order, and the
    last one, 49171.540000000008, lies above the upper bound: the grid
    points are rounded sums, and [make_levels] does not clip them. *)
Lemma make_levels64_sorted_grid_witness :
  ∃ ls, make_levels64 11808.03 49171.54 71 (λ x, x) = Ok ls ∧
        Sorted below ls ∧
        last ls = Some 49171.540000000008%float ∧
        (49171.54 <? 49171.540000000008)%float = true.
Proof.
  destruct (make_levels64_sorted_grid 11808.03 49171.54 71 (λ x, x)) as [_ H].
  assert (2 ≤ 71)%Z as Hn by lia. specialize (H Hn).
  assert (py_float_of_int (71 - 1) = Ok 70%float) as Hd by (vm_compute; reflexivity).
  rewrite Hd in H. cbv zeta in H.
  destruct H as (ls & Hls & _ & _ & Hnum).
  exists ls. split; [exact Hls|].
  assert (forallb (λ k, let x := (11808.03 + Z2F k * ((49171.54 - 11808.03) / 70))%float in
                        (x =? x)%float) (py_range 71) = true) as Hall
    by (vm_compute; reflexivity).
  destruct Hnum as [Hsorted _].
  { intros k Hk. apply py_range_elem, list_elem_of_In in Hk.
    exact (proj1 (forallb_forall _ _) Hall k Hk). }
  split; [exact Hsorted|].
  assert (make_levels64 11808.03 49171.54 71 (λ x, x)
          = Ok (sorted_set64 ((λ i, (11808.03 + Z2F i * ((49171.54 - 11808.03) / 70))%float)
                              <$> py_range 71))) as Hrun by (vm_compute; reflexivity).
  rewrite Hrun in Hls. injection Hls as <-.
  split; vm_compute; reflexivity.
Defined.

(** An instance of [grid_quantities64_total]: a notional of 20 on the
    levels 100, 105, 110 with a contract size of zero, which is replaced
    by 1.0.  And a quantity need not be positive: a notional of 5e-324 at
    the price 1e300 gives zero contracts. *)
Lemma grid_quantities64_total_witness :
  market_contract_size64 (Some 0%float) = 1%float ∧
  (∃ d, grid_quantities64 20 1 [100; 105; 110]%float [] = Ok d ∧
        (∀ p, p ∈ [100; 105; 110]%float → ∃ k v, (k, v) ∈ d ∧ same_key k p) ∧
        ∀ k v, (k, v) ∈ d → (0 <=? v)%float = true) ∧
  grid_quantities64 20 1 [100; 105; 110]%float []
  = Ok [(100, 0.2); (105, 0.19047619047619047); (110, 0.18181818181818182)]%float ∧
  grid_quantities64 5e-324 1 [1e300]%float [] = Ok [(1e300, 0)]%float.
Proof.
  split; [reflexivity|]. split; [|split; vm_compute; reflexivity].
  destruct (grid_quantities64_total 20 (Some 0%float) [100; 105; 110]%float)
    as (_ & d & Hd & Hlev & Hval).
  exists d. split; [exact Hd|]. split; [exact Hlev|].
  intros k v Hin. exact (proj1 (Hval k v Hin)).
Defined.

Local Open Scope Qc_scope.


(** ** The atomic write and the other files *)

Section atomic_write_rest.
Context {V : Type} (E : Env V).

Lemma aw_step_rest target data w0 pc w :
  String.prefix ".tmp_" (p_base target) = false →
  aw_rest w0 (fkey target) pc w →
  ∃ pc', result (aw_step E target data pc) w = Ok pc' ∧
         aw_rest w0 (fkey target) pc' (after (aw_step E target data pc) w).
Proof.
  intros Hp Hinv. unfold result, after.
  destruct pc as [|tmp todo|tmp|tmp|tmp pending|tmp|tmp pending|r]; simpl in *;
    unfold bind, query, get_fs, put_fs, ret; simpl.
  - destruct (io_fault E (env w)) as [[e|] v1]; simpl.
    { eexists. split; [reflexivity|]. by left. }
    destruct (mkstemp_suffix E v1) as [sfx v2]; simpl.
    destruct (fs w !! (dir_or_dot target, String.app ".tmp_" sfx)) eqn:Htmp; simpl.
    { eexists. split; [reflexivity|]. by left. }
    eexists. split; [reflexivity|]. cbn.
    split; [by apply tmp_name_fresh|]. split; [by rewrite <- Hinv|].
    exists ""%string. by rewrite Hinv.
  - destruct Hinv as (Hne & Hnew & written & Hfs).
    destruct todo as [|chunk todo]; simpl.
    { eexists. split; [reflexivity|]. cbn. eauto. }
    destruct (io_fault E (env w)) as [[e|] v1]; simpl.
    { eexists. split; [reflexivity|]. cbn. eauto. }
    eexists. split; [reflexivity|]. cbn. split; [done|]. split; [done|].
    eexists. rewrite Hfs. by rewrite insert_insert_eq.
  - destruct (io_fault E (env w)) as [[e|] v1]; simpl;
      eexists; (split; [reflexivity|]); exact Hinv.
  - destruct (io_fault E (env w)) as [[e|] v1]; simpl;
      eexists; (split; [reflexivity|]); exact Hinv.
  - destruct (io_fault E (env w)) as [[e|] v1], pending as [e'|]; simpl;
      eexists; (split; [reflexivity|]); exact Hinv.
  - destruct Hinv as (Hne & Hnew & written & Hfs).
    destruct (io_fault E (env w)) as [[e|] v1]; simpl.
    { eexists. split; [reflexivity|]. cbn. eauto. }
    rewrite Hfs, lookup_insert_eq. simpl.
    eexists. split; [reflexivity|]. cbn. split; [done|]. split; [done|].
    exists written. by rewrite delete_insert_eq, delete_id.
  - destruct pending as [e'|].
    + destruct Hinv as (Hne & Hnew & written & Hfs).
      rewrite Hfs, lookup_insert_eq. simpl.
      destruct (io_fault E (env w)) as [[e|] v1]; simpl.
      * eexists. split; [reflexivity|].
        destruct (is_Exception e); cbn; right; exists tmp; eauto.
      * eexists. split; [reflexivity|]. cbn. left.
        by rewrite delete_insert_eq, delete_id.
    + destruct Hinv as (Hne & Hnew & txt & Hfs).
      rewrite Hfs, lookup_insert_ne, Hnew by done. simpl.
      eexists. split; [reflexivity|]. cbn. eauto.
  - eexists. split; [reflexivity|]. exact Hinv.
Qed.

Lemma aw_run_rest n target data w0 pc w :
  String.prefix ".tmp_" (p_base target) = false →
  aw_rest w0 (fkey target) pc w →
  ∃ pc', result (aw_run E n target data pc) w = Ok pc' ∧
         aw_rest w0 (fkey target) pc' (after (aw_run E n target data pc) w).
Proof.
  intros Hp. revert pc w. induction n as [|n IH]; intros pc w Hinv; simpl.
  { by exists pc. }
  destruct (aw_step_rest target data w0 pc w Hp Hinv) as (pc1 & Hr & Hinv1).
  rewrite (result_bind_ok _ _ _ _ Hr), (after_bind_ok _ _ _ _ Hr).
  by apply IH.
Qed.

Lemma aw_run_same_st n target data pc :
  rel (same_part (V:=V) (λ s, s)) (aw_run E n target data pc).
Proof.
  revert pc. induction n as [|n IH]; intros pc; simpl; [apply rel_ret; apply _|].
  apply rel_bind; [apply _| |intros pc'; apply IH].
  unfold aw_step. repeat first [rel_step | apply part_query | apply part_put_fs].
Qed.

(** X18: a snapshot write changes the state file and nothing else.  When
    [_atomic_write_json] returns, the file system is the one it started
    from with the target holding the whole document: no temp file is left
    and no other file is touched.  When it raises, the file system is as
    it was, except that the temp file, which did not exist before, is left
    behind if removing it failed as well.  The engine's attributes are not
    touched either way. *)
Theorem snapshot_write_touches_only_the_state_file (w : world V) (target : path)
    (data : state_doc) :
  String.prefix ".tmp_" (p_base target) = false →
  let full := concat_chunks (json_dump E data) in
  let w' := after (atomic_write_json E target data) w in
  st w' = st w ∧
  (result (atomic_write_json E target data) w = Ok () →
   fs w' = <[fkey target := full]> (fs w)) ∧
  (∀ e, result (atomic_write_json E target data) w = Raise e →
     fs w' = fs w ∨
     ∃ tmp partial, tmp ≠ fkey target ∧ fs w !! tmp = None ∧
                    fs w' = <[tmp := partial]> (fs w)).
Proof.
  intros Hp full w'.
  pose proof (atomic_write_json_outcome E target data w Hp) as Hout.
  destruct (atomic_write_json_run E target data w) as (r & Hrun & Hres & Hafter).
  assert (aw_rest w (fkey target) AwMkstemp w) as H0 by done.
  destruct (aw_run_rest (length (json_dump E data) + 7) target data w AwMkstemp w Hp H0)
    as (pc & Hpc & Hinv).
  rewrite Hrun in Hpc. injection Hpc as <-.
  subst w'. rewrite Hres in *. rewrite Hafter in *.
  split; [apply (aw_run_same_st _ target data AwMkstemp w)|]. split.
  - intros ->. cbn in Hinv. destruct Hinv as (txt & Hfs).
    rewrite Hfs in Hout |- *. rewrite lookup_insert_eq in Hout. by injection Hout as ->.
  - intros e ->. cbn in Hinv. destruct Hinv as [?|(tmp & ? & ? & partial & ?)]; [by left|].
    right. by exists tmp, partial.
Qed.
End atomic_write_rest.

(** ** What initialisation submits *)

Section initialisation.
Context {V : Type} (E : Env V) (c : config).

(** *** The limit orders of the initial grid *)

Lemma init_level_placements px acc l (w : world V) :
  ∃ new, placements (after (init_level E c px acc l) w) = placements w ++ new ∧
         new `sublist_of` option_list (plan_entry E c px l).
Proof.
  unfold init_level, plan_entry.
  assert (∀ A (a : A), ∃ new, placements (after (ret (V:=V) a) w) = placements w ++ new ∧
                              new `sublist_of` []) as Hret.
  { intros A a. exists []. by rewrite app_nil_r. }
  assert (∀ A sd (k : option oid → M (V:=V) A),
            (∀ r, rel quiet (k r)) →
            ∃ new, placements (after (bind (safe_place E c sd l (grid_qty c l)) k) w)
                   = placements w ++ new ∧
                   new `sublist_of` [CPlaceLimit sd (p_prec E l) (q_prec E (grid_qty c l))])
    as Hsp.
  { intros A sd k Hk.
    pose proof (safe_place_effect E c w sd l (grid_qty c l)) as Heff. cbv zeta in Heff.
    assert (placements (after (bind (safe_place E c sd l (grid_qty c l)) k) w)
            = placements (after (safe_place E c sd l (grid_qty c l)) w)) as ->.
    { unfold after at 1, bind.
      destruct (safe_place E c sd l (grid_qty c l) w) as [[r|e] w1] eqn:Hrun;
        unfold after; rewrite Hrun; cbn [snd]; [|done].
      apply quiet_placements. apply (Hk r w1). }
    destruct Heff as [[-> _]|(_ & -> & _)].
    - exists []. rewrite app_nil_r. split; [done|]. apply sublist_nil_l.
    - by eexists. }
  destruct (leb (grid_qty c l) 0); [apply Hret|].
  destruct (gtb l px).
  { apply Hsp. intros r. apply rel_ret. apply _. }
  destruct (ltb l px); [|apply Hret].
  apply Hsp. intros r. apply rel_ret. apply _.
Qed.

Lemma init_fold_placements px ls acc (w : world V) :
  ∃ new, placements (after (fold_each ls acc (init_level E c px)) w) = placements w ++ new ∧
         new `sublist_of` omap (plan_entry E c px) ls.
Proof.
  revert acc w. induction ls as [|l ls IH]; intros acc w.
  { exists []. cbn. by rewrite app_nil_r. }
  cbn [fold_each].
  destruct (init_level_placements px acc l w) as (new1 & H1 & Hs1).
  assert (omap (plan_entry E c px) (l :: ls)
          = option_list (plan_entry E c px l) ++ omap (plan_entry E c px) ls) as ->.
  { cbn. by destruct (plan_entry E c px l). }
  destruct (result (init_level E c px acc l) w) as [acc'|e] eqn:Hr.
  - rewrite (after_bind_ok _ _ _ _ Hr).
    destruct (IH acc' (after (init_level E c px acc l) w)) as (new2 & H2 & Hs2).
    exists (new1 ++ new2). split; [by rewrite H2, H1, app_assoc|].
    by apply sublist_app.
  - unfold after at 1. rewrite (bind_raise _ _ _ _ Hr). cbn [snd].
    exists new1. split; [done|]. by apply sublist_inserts_r.
Qed.

Lemma place_market_placements sd q (w : world V) :
  placements (after (place_market E sd q) w)
  = placements w ++ [CCreateOrder Market sd (q_prec E q) None false].
Proof.
  destruct w as [s v files l].
  unfold after, place_market, try_except, bind, venue, print, emit, ret.
  cbn [st env fs log].
  destruct (create_order E Market sd (q_prec E q) None false v) as [[o|e] v'];
    cbn [snd st env fs log].
  - rewrite !placements_cons. cbn [placement_of is_placement]. by rewrite app_nil_r.
  - destruct (is_Exception e); cbn [snd st env fs log];
      rewrite !placements_cons; cbn [placement_of is_placement]; by rewrite ?app_nil_r.
Qed.

Lemma init_end_placements px total (w : world V) :
  placements (after (modify (set_initialized_full true) >>>
                     print (MInitialized px total)) w) = placements w.
Proof.
  destruct w as [s v files l]. unfold after, bind, modify, print, emit.
  cbn [fst snd st env fs log]. rewrite placements_cons.
  cbn [placement_of is_placement]. by rewrite app_nil_r.
Qed.

(** X21: what [_initialize_full_grid_once] submits.  Its limit orders are
    taken, in the order of the levels, from a plan that has one order for
    every level with a positive quantity: a sell when the level is above
    the reference price read at the start, a buy when it is below, and
    none for a level at that price.  After them comes at most one order
    more, the market buy of the hedge, and only with [init_position]
    enabled. *)
Theorem initial_grid_follows_the_plan (w : world V) (px : Qc) :
  initialized_full (st w) = false →
  result (current_mark_or_mid E c) w = Ok px →
  let w' := after (initialize_full_grid_once E c) w in
  ∃ limits hedge,
    placements w' = placements w ++ limits ++ hedge ∧
    limits `sublist_of` init_plan E c px ∧
    (hedge = [] ∨
     init_position_enabled c = true ∧ ∃ q, hedge = [CCreateOrder Market Buy q None false]).
Proof.
  intros Hflag Hpx w'. subst w'. unfold after at 1, initialize_full_grid_once.
  rewrite bind_get_st, Hflag, (bind_ok _ _ _ _ Hpx).
  set (w1 := after (current_mark_or_mid E c) w).
  assert (placements w1 = placements w) as Hp1
    by apply quiet_placements, quiet_current_mark_or_mid.
  destruct (init_fold_placements px (levels c) 0 w1) as (limits & Hp2 & Hsub).
  exists limits. rewrite Hp1 in Hp2.
  destruct (result (fold_each (levels c) 0 (init_level E c px)) w1) as [total|e] eqn:Hr.
  2:{ rewrite (bind_raise _ _ _ _ Hr). cbn [snd]. exists []. rewrite app_nil_r. auto. }
  rewrite (bind_ok _ _ _ _ Hr).
  set (w2 := after (fold_each (levels c) 0 (init_level E c px)) w1) in *.
  destruct (init_position_enabled c && gtb total 0) eqn:Hguard.
  - apply andb_true_iff in Hguard as [Hen _].
    exists [CCreateOrder Market Buy (q_prec E total) None false].
    split; [|split; [done|right; split; [done|by eexists]]].
    pose proof (place_market_placements Buy total w2) as Hpm.
    unfold bind at 1. unfold bind at 1. unfold after in Hpm.
    destruct (place_market E Buy total w2) as [[o|e] w3]; cbn [snd] in *.
    + unfold ret at 1. fold (after (modify (set_initialized_full true) >>>
                                    print (MInitialized px total)) w3).
      by rewrite init_end_placements, Hpm, Hp2, app_assoc.
    + by rewrite Hpm, Hp2, app_assoc.
  - exists []. split; [|auto]. unfold bind at 1. unfold ret at 1.
    fold (after (modify (set_initialized_full true) >>> print (MInitialized px total)) w2).
    by rewrite init_end_placements, Hp2, app_nil_r.
Qed.
End initialisation.

(** ** Instances of the properties on the test environments *)

(** An instance of [order_book_failure_gives_entry_price]: the ticker has
    no mark price and a last price of 104, the order book fails, and the
    result is the entry price 105. *)
Lemma order_book_failure_gives_entry_price_witness :
  let E := degraded_env in
  let c := test_config false in
  let w := test_world false in
  (fetch_ticker E (env w) = (Ok (Ticker None (Some (qint 104))), 0%nat) ∧
   fetch_order_book E 0%nat = (Raise ExchangeError, 0%nat) ∧
   is_Exception ExchangeError = true) ∧
  result (current_mark_or_mid E c) w = Ok (entry_price c) ∧
  calls (after (current_mark_or_mid E c) w) = calls w ++ [CFetchTicker; CFetchOrderBook].
Proof.
  intros E c w. split; [split; [reflexivity|split; reflexivity]|].
  apply (order_book_failure_gives_entry_price E c w (Ticker None (Some (qint 104)))
           0%nat 0%nat ExchangeError);
    [reflexivity|left; reflexivity|reflexivity|reflexivity].
Defined.

(** An instance of [band_reused_within_ttl]: the band (200, 50) fetched at
    time 0 is served again at time 0, whatever the fallback price. *)
Lemma band_reused_within_ttl_witness :
  let E := test_env false in
  let c := test_config false in
  let w := test_world false in
  let w1 := after (fetch_price_band_cached E c (qint 105)) w in
  let w2 := after (fetch_price_band_cached E c (qint 90)) w1 in
  (result (fetch_price_band_cached E c (qint 105)) w = Ok (qint 200, qint 50) ∧
   (time_time E (env w1)).1 - band_ts (st w1) < band_ttl c) ∧
  result (fetch_price_band_cached E c (qint 90)) w1 = Ok (qint 200, qint 50) ∧
  st w2 = st w1 ∧ calls w2 = calls w1.
Proof.
  intros E c w w1 w2.
  assert (result (fetch_price_band_cached E c (qint 105)) w = Ok (qint 200, qint 50)) as H1
    by by_eval.
  assert ((time_time E (env w1)).1 - band_ts (st w1) < band_ttl c) as H2 by by_eval.
  split; [exact (conj H1 H2)|].
  exact (band_reused_within_ttl E c w (qint 105) (qint 90) (qint 200, qint 50) H1 H2).
Defined.

(** An instance of [band_falls_back_to_two_percent]: nothing is cached,
    the price limits fail, and the band becomes 105 plus and minus two
    percent. *)
Lemma band_falls_back_to_two_percent_witness :
  let E := degraded_env in
  let c := test_config false in
  let w := test_world false in
  let w' := after (fetch_price_band_cached E c (qint 105)) w in
  (band_cache (st w) = None ∧
   mkt_id c = Some "BTC-USDT-SWAP"%string ∧
   unusable_limits (public_price_limit E "BTC-USDT-SWAP" 0%nat).1) ∧
  result (fetch_price_band_cached E c (qint 105)) w
  = Ok (p_prec E (p_prec E (qint 105) * qfrac 102 100),
        p_prec E (p_prec E (qint 105) * qfrac 98 100)) ∧
  band_cache (st w')
  = Some (p_prec E (p_prec E (qint 105) * qfrac 102 100),
          p_prec E (p_prec E (qint 105) * qfrac 98 100)) ∧
  band_ts (st w') = (time_time E (env w)).1.
Proof.
  intros E c w w'.
  assert (band_cache (st w) = None) as H1 by reflexivity.
  assert (mkt_id c = Some "BTC-USDT-SWAP"%string) as H2 by reflexivity.
  assert (unusable_limits (public_price_limit E "BTC-USDT-SWAP" 0%nat).1) as H3 by reflexivity.
  split; [exact (conj H1 (conj H2 H3))|].
  apply (band_falls_back_to_two_percent E c w (qint 105)); [by left|].
  right. exists "BTC-USDT-SWAP"%string. split; [exact H2|exact H3].
Defined.

(** An instance of [cancel_by_price_forgets_order]: the buy at 100 is
    forgotten although the venue refuses the cancel. *)
Lemma cancel_by_price_forgets_order_witness :
  let E := degraded_env in
  let w := grid_world in
  let w' := after (safe_cancel_by_price E (qint 100)) w in
  (NoDup (od_keys (open_orders (st w))) ∧
   od_get (qint 100) (open_orders (st w)) = Some (test_oid 0) ∧
   (cancel_order E (test_oid 0) (env w)).1 = Raise ExchangeError) ∧
  od_mem (qint 100) (open_orders (st w')) = false ∧
  calls w' = calls w ++ [CCancelOrder (test_oid 0)] ∧
  result (safe_cancel_by_price E (qint 100)) w = Ok true ∧
  order_meta (st w') = od_del (test_oid 0) (order_meta (st w)).
Proof.
  intros E w w'.
  assert (NoDup (od_keys (open_orders (st w)))) as H1 by by_eval.
  assert (od_get (qint 100) (open_orders (st w)) = Some (test_oid 0)) as H2 by by_eval.
  assert ((cancel_order E (test_oid 0) (env w)).1 = Raise ExchangeError) as H3 by reflexivity.
  split; [exact (conj H1 (conj H2 H3))|].
  destruct (cancel_by_price_forgets_order E w (qint 100) H1) as [Hgone Hrest].
  change (p_prec E (qint 100)) with (qint 100) in Hgone, Hrest.
  rewrite H2 in Hrest.
  assert (test_oid 0 ≠ ""%string) as Hne by discriminate.
  destruct (Hrest Hne) as (_ & Hcalls & Hok).
  assert ((cancel_order E (test_oid 0) (env w)).1 ≠ Raise KeyboardInterrupt) as Hki
    by (rewrite H3; discriminate).
  destruct (Hok Hki) as [Hres Hmeta].
  split; [exact Hgone|]. split; [exact Hcalls|]. split; [exact Hres|exact Hmeta].
Defined.

(** An instance of [cancel_all_empties_order_book]: both orders of the
    grid are forgotten although the venue refuses both cancels. *)
Lemma cancel_all_empties_order_book_witness :
  let E := degraded_env in
  let w := grid_world in
  let w' := after (cancel_all_open_orders E) w in
  (NoDup (od_keys (order_meta (st w))) ∧
   (open_orders (st w)).*2 = [test_oid 0; test_oid 1]) ∧
  result (cancel_all_open_orders E) w = Ok () ∧
  open_orders (st w') = [] ∧
  calls w' = calls w ++ (CCancelOrder <$> (open_orders (st w)).*2).
Proof.
  intros E w w'.
  assert (NoDup (od_keys (order_meta (st w)))) as H1 by by_eval.
  assert ((open_orders (st w)).*2 = [test_oid 0; test_oid 1]) as H2 by by_eval.
  split; [exact (conj H1 H2)|].
  destruct (cancel_all_empties_order_book E w H1) as (_ & Hok & Hres).
  assert (result (cancel_all_open_orders E) w = Ok ()) as Hr.
  { apply Hok. intros o v. discriminate. }
  destruct (Hres Hr) as (Ho & Hc & _).
  split; [exact Hr|]. split; [exact Ho|exact Hc].
Defined.

(** An instance of [ledger_changes_only_by_fills]: initialising the grid
    with the hedge on buys at market, and books nothing. *)
Lemma ledger_changes_only_by_fills_witness :
  let E := test_env false in
  let c := test_config true in
  let w := test_world true in
  let w' := after (exec E c OpInit) w in
  books_fills OpInit = false ∧
  inventory (st w') = inventory (st w) ∧ realized_pnl (st w') = realized_pnl (st w) ∧
  trades_log (st w') = trades_log (st w) ∧ fills_at (st w') = fills_at (st w).
Proof.
  intros E c w w'. split; [reflexivity|].
  exact (ledger_changes_only_by_fills E c OpInit w eq_refl).
Defined.

(** An instance of [market_orders_only_hedge]: the test world after the
    grid was initialised with the hedge on. *)
Lemma market_orders_only_hedge_witness :
  let E := test_env false in
  let c := test_config true in
  let w := after (exec E c OpInit) (test_world true) in
  reachable E c w ∧
  CCreateOrder Market Buy 1 None false ∈ calls w ∧
  Forall (market_ok c) (log w).
Proof.
  intros E c w.
  assert (reachable E c w) as Hr by (apply reach_step, reach_init).
  split; [exact Hr|]. split; [by_eval|].
  exact (proj1 (market_orders_only_hedge E c w Hr)).
Defined.

(** An instance of [history_is_bounded]: the test world after one pass of
    the main loop. *)
Lemma history_is_bounded_witness :
  let E := test_env false in
  let c := test_config false in
  let w := after (exec E c (OpTick 20 1)) (test_world false) in
  reachable E c w ∧
  (length (trades_log (st w)) ≤ 5000)%nat ∧ (length (equity_series (st w)) ≤ 5000)%nat.
Proof.
  intros E c w.
  assert (reachable E c w) as Hr by (apply reach_step, reach_init).
  split; [exact Hr|]. exact (history_is_bounded E c w Hr).
Defined.


(** An instance of [snapshot_lists_open_orders_by_price]: the two orders of
    the grid. *)
Lemma snapshot_lists_open_orders_by_price_witness :
  let E := test_env false in
  let c := test_config false in
  let d := held_doc in
  result (build_state_doc E c) held_world = Ok d ∧
  d_open_orders d ≡ₚ listed (st held_world) <$> open_orders (st held_world) ∧
  StronglySorted (λ a b, a.1.1 ≤ b.1.1) (d_open_orders d).
Proof.
  intros E c d.
  assert (result (build_state_doc E c) held_world = Ok d) as H1 by by_eval.
  split; [exact H1|]. exact (snapshot_lists_open_orders_by_price E c held_world d H1).
Defined.

(** An instance of [snapshot_history_windows]: one trade and one equity
    sample. *)
Lemma snapshot_history_windows_witness :
  let E := test_env false in
  let c := test_config false in
  let d := held_doc in
  result (build_state_doc E c) held_world = Ok d ∧
  (length (d_trades d) ≤ 300)%nat ∧ d_trades d `suffix_of` trades_log (st held_world) ∧
  (length (d_equity_series d) ≤ 2000)%nat ∧
  d_equity_series d `suffix_of` equity_series (st (after (build_state_doc E c) held_world)) ∧
  ∃ ts, last (d_equity_series d)
        = Some (EquityPoint ts (d_equity d) (d_realized_pnl d) (d_unrealized_pnl d)).
Proof.
  intros E c d.
  assert (result (build_state_doc E c) held_world = Ok d) as H1 by by_eval.
  split; [exact H1|]. exact (snapshot_history_windows E c held_world d H1).
Defined.

(** An instance of [snapshot_needs_contract_size]: two contracts in the
    ledger and a contract size of zero. *)
Lemma snapshot_needs_contract_size_witness :
  let E := test_env false in
  let c := zero_size_config in
  let w := after (on_fill E c Buy (qint 100) (qint 2)) (initial_world c 0%nat ∅) in
  let w' := after (snapshot_and_dump E c) w in
  (contract_size c = 0 ∧ dust < total_contracts (inventory (st w)) ∧
   result (current_mark_or_mid E c) w = Ok (qint 105)) ∧
  result (snapshot_and_dump E c) w = Raise ZeroDivisionError ∧
  equity_series (st w') = equity_series (st w) ∧ fs w' = fs w.
Proof.
  intros E c w w'.
  assert (contract_size c = 0) as H1 by reflexivity.
  assert (dust < total_contracts (inventory (st w))) as H2 by by_eval.
  assert (result (current_mark_or_mid E c) w = Ok (qint 105)) as H3 by by_eval.
  split; [exact (conj H1 (conj H2 H3))|].
  exact (snapshot_needs_contract_size E c w (qint 105) H1 H2 H3).
Defined.

(** An instance of [polling_survives_venue_outage]: the two orders of the
    grid are asked about and stay as they are. *)
Lemma polling_survives_venue_outage_witness :
  let E := degraded_env in
  let c := test_config false in
  let w := grid_world in
  let w' := after (poll_and_handle_fills E c) w in
  (∀ o v, ∃ e, (fetch_order E o v).1 = Raise e ∧ is_Exception e = true) ∧
  (order_meta (st w)).*1 = [test_oid 0; test_oid 1] ∧
  result (poll_and_handle_fills E c) w = Ok () ∧ st w' = st w ∧ fs w' = fs w ∧
  calls w' = calls w ++ (CFetchOrder <$> (order_meta (st w)).*1).
Proof.
  intros E c w w'.
  assert (∀ o v, ∃ e, (fetch_order E o v).1 = Raise e ∧ is_Exception e = true) as H1.
  { intros o v. exists ExchangeError. split; reflexivity. }
  split; [exact H1|]. split; [by_eval|].
  exact (polling_survives_venue_outage E c w H1).
Defined.

(** An instance of [poll_books_the_increase]: the buy at 100, with nothing
    recorded so far, is reported half filled; a trade of one half is
    logged and the fill recorded. *)
Lemma poll_books_the_increase_witness :
  let E := half_filled_env in
  let c := test_config false in
  let w := grid_world in
  let o := test_oid 0 in
  let m := Meta (qint 100) Buy 0 in
  let w' := after (poll_one E c o m) w in
  (fetch_order E o (env w) = (Ok (OrderInfo (Some (qfrac 1 2)) (Some "open"%string)), env w) ∧
   py_lower "open" ≠ "closed"%string ∧
   od_get o (order_meta (st w)) = Some m) ∧
  result (poll_one E c o m) w = Ok () ∧
  open_orders (st w') = open_orders (st w) ∧
  (∃ ts, trades_log (st w')
         = deque_append 5000 (Trade ts Buy (qint 100) (qfrac 1 2 - 0)) (trades_log (st w))) ∧
  od_get o (order_meta (st w')) = Some (Meta (qint 100) Buy (qfrac 1 2)).
Proof.
  intros E c w o m w'.
  assert (fetch_order E o (env w)
          = (Ok (OrderInfo (Some (qfrac 1 2)) (Some "open"%string)), env w)) as H1
    by reflexivity.
  assert (py_lower "open" ≠ "closed"%string) as H2 by by_eval.
  assert (od_get o (order_meta (st w)) = Some m) as H3 by by_eval.
  split; [exact (conj H1 (conj H2 H3))|].
  destruct (poll_books_the_increase E c w o m (qfrac 1 2) (Some "open"%string) (env w)
              H1 H2 (or_introl eq_refl) H3) as (Hr & Hoo & _ & Hinc & _).
  assert (m_last_filled m < qfrac 1 2) as Hlt by by_eval.
  destruct (Hinc Hlt) as [Htr Hmeta].
  split; [exact Hr|]. split; [exact Hoo|]. split; [exact Htr|exact Hmeta].
Defined.

(** An instance of [neighbours_are_inverse]: 105 and 110 in the test
    grid. *)
Lemma neighbours_are_inverse_witness :
  let c := test_config false in
  (StronglySorted Qclt (levels c) ∧ qint 105 ∈ levels c) ∧
  neighbor_above c (qint 105) = Some (qint 110) ∧
  neighbor_below c (qint 110) = Some (qint 105).
Proof.
  intros c.
  assert (StronglySorted Qclt (levels c)) as H1 by apply make_config_levels_sorted.
  assert (qint 105 ∈ levels c) as H2 by by_eval.
  split; [exact (conj H1 H2)|].
  assert (neighbor_above c (qint 105) = Some (qint 110)) as H3 by by_eval.
  split; [exact H3|].
  exact (proj1 (neighbours_are_inverse c (qint 105) (qint 110) H1 H2) H3).
Defined.


(** An instance of [snapshot_write_touches_only_the_state_file]: the
    first write of the state file of the test world. *)
Lemma snapshot_write_touches_only_the_state_file_witness :
  let E := test_env false in
  let c := test_config false in
  let w := test_world false in
  let w' := after (atomic_write_json E (STATE_PATH c) test_doc) w in
  (String.prefix ".tmp_" (p_base (STATE_PATH c)) = false ∧
   result (atomic_write_json E (STATE_PATH c) test_doc) w = Ok ()) ∧
  st w' = st w ∧
  fs w' = <[fkey (STATE_PATH c) := concat_chunks (json_dump E test_doc)]> (fs w).
Proof.
  intros E c w w'.
  assert (String.prefix ".tmp_" (p_base (STATE_PATH c)) = false) as H1 by reflexivity.
  assert (result (atomic_write_json E (STATE_PATH c) test_doc) w = Ok ()) as H2 by by_eval.
  split; [exact (conj H1 H2)|].
  destruct (snapshot_write_touches_only_the_state_file E w (STATE_PATH c) test_doc H1)
    as (Hst & Hok & _).
  split; [exact Hst|exact (Hok H2)].
Defined.

(** An instance of [initial_grid_follows_the_plan]: the test grid around
    a reference price of 105, with the hedge on. *)
Lemma initial_grid_follows_the_plan_witness :
  let E := test_env false in
  let c := test_config true in
  let w := test_world true in
  let w' := after (initialize_full_grid_once E c) w in
  (initialized_full (st w) = false ∧ result (current_mark_or_mid E c) w = Ok (qint 105)) ∧
  init_plan E c (qint 105) = [CPlaceLimit Buy (qint 100) 1; CPlaceLimit Sell (qint 110) 1] ∧
  ∃ limits hedge,
    placements w' = placements w ++ limits ++ hedge ∧
    limits `sublist_of` init_plan E c (qint 105) ∧
    (hedge = [] ∨
     init_position_enabled c = true ∧ ∃ q, hedge = [CCreateOrder Market Buy q None false]).
Proof.
  intros E c w w'.
  assert (initialized_full (st w) = false) as H1 by reflexivity.
  assert (result (current_mark_or_mid E c) w = Ok (qint 105)) as H2 by by_eval.
  split; [exact (conj H1 H2)|]. split; [by_eval|].
  exact (initial_grid_follows_the_plan E c w (qint 105) H1 H2).
Defined.
